(** * agent-md-tool: the download pipeline and the marked-block merger

    A shallow embedding of the TypeScript sources [downloader.ts],
    [generator.ts] and [indexer.ts], and of the parts of [llms-txt.ts],
    [gitignore.ts], [project.ts] and [index.ts] that they meet.

    JavaScript strings are sequences of code units.  They are modelled as
    lists of [ascii] characters, so a character stands for a code unit below
    256; the whitespace set of [trim] and [trimEnd] is the JavaScript one
    restricted to that range.  [indexOf] returns [None] where JavaScript
    returns [-1].  A function that throws returns a sum with the error on
    the left, or an option where it throws one error only.  The network,
    the file system and the collation of the platform are parameters: an
    oracle gives the outcome of each request and file operation, and the
    path functions are those of POSIX.  For the statements that run the
    sort of several directory keys, [rootCollation] is the root collation
    of CLDR on strings of ASCII letters and digits. *)

From Stdlib Require Import Ascii String.
From Stdlib Require Import List Bool Arith PeanoNat NArith Lia.
From Stdlib Require Import Sorting.Sorted Sorting.Permutation.
Import ListNotations.

Local Open Scope list_scope.
Local Open Scope bool_scope.

(** ** Strings *)

Definition str := list ascii.

Abbreviation L := list_ascii_of_string.

Definition nl : ascii := "010"%char.
Definition slash : ascii := "/"%char.

Fixpoint str_eqb (a b : str) : bool :=
  match a, b with
  | [], [] => true
  | x :: a', y :: b' => Ascii.eqb x y && str_eqb a' b'
  | _, _ => false
  end.

(** [s.startsWith(p)] *)
Fixpoint startsWith (p s : str) : bool :=
  match p, s with
  | [], _ => true
  | _ :: _, [] => false
  | x :: p', y :: s' => Ascii.eqb x y && startsWith p' s'
  end.

(** [s.endsWith(p)] *)
Definition endsWith (p s : str) : bool := startsWith (rev p) (rev s).

(** [h.indexOf(n)]: the offset of the first occurrence, [None] for [-1]. *)
Fixpoint indexOf (n h : str) : option nat :=
  if startsWith n h then Some 0
  else match h with
       | [] => None
       | _ :: t => option_map S (indexOf n t)
       end.

(** [h.includes(n)] *)
Definition includes (n h : str) : bool :=
  match indexOf n h with Some _ => true | None => false end.

(** [s.substring(a)] and [s.substring(0, b)] for offsets within the string. *)
Definition substringFrom (a : nat) (s : str) : str := skipn a s.
Definition substringTo (b : nat) (s : str) : str := firstn b s.

(** White space and line terminators of ECMAScript among the code units
    below 256: TAB, LF, VT, FF, CR, SP and NBSP. *)
Definition isSpace (c : ascii) : bool :=
  let n := nat_of_ascii c in
  (n =? 9) || (n =? 10) || (n =? 11) || (n =? 12) || (n =? 13) || (n =? 32) || (n =? 160).

(** The string without its longest suffix of characters satisfying [p]. *)
Fixpoint dropEndWhile (p : ascii -> bool) (s : str) : str :=
  match s with
  | [] => []
  | c :: t =>
      match dropEndWhile p t with
      | [] => if p c then [] else [c]
      | t' => c :: t'
      end
  end.

(** The string without its longest prefix of characters satisfying [p]. *)
Fixpoint dropWhile (p : ascii -> bool) (s : str) : str :=
  match s with
  | [] => []
  | c :: t => if p c then dropWhile p t else s
  end.

(** The longest prefix of characters satisfying [p]. *)
Fixpoint takeWhile (p : ascii -> bool) (s : str) : str :=
  match s with
  | [] => []
  | c :: t => if p c then c :: takeWhile p t else []
  end.

(** [s.trimEnd()] and [s.trimStart()] *)
Definition trimEnd (s : str) : str := dropEndWhile isSpace s.
Definition trimStart (s : str) : str := dropWhile isSpace s.

(** [s.trim()] *)
Definition trim (s : str) : str := trimEnd (trimStart s).

(** [parts.join(sep)] *)
Fixpoint join (sep : str) (parts : list str) : str :=
  match parts with
  | [] => []
  | [p] => p
  | p :: rest => p ++ sep ++ join sep rest
  end.

(** [s.split(c)] for a one-character separator. *)
Fixpoint splitOn (c : ascii) (s : str) : list str :=
  match s with
  | [] => [[]]
  | x :: t =>
      if Ascii.eqb x c then [] :: splitOn c t
      else match splitOn c t with
           | [] => [[x]]
           | w :: ws => (x :: w) :: ws
           end
  end.

Definition isNl (c : ascii) : bool := Ascii.eqb c nl.
Definition isSlash (c : ascii) : bool := Ascii.eqb c slash.
Definition notSlash (c : ascii) : bool := negb (isSlash c).

(** [n] occurs in [h] at offset [i]. *)
Definition occ (n h : str) (i : nat) : Prop := startsWith n (skipn i h) = true.

(** Comparison of two strings by code units, the order of the default
    [Array.prototype.sort]. *)
Fixpoint codeUnitCompare (a b : str) : comparison :=
  match a, b with
  | [], [] => Eq
  | [], _ :: _ => Lt
  | _ :: _, [] => Gt
  | x :: a', y :: b' =>
      match Nat.compare (nat_of_ascii x) (nat_of_ascii y) with
      | Eq => codeUnitCompare a' b'
      | c => c
      end
  end.

(** A stable sort by a comparator: what [Array.prototype.sort] returns for a
    consistent comparator. *)
Fixpoint insertBy {A : Type} (cmp : A -> A -> comparison) (x : A) (l : list A)
  : list A :=
  match l with
  | [] => [x]
  | y :: t =>
      match cmp x y with
      | Gt => y :: insertBy cmp x t
      | _ => x :: l
      end
  end.

Definition sortBy {A : Type} (cmp : A -> A -> comparison) (l : list A) : list A :=
  fold_right (insertBy cmp) [] l.

(** ** path (POSIX) *)

Module Path.

(** [normalizeString(path, allowAboveRoot)] over the segments of the path;
    [acc] holds the segments kept so far, last one first. *)
Fixpoint normalizeSegs (allowAboveRoot : bool) (acc segs : list str) : list str :=
  match segs with
  | [] => rev acc
  | s :: rest =>
      if str_eqb s [] || str_eqb s (L ".") then
        normalizeSegs allowAboveRoot acc rest
      else if str_eqb s (L "..") then
        match acc with
        | top :: acc' =>
            if str_eqb top (L "..") then
              normalizeSegs allowAboveRoot
                (if allowAboveRoot then s :: acc else acc) rest
            else normalizeSegs allowAboveRoot acc' rest
        | [] =>
            normalizeSegs allowAboveRoot
              (if allowAboveRoot then [s] else []) rest
        end
      else normalizeSegs allowAboveRoot (s :: acc) rest
  end.

Definition isAbsolute (p : str) : bool :=
  match p with
  | c :: _ => isSlash c
  | [] => false
  end.

(** The right-to-left scan of [path.resolve]: the arguments are given last
    one first; the result is the concatenated path and whether it is
    absolute. *)
Fixpoint resolveScan (cwd : str) (argsRev : list str) : str * bool :=
  match argsRev with
  | [] =>
      match cwd with
      | [] => ([], false)
      | _ => (cwd ++ [slash], isAbsolute cwd)
      end
  | p :: rest =>
      match p with
      | [] => resolveScan cwd rest
      | _ =>
          if isAbsolute p then (p ++ [slash], true)
          else let '(r, a) := resolveScan cwd rest in (r ++ p ++ [slash], a)
      end
  end.

(** [path.resolve(...args)], with the working directory [cwd]. *)
Definition resolve (cwd : str) (args : list str) : str :=
  let '(resolvedPath, resolvedAbsolute) := resolveScan cwd (rev args) in
  let normalized :=
    join [slash]
      (normalizeSegs (negb resolvedAbsolute) [] (splitOn slash resolvedPath)) in
  if resolvedAbsolute then slash :: normalized
  else match normalized with
       | [] => L "."
       | _ => normalized
       end.

(** [path.dirname(p)] *)
Definition dirname (p : str) : str :=
  match p with
  | [] => L "."
  | c0 :: body =>
      match dropWhile notSlash (dropWhile isSlash (rev body)) with
      | [] => if isSlash c0 then L "/" else L "."
      | _ :: restRev =>
          match restRev with
          | [] => if isSlash c0 then L "//" else [c0]
          | _ => c0 :: rev restRev
          end
      end
  end.

(** [path.basename(p)] *)
Definition basename (p : str) : str :=
  rev (takeWhile notSlash (dropWhile isSlash (rev p))).

(** [path.normalize(p)] *)
Definition normalize (p : str) : str :=
  match p with
  | [] => L "."
  | _ =>
      let absolute := isAbsolute p in
      let trailingSeparator := isSlash (last p " "%char) in
      let normalized :=
        join [slash] (normalizeSegs (negb absolute) [] (splitOn slash p)) in
      match normalized with
      | [] =>
          if absolute then L "/"
          else if trailingSeparator then L "./" else L "."
      | _ =>
          let withSeparator :=
            if trailingSeparator then normalized ++ [slash] else normalized in
          if absolute then slash :: withSeparator else withSeparator
      end
  end.

(** [path.join(...args)] *)
Definition joinPaths (args : list str) : str :=
  match filter (fun a => match a with [] => false | _ => true end) args with
  | [] => L "."
  | parts => normalize (join [slash] parts)
  end.

Definition isDot (c : ascii) : bool := Ascii.eqb c "."%char.

(** [path.extname(p)]: from the last dot of the basename on, and empty when
    the basename has no dot, starts with its only dot, or is [..]. *)
Definition extname (p : str) : str :=
  let baseRev := takeWhile notSlash (dropWhile isSlash (rev p)) in
  let extRev := takeWhile (fun c => negb (isDot c)) baseRev in
  match dropWhile (fun c => negb (isDot c)) baseRev with
  | [] => []
  | dot :: beforeRev =>
      match beforeRev with
      | [] => []
      | _ =>
          if str_eqb baseRev (L "..") then []
          else dot :: rev extRev
      end
  end.

End Path.

(** ** generator.ts *)

Module Generator.

Inductive Error : Type :=
  | EmptySourceName
  | SourceNameTooLong
  | InvalidIdentifier
  | EmptyIndex
  | MalformedBlock (sourceName : str)
  | DocumentNotFound (outputPath : str).

Definition START_MARKER_PREFIX : str := L "<!-- DOCS-INDEX-START:".
Definition END_MARKER_PREFIX : str := L "<!-- DOCS-INDEX-END:".
Definition MARKER_SUFFIX : str := L " -->".

Definition getStartMarker (sourceName : str) : str :=
  START_MARKER_PREFIX ++ sourceName ++ MARKER_SUFFIX.

Definition getEndMarker (sourceName : str) : str :=
  END_MARKER_PREFIX ++ sourceName ++ MARKER_SUFFIX.

(** The lines of the block between its two markers. *)
Definition blockBody (displayName rootPath compressedIndex : str) : str :=
  [nl] ++ L "[" ++ displayName ++ L "]" ++ [nl]
  ++ L "root: " ++ rootPath ++ [nl; nl]
  ++ L "IMPORTANT: Use retrieval-led reasoning. When you need "
  ++ displayName
  ++ L " information, read files from the root directory above." ++ [nl; nl]
  ++ compressedIndex ++ [nl].

Definition generateIndexBlock
  (sourceName displayName rootPath compressedIndex : str) : str :=
  getStartMarker sourceName
  ++ blockBody displayName rootPath compressedIndex
  ++ getEndMarker sourceName.

Definition updateContent (existingContent sourceName indexBlock : str)
  : Error + str :=
  let startMarker := getStartMarker sourceName in
  let endMarker := getEndMarker sourceName in
  let startIdx := indexOf startMarker existingContent in
  let endIdx := indexOf endMarker existingContent in
  let appended := trimEnd existingContent ++ [nl; nl] ++ indexBlock ++ [nl] in
  match startIdx, endIdx with
  | Some s, Some e =>
      if s <? e then
        let before := substringTo s existingContent in
        let after := substringFrom (e + length endMarker) existingContent in
        inr (before ++ indexBlock ++ after)
      else inr appended
  | Some _, None => inl (MalformedBlock sourceName)
  | None, _ => inr appended
  end.

(** [c.toUpperCase()] for one code unit: the small ASCII and Latin-1
    letters, and the sharp s, whose capital is two letters.  The two code
    units whose capital lies outside the modelled range, 181 and 255, are
    kept. *)
Definition toUpperCaseChar (c : ascii) : str :=
  let n := nat_of_ascii c in
  if ((97 <=? n) && (n <=? 122))
     || ((224 <=? n) && (n <=? 254) && negb (n =? 247))
  then [ascii_of_nat (n - 32)]
  else if n =? 223 then L "SS"
  else [c].

(** [word.charAt(0).toUpperCase() + word.slice(1)] *)
Definition capitalize (word : str) : str :=
  match word with
  | [] => []
  | c :: rest => toUpperCaseChar c ++ rest
  end.

Definition formatDisplayName (sourceName : str) : str :=
  join (L " ") (map capitalize (splitOn "-"%char sourceName)).

Definition validateSourceName (sourceName : str) : Error + unit :=
  match sourceName with
  | [] => inl EmptySourceName
  | _ =>
      match trim sourceName with
      | [] => inl EmptySourceName
      | _ =>
          if 100 <? length sourceName then inl SourceNameTooLong
          else if includes (L "-->") sourceName || includes (L "<!--") sourceName
               then inl InvalidIdentifier
               else inr tt
      end
  end.

(** The output file is the only file the generator touches: [None] when it
    does not exist, its text otherwise.  Reads and writes of it succeed. *)
Definition File := option str.

(** [generateAgentsMd].  [newFileContent] is what [createNewFileContent]
    returns for the output path and [relativePath] the path from the output
    file's directory to the docs directory; both come from the project and
    the file system.  The result is the returned [{created, updated}] (or
    the error thrown) and the file afterwards. *)
Definition generateAgentsMd
  (newFileContent relativePath : str) (file : File)
  (sourceName compressedIndex : str) : (Error + (bool * bool)) * File :=
  match validateSourceName sourceName with
  | inl e => (inl e, file)
  | inr _ =>
      match compressedIndex, trim compressedIndex with
      | [], _ | _, [] => (inl EmptyIndex, file)
      | _, _ =>
          let displayName := formatDisplayName sourceName in
          let indexBlock :=
            generateIndexBlock sourceName displayName relativePath
              compressedIndex in
          match file with
          | Some existingContent =>
              let hadExistingBlock :=
                includes (getStartMarker sourceName) existingContent in
              match updateContent existingContent sourceName indexBlock with
              | inl e => (inl e, file)
              | inr content => (inr (false, hadExistingBlock), Some content)
              end
          | None =>
              (inr (true, false), Some (newFileContent ++ indexBlock ++ [nl]))
          end
      end
  end.

(** [before.replace(/\n+$/, '\n')] *)
Definition collapseTrailingNewlines (s : str) : str :=
  let t := dropEndWhile isNl s in
  if length t <? length s then t ++ [nl] else s.

(** [after.replace(/^\n+/, '\n')] *)
Definition collapseLeadingNewlines (s : str) : str :=
  let t := dropWhile isNl s in
  if length t <? length s then nl :: t else s.

(** The text [removeSource] writes back, [None] when it returns [false]
    without writing. *)
Definition removeContent (content sourceName : str) : option str :=
  let startMarker := getStartMarker sourceName in
  let endMarker := getEndMarker sourceName in
  match indexOf startMarker content, indexOf endMarker content with
  | Some startIdx, Some endIdx =>
      let before := substringTo startIdx content in
      let after := substringFrom (endIdx + length endMarker) content in
      Some (collapseTrailingNewlines before ++ collapseLeadingNewlines after)
  | _, _ => None
  end.

Definition removeSource (file : File) (outputPath sourceName : str)
  : (Error + bool) * File :=
  match file with
  | None => (inl (DocumentNotFound outputPath), None)
  | Some content =>
      match removeContent content sourceName with
      | Some newContent => (inr true, Some newContent)
      | None => (inr false, file)
      end
  end.

(** The merger's operations on a document, as the command line drives
    them: [Upsert] is [updateContent] with the block [generateIndexBlock]
    builds, [Remove] is the text [removeSource] leaves. *)
Definition Upsert (document id displayName rootPath body : str) : Error + str :=
  updateContent document id (generateIndexBlock id displayName rootPath body).

Definition Remove (document id : str) : str :=
  match removeContent document id with
  | Some d => d
  | None => document
  end.

(** The number of offsets at which [n] occurs in [h]. *)
Fixpoint countOcc (n h : str) : nat :=
  (if startsWith n h then 1 else 0)
  + match h with
    | [] => 0
    | _ :: t => countOcc n t
    end.

(** The number of active blocks of [id]: scanning from the left, a start
    marker and the first end marker after it make one block, and the scan
    goes on behind that end marker. *)
Fixpoint scanBlocks (fuel : nat) (id document : str) : nat :=
  match fuel with
  | 0 => 0
  | S fuel' =>
      let startMarker := getStartMarker id in
      let endMarker := getEndMarker id in
      match indexOf startMarker document with
      | None => 0
      | Some i =>
          let rest := skipn (i + length startMarker) document in
          match indexOf endMarker rest with
          | None => 0
          | Some j => S (scanBlocks fuel' id (skipn (j + length endMarker) rest))
          end
      end
  end.

Definition activeBlocks (id document : str) : nat :=
  scanBlocks (length document) id document.

Definition notSpace (c : ascii) : bool := negb (isSpace c).

(** An attempt to match the expression of [listSources], the start marker
    with [([^\s]+)] for the identifier, at the head of [s]: the identifier
    and the length of the match.  The class takes the longest run of
    characters that are no white space. *)
Definition matchSourceHere (s : str) : option (str * nat) :=
  if startsWith START_MARKER_PREFIX s then
    let r := skipn (length START_MARKER_PREFIX) s in
    let g := takeWhile notSpace r in
    match g with
    | [] => None
    | _ =>
        if startsWith MARKER_SUFFIX (skipn (length g) r)
        then Some (g, length START_MARKER_PREFIX + length g + length MARKER_SUFFIX)
        else None
    end
  else None.

(** The loop of [regex.exec] over the content: [skip] characters belong to
    the match found last and are passed over. *)
Fixpoint scanSources (s : str) (skip : nat) : list str :=
  match s with
  | [] => []
  | _ :: t =>
      match skip with
      | S k => scanSources t k
      | 0 =>
          match matchSourceHere s with
          | Some (id, len) => id :: scanSources t (len - 1)
          | None => scanSources t 0
          end
      end
  end.

(** [listSources]: an absent file gives the empty list. *)
Definition listSources (file : File) : list str :=
  match file with
  | Some content => scanSources content 0
  | None => []
  end.

End Generator.

(** ** indexer.ts *)

Module Indexer.

(** An [IndexedDirectory] object: its own properties in the order
    [Object.keys] enumerates them, no key twice. *)
Definition IndexedDirectory := list (str * list str).

Fixpoint lookup (key : str) (grouped : IndexedDirectory) : option (list str) :=
  match grouped with
  | [] => None
  | (k, v) :: rest => if str_eqb k key then Some v else lookup key rest
  end.

Definition keys (grouped : IndexedDirectory) : list str := map fst grouped.

(** [dir.replace(/\\/g, '/')] *)
Definition normalizeSeparators (dir : str) : str :=
  map (fun c => if Ascii.eqb c "\"%char then slash else c) dir.

Section WithCollation.

(** The sign of [a.localeCompare(b)], which the platform's collation decides. *)
Variable localeCompare : str -> str -> comparison.

(** The comparator handed to [sort] for the directory keys. *)
Definition dirCompare (a b : str) : comparison :=
  match a, b with
  | [], _ => Lt
  | _, [] => Gt
  | _, _ => localeCompare a b
  end.

Definition sortedDirs (grouped : IndexedDirectory) : list str :=
  sortBy dirCompare (keys grouped).

Definition indexLine (rootName dir : str) (files : list str) : str :=
  let dirDisplay :=
    match dir with
    | [] => rootName
    | _ => rootName ++ [slash] ++ normalizeSeparators dir
    end in
  dirDisplay ++ L ":{" ++ join (L ",") files ++ L "}".

(** [grouped[dir].sort()] sorts the array of the object in place: the object
    after the call has every file list sorted. *)
Definition sortFiles (files : list str) : list str := sortBy codeUnitCompare files.

Definition groupedAfter (grouped : IndexedDirectory) : IndexedDirectory :=
  map (fun kv => (fst kv, sortFiles (snd kv))) grouped.

Definition indexLines (grouped : IndexedDirectory) (rootPath : str) : list str :=
  let rootName := Path.basename rootPath in
  map (fun dir =>
         let files :=
           sortFiles (match lookup dir grouped with Some fs => fs | None => [] end) in
         indexLine rootName dir files)
      (sortedDirs grouped).

Definition generateCompressedIndex (grouped : IndexedDirectory) (rootPath : str)
  : str :=
  join [nl] (indexLines grouped rootPath).

End WithCollation.

(** The property names an empty object literal inherits. *)
Definition inheritedNames : list str :=
  map L [ "constructor"; "__proto__"; "hasOwnProperty"; "isPrototypeOf";
          "propertyIsEnumerable"; "toLocaleString"; "toString"; "valueOf";
          "__defineGetter__"; "__defineSetter__"; "__lookupGetter__";
          "__lookupSetter__" ]%string.

Fixpoint pushTo (key file : str) (grouped : IndexedDirectory) : IndexedDirectory :=
  match grouped with
  | [] => []
  | (k, v) :: rest =>
      if str_eqb k key then (k, v ++ [file]) :: rest
      else (k, v) :: pushTo key file rest
  end.

Definition isDigit (c : ascii) : bool :=
  let n := nat_of_ascii c in (48 <=? n) && (n <=? 57).

(** The number a key stands for when it is an array index: a decimal
    numeral without a leading zero, below [2^32 - 1]. *)
Definition arrayIndex (key : str) : option N :=
  match key with
  | [] => None
  | c :: rest =>
      if forallb isDigit key
         && (negb (Ascii.eqb c "0"%char) || match rest with [] => true | _ => false end)
      then
        let value :=
          fold_left (fun acc d => (acc * 10 + (N_of_ascii d - 48))%N) key 0%N in
        if (value <=? 4294967294)%N then Some value else None
      else None
  end.

Fixpoint insertIndexKey (n : N) (entry : str * list str)
  (grouped : IndexedDirectory) : IndexedDirectory :=
  match grouped with
  | [] => [entry]
  | (k, v) :: rest =>
      match arrayIndex k with
      | Some m =>
          if (m <? n)%N then (k, v) :: insertIndexKey n entry rest
          else entry :: grouped
      | None => entry :: grouped
      end
  end.

(** A new property of the object: array indices are enumerated first, in
    ascending order, the other keys after them in the order they were
    set. *)
Definition setNew (key : str) (value : list str) (grouped : IndexedDirectory)
  : IndexedDirectory :=
  match arrayIndex key with
  | Some n => insertIndexKey n (key, value) grouped
  | None => grouped ++ [(key, value)]
  end.

(** [groupByDirectory].  A directory named like an inherited property makes
    [grouped[dirKey]] truthy without an own array, and the [push] throws a
    [TypeError], which is [None] here. *)
Fixpoint groupInto (grouped : IndexedDirectory) (files : list str)
  : option IndexedDirectory :=
  match files with
  | [] => Some grouped
  | file :: rest =>
      let dir := Path.dirname file in
      let dirKey := if str_eqb dir (L ".") then [] else dir in
      match lookup dirKey grouped with
      | Some _ => groupInto (pushTo dirKey (Path.basename file) grouped) rest
      | None =>
          if existsb (str_eqb dirKey) inheritedNames then None
          else groupInto (setNew dirKey [Path.basename file] grouped) rest
      end
  end.

Definition groupByDirectory (files : list str) : option IndexedDirectory :=
  groupInto [] files.

End Indexer.

(** ** downloader.ts *)

Module Downloader.

Record ParsedGitHubUrl : Type := {
  owner : str;
  repo : str;
  branch : str
}.

(** [s.replace(/\.git$/, '')] and [s.replace(/\/$/, '')]: a suffix is
    removed once when the string ends with it. *)
Definition stripSuffix (suffix s : str) : str :=
  if endsWith suffix s then firstn (length s - length suffix) s else s.

(** An attempt to match
    [github\.com\/([^\/]+)\/([^\/]+)(?:\/tree\/([^\/]+))?] at the head of
    [s].  The greedy classes take the longest run of characters other than
    the slash; the optional group matches when [/tree/] and one more such
    character follow. *)
Definition matchHere (s : str) : option ParsedGitHubUrl :=
  if startsWith (L "github.com/") s then
    let r := skipn 11 s in
    let g1 := takeWhile notSlash r in
    match g1, dropWhile notSlash r with
    | _ :: _, _ :: r2 =>
        let g2 := takeWhile notSlash r2 in
        let r3 := dropWhile notSlash r2 in
        match g2 with
        | [] => None
        | _ =>
            let g3 :=
              if startsWith (L "/tree/") r3
              then takeWhile notSlash (skipn 6 r3) else [] in
            Some {| owner := g1; repo := g2; branch := g3 |}
        end
    | _, _ => None
    end
  else None.

(** [cleanUrl.match(...)]: the leftmost offset at which the expression
    matches. *)
Fixpoint matchUrl (s : str) : option ParsedGitHubUrl :=
  match matchHere s with
  | Some m => Some m
  | None =>
      match s with
      | [] => None
      | _ :: t => matchUrl t
      end
  end.

Definition cleanUrl (url : str) : str :=
  let trimmed := trim url in
  let withScheme :=
    if startsWith (L "http") trimmed then trimmed else L "https://" ++ trimmed in
  stripSuffix (L "/") (stripSuffix (L ".git") withScheme).

(** [parseGitHubUrl]; [None] is the thrown "Invalid GitHub URL" error. *)
Definition parseGitHubUrl (url : str) : option ParsedGitHubUrl :=
  matchUrl (cleanUrl url).

Inductive ItemType : Type := blob | tree.

Record GitHubTreeItem : Type := {
  path : str;
  type : ItemType
}.

(** What [axios.get] hands back for the tree request: the response data, or
    the error it rejects with.  [resetDate] is the formatted
    [x-ratelimit-reset] header when the response carries one. *)
Record AxiosError : Type := {
  code : option str;
  status : option nat;
  resetDate : option str;
  message : str
}.

Inductive AxiosResult : Type :=
  | Response (items : list GitHubTreeItem) (truncated : bool)
  | Failure (e : AxiosError).

(** A thrown JavaScript error: its message and the status of its
    [response] property when it has one. *)
Record JsError : Type := {
  errMessage : str;
  errResponseStatus : option nat
}.

Definition newError (msg : str) : JsError :=
  {| errMessage := msg; errResponseStatus := None |}.

Definition BRANCH_FALLBACKS : list str :=
  map L [ "main"; "master"; "develop"; "dev" ]%string.

Definition apiUrl (owner repo branch : str) : str :=
  L "https://api.github.com/repos/" ++ owner ++ L "/" ++ repo
  ++ L "/git/trees/" ++ branch ++ L "?recursive=1".

Definition optEq (o : option str) (s : str) : bool :=
  match o with
  | Some x => str_eqb x s
  | None => false
  end.

Definition statusIs (o : option nat) (n : nat) : bool :=
  match o with
  | Some x => x =? n
  | None => false
  end.

(** The message of the error [fetchRepoTree] throws for a rejected request.
    The bullet of the source's list items lies outside the modelled
    character range and is written as a hyphen. *)
Definition fetchErrorMessage (owner repo branch : str) (e : AxiosError) : str :=
  if optEq (code e) (L "ECONNABORTED") || optEq (code e) (L "ETIMEDOUT") then
    L "Connection timeout while fetching " ++ owner ++ L "/" ++ repo
    ++ [nl; nl] ++ L "Please check your internet connection and try again."
  else if statusIs (status e) 404 then
    L "Repository or branch not found: " ++ owner ++ L "/" ++ repo
    ++ L " (branch: " ++ branch ++ L ")"
  else if statusIs (status e) 403 then
    L "GitHub API rate limit exceeded." ++ [nl; nl]
    ++ L "The rate limit will reset at "
    ++ match resetDate e with Some d => d | None => L "soon" end
    ++ L "." ++ [nl]
    ++ L "To avoid rate limits, you can:" ++ [nl]
    ++ L "  - Wait a few minutes and try again" ++ [nl]
    ++ L "  - Authenticate with a GitHub token (set GITHUB_TOKEN env var)"
  else if statusIs (status e) 401 then
    L "GitHub authentication failed." ++ [nl; nl]
    ++ L "If using GITHUB_TOKEN, please check that it's valid."
  else L "Failed to fetch repository: " ++ message e.

(** [fetchRepoTree]: the tree and whether the truncation warning was
    printed, or the error thrown.  [get] is the network: the outcome of the
    request for a URL. *)
Definition fetchRepoTree (get : str -> AxiosResult) (owner repo branch : str)
  : JsError + (list GitHubTreeItem * bool) :=
  match get (apiUrl owner repo branch) with
  | Response items truncated => inr (items, truncated)
  | Failure e => inl (newError (fetchErrorMessage owner repo branch e))
  end.

(** The candidate branches of [fetchRepoTreeWithFallback]. *)
Definition addFallback (branchesToTry : list str) (fallback : str) : list str :=
  if existsb (str_eqb fallback) branchesToTry then branchesToTry
  else branchesToTry ++ [fallback].

Definition branchesToTry (preferredBranch : str) : list str :=
  fold_left addFallback BRANCH_FALLBACKS
    (match preferredBranch with [] => [] | _ => [preferredBranch] end).

Definition isNotFound (error : JsError) : bool :=
  includes (L "not found") (errMessage error)
  || statusIs (errResponseStatus error) 404.

Definition repositoryNotFoundMessage (owner repo : str) (tried : list str) : str :=
  L "Could not find repository: " ++ owner ++ L "/" ++ repo ++ [nl; nl]
  ++ L "Tried branches: " ++ join (L ", ") tried ++ [nl; nl]
  ++ L "Please check:" ++ [nl]
  ++ L "  - The repository exists and is public" ++ [nl]
  ++ L "  - The URL is correct" ++ [nl]
  ++ L "  - Use --branch to specify the correct branch name".

Inductive FetchError : Type :=
  | RepositoryNotFound (msg : str)
  | Rethrown (error : JsError).

Record FetchOutcome : Type := {
  fetched : FetchError + (list GitHubTreeItem * str);
  requested : list str;
  truncationWarnings : nat
}.

(** The loop over the candidates; [requestedSoFar] are the branches already
    asked for, [all] the whole candidate list for the final message. *)
Fixpoint tryBranches (get : str -> AxiosResult) (owner repo : str)
  (all : list str) (requestedSoFar : list str) (warnings : nat)
  (candidates : list str) : FetchOutcome :=
  match candidates with
  | [] =>
      {| fetched := inl (RepositoryNotFound (repositoryNotFoundMessage owner repo all));
         requested := requestedSoFar;
         truncationWarnings := warnings |}
  | branch :: rest =>
      match fetchRepoTree get owner repo branch with
      | inr (items, truncated) =>
          {| fetched := inr (items, branch);
             requested := requestedSoFar ++ [branch];
             truncationWarnings := warnings + (if truncated then 1 else 0) |}
      | inl error =>
          if isNotFound error then
            tryBranches get owner repo all (requestedSoFar ++ [branch]) warnings rest
          else
            {| fetched := inl (Rethrown error);
               requested := requestedSoFar ++ [branch];
               truncationWarnings := warnings |}
      end
  end.

Definition fetchRepoTreeWithFallback (get : str -> AxiosResult)
  (owner repo preferredBranch : str) : FetchOutcome :=
  let candidates := branchesToTry preferredBranch in
  tryBranches get owner repo candidates [] 0 candidates.

(** [c.toLowerCase()] on the modelled code units: the ASCII capitals and
    the capitals of the Latin-1 range, each of which lowers to one code
    unit.  A capital beyond the range may lower to more than one (U+0130
    gives two): the lowered string has the length of the original only
    where the original lies in the range, as a host name does and the name
    of a repository need not. *)
Definition toLowerCaseChar (c : ascii) : ascii :=
  let n := nat_of_ascii c in
  if ((65 <=? n) && (n <=? 90))
     || ((192 <=? n) && (n <=? 222) && negb (n =? 215))
  then ascii_of_nat (n + 32) else c.

Definition toLowerCase (s : str) : str := map toLowerCaseChar s.

(** [generateSourceName]: the characters outside [a-z0-9-] become hyphens. *)
Definition generateSourceName (owner repo : str) : str :=
  map (fun c =>
         let n := nat_of_ascii c in
         if ((97 <=? n) && (n <=? 122)) || ((48 <=? n) && (n <=? 57))
            || (n =? 45)
         then c else "-"%char)
      (toLowerCase (repo ++ L "-docs")).

Definition DOC_FOLDER_NAMES : list str :=
  map L [ "docs"; "doc"; "documentation"; "guide"; "guides" ]%string.

Definition isTree (item : GitHubTreeItem) : bool :=
  match type item with tree => true | blob => false end.

Definition isBlob (item : GitHubTreeItem) : bool :=
  match type item with blob => true | tree => false end.

(** [findDocsFolder]: [None] for [null]. *)
Definition findDocsFolder (items : list GitHubTreeItem) : option str :=
  let rootDirs :=
    map (fun item => toLowerCase (path item))
      (filter (fun item => isTree item && negb (includes (L "/") (path item)))
         items) in
  let fix search (names : list str) : option str :=
    match names with
    | [] => None
    | docName :: rest =>
        if existsb (str_eqb docName) rootDirs then
          match find (fun item =>
                        isTree item
                        && str_eqb (toLowerCase (path item)) docName) items with
          | Some actualDir => Some (path actualDir)
          | None => search rest
          end
        else search rest
    end in
  search DOC_FOLDER_NAMES.

(** [s.replace(/^\/|\/$/g, '')]: one leading and one trailing slash are
    removed. *)
Definition dropStartSlash (s : str) : str :=
  match s with
  | c :: t => if isSlash c then t else s
  | [] => []
  end.

Definition dropEndSlash (s : str) : str := stripSuffix (L "/") s.

(** [filterMarkdownFiles] *)
Definition filterMarkdownFiles (items : list GitHubTreeItem) (targetPath : str)
  : list GitHubTreeItem :=
  let normalizedPath := dropEndSlash (dropStartSlash targetPath) in
  filter
    (fun item =>
       if negb (isBlob item) then false
       else if match normalizedPath with [] => false | _ => true end
               && negb (startsWith (normalizedPath ++ L "/") (path item))
               && negb (str_eqb (path item) normalizedPath)
       then false
       else
         let ext := toLowerCase (Path.extname (path item)) in
         existsb (str_eqb ext) (map L [ ".md"; ".mdx"; ".markdown" ]%string))
    items.

(** [sanitizePath]; [None] is the thrown "Invalid path detected" error. *)
Definition sanitizePath (cwd basePath relativePath : str) : option str :=
  let fullPath := Path.resolve cwd [basePath; relativePath] in
  if negb (startsWith (Path.resolve cwd [basePath]) fullPath) then None
  else Some fullPath.

(** The file system and the network as the download loop meets them:
    whether [fs.mkdir] of a directory succeeds, the body [downloadFile]
    returns for a repository path ([None] when it throws), and whether
    [fs.writeFile] to a local path succeeds. *)
Record World : Type := {
  cwd : str;
  mkdirOk : str -> bool;
  downloadFile : str -> option str;
  writeOk : str -> bool
}.

(** A progress callback, seen from the loop: it is called with
    [(current, total, file)] and either returns ([true]) or throws
    ([false]). *)
Definition Progress := nat -> nat -> str -> bool.

Record LoopState : Type := {
  downloadedCount : nat;
  failedFiles : list str;
  written : list (str * str);
  progressCalls : list (nat * nat * str)
}.

Definition initialState : LoopState :=
  {| downloadedCount := 0; failedFiles := []; written := []; progressCalls := [] |}.

Definition relativePathOf (effectivePath : str) (file : GitHubTreeItem) : str :=
  match effectivePath with
  | [] => path file
  | _ => substringFrom (length effectivePath + 1) (path file)
  end.

Definition pushFailed (relativePath : str) (st : LoopState) : LoopState :=
  {| downloadedCount := downloadedCount st;
     failedFiles := failedFiles st ++ [relativePath];
     written := written st;
     progressCalls := progressCalls st |}.

(** The [try] block of the loop body for one file, with its [catch]. *)
Definition tryDownload (w : World) (onProgress : option Progress) (total : nat)
  (file : GitHubTreeItem) (relativePath localPath : str) (st : LoopState)
  : LoopState :=
  let localDir := Path.dirname localPath in
  if negb (mkdirOk w localDir) then pushFailed relativePath st
  else
    match downloadFile w (path file) with
    | None => pushFailed relativePath st
    | Some content =>
        if negb (writeOk w localPath) then pushFailed relativePath st
        else
          let count := S (downloadedCount st) in
          let st1 :=
            {| downloadedCount := count;
               failedFiles := failedFiles st;
               written := written st ++ [(localPath, content)];
               progressCalls := progressCalls st |} in
          match onProgress with
          | None => st1
          | Some callback =>
              let st2 :=
                {| downloadedCount := count;
                   failedFiles := failedFiles st1;
                   written := written st1;
                   progressCalls :=
                     progressCalls st1 ++ [(count, total, relativePath)] |} in
              if callback count total relativePath then st2
              else pushFailed relativePath st2
          end
    end.

Inductive DownloadError : Type :=
  | InvalidSource (url : str)
  | DocsDirectoryFailed (docsPath : str)
  | FetchFailed (error : FetchError)
  | NoDocumentFiles (owner repo targetPath : str)
  | PathTraversal (relativePath : str)
  | DownloadFailed.

(** The [for] loop over the selected files: the state it ends in, or the
    error of [sanitizePath] together with the state reached before it. *)
Fixpoint downloadLoop (w : World) (onProgress : option Progress)
  (docsPath effectivePath : str) (total : nat)
  (files : list GitHubTreeItem) (st : LoopState)
  : (DownloadError * LoopState) + LoopState :=
  match files with
  | [] => inr st
  | file :: rest =>
      let relativePath := relativePathOf effectivePath file in
      match sanitizePath (cwd w) docsPath relativePath with
      | None => inl (PathTraversal relativePath, st)
      | Some localPath =>
          downloadLoop w onProgress docsPath effectivePath total rest
            (tryDownload w onProgress total file relativePath localPath st)
      end
  end.

Record DownloadResult : Type := {
  totalFiles : nat;
  downloadedFiles : nat;
  docsPathOf : str;
  sourceNameOf : str;
  detectedPath : option str
}.

(** The warning printed for a batch with failures: the number of failed
    files, the first five of them, and how many more there are. *)
Record FailureWarning : Type := {
  failedCount : nat;
  listed : list str;
  andMore : option nat
}.

Definition failureWarning (failed : list str) : option FailureWarning :=
  match failed with
  | [] => None
  | _ =>
      Some {| failedCount := length failed;
              listed := firstn 5 failed;
              andMore := if 5 <? length failed
                         then Some (length failed - 5) else None |}
  end.

(** What a caller of [downloadDocs] observes of the batch: the value
    returned or the error thrown, the warning printed, the files written
    and the calls of the callback. *)
Record Observed : Type := {
  returned : DownloadError + DownloadResult;
  warning : option FailureWarning;
  filesWritten : list (str * str);
  callbackCalls : list (nat * nat * str)
}.

(** [downloadDocs] from the selected files on: [markdownFiles] is the
    non-empty selection, [targetPath] the requested or detected path. *)
Definition downloadBatch (w : World) (onProgress : option Progress)
  (docsPath sourceName targetPath : str) (detected : option str)
  (markdownFiles : list GitHubTreeItem) : Observed :=
  let effectivePath := dropEndSlash (dropStartSlash targetPath) in
  let total := length markdownFiles in
  match downloadLoop w onProgress docsPath effectivePath total markdownFiles
          initialState with
  | inl (e, st) =>
      {| returned := inl e; warning := None;
         filesWritten := written st; callbackCalls := progressCalls st |}
  | inr st =>
      if downloadedCount st =? 0 then
        {| returned := inl DownloadFailed; warning := None;
           filesWritten := written st; callbackCalls := progressCalls st |}
      else
        {| returned := inr {| totalFiles := total;
                              downloadedFiles := downloadedCount st;
                              docsPathOf := docsPath;
                              sourceNameOf := sourceName;
                              detectedPath := detected |};
           warning := failureWarning (failedFiles st);
           filesWritten := written st; callbackCalls := progressCalls st |}
  end.

Record CliOptions : Type := {
  output : str;
  docsDir : str;
  optPath : str;
  optSourceName : option str;
  optBranch : str
}.

(** The network and the file system of one run of [downloadDocs]: the
    working directory, the outcome of the tree request for a URL, of
    [fs.mkdir] for a directory, of [downloadFile] for an owner, repository,
    branch and path, and of [fs.writeFile] for a local path. *)
Record Environment : Type := {
  workingDirectory : str;
  getTree : str -> AxiosResult;
  makeDirectory : str -> bool;
  getRaw : str -> str -> str -> str -> option str;
  writeFile : str -> bool
}.

Definition failedEarly (e : DownloadError) : Observed :=
  {| returned := inl e; warning := None; filesWritten := [];
     callbackCalls := [] |}.

(** [downloadDocs] *)
Definition downloadDocs (env : Environment) (source : str) (options : CliOptions)
  (onProgress : option Progress) : Observed :=
  match parseGitHubUrl source with
  | None => failedEarly (InvalidSource source)
  | Some parsed =>
      let urlBranch := branch parsed in
      let preferredBranch :=
        if negb (str_eqb (optBranch options) (L "main")) then optBranch options
        else match urlBranch with
             | [] => optBranch options
             | _ => urlBranch
             end in
      let sourceName :=
        match optSourceName options with
        | Some (c :: n) => c :: n
        | _ => generateSourceName (owner parsed) (repo parsed)
        end in
      let docsPath :=
        Path.joinPaths [workingDirectory env; docsDir options; sourceName] in
      if negb (makeDirectory env docsPath) then
        failedEarly (DocsDirectoryFailed docsPath)
      else
        let outcome :=
          fetchRepoTreeWithFallback (getTree env) (owner parsed) (repo parsed)
            preferredBranch in
        match fetched outcome with
        | inl e => failedEarly (FetchFailed e)
        | inr (items, actualBranch) =>
            let autoDetected :=
              if str_eqb (optPath options) (L "/") || str_eqb (optPath options) []
              then match findDocsFolder items with
                   | Some (c :: d) => Some (c :: d)
                   | _ => None
                   end
              else None in
            let targetPath :=
              match autoDetected with
              | Some d => d
              | None => optPath options
              end in
            let markdownFiles := filterMarkdownFiles items targetPath in
            match markdownFiles with
            | [] =>
                failedEarly
                  (NoDocumentFiles (owner parsed) (repo parsed) targetPath)
            | _ =>
                downloadBatch
                  {| cwd := workingDirectory env;
                     mkdirOk := makeDirectory env;
                     downloadFile :=
                       getRaw env (owner parsed) (repo parsed) actualBranch;
                     writeOk := writeFile env |}
                  onProgress docsPath sourceName targetPath autoDetected
                  markdownFiles
            end
        end
  end.

End Downloader.

(** [s.replace(/^prefix/, '')] for a literal prefix: it is removed once when
    the string starts with it. *)
Definition stripPrefix (prefix s : str) : str :=
  if startsWith prefix s then skipn (length prefix) s else s.

(** ** indexer.ts: the walk over the docs directory *)

Module IndexerFs.

(** What [fs.readdir] with file types finds in a directory: files,
    directories with what a [readdir] of them finds in turn, directories
    whose [readdir] rejects with an error code and a message, and entries
    that are neither a file nor a directory. *)
#[warnings="-register-all"]
Inductive DirEntry : Type :=
  | FileEntry (name : str)
  | DirectoryEntry (name : str) (entries : list DirEntry)
  | UnreadableDirectory (name : str) (code : option str) (message : str)
  | OtherEntry (name : str).

Inductive Listing : Type :=
  | Readable (entries : list DirEntry)
  | ReadFails (code : option str) (message : str).

(** The message of the error the [catch] of [scanDirectory] throws for an
    error with the given code and message. *)
Definition scanErrorMessage (dirPath : str) (code : option str) (message : str)
  : str :=
  if Downloader.optEq code (L "ENOENT") then
    L "Documentation directory not found: " ++ dirPath ++ [nl; nl]
    ++ L "Please run the download command first to fetch documentation."
  else if Downloader.optEq code (L "EACCES") then
    L "Permission denied reading directory: " ++ dirPath ++ [nl; nl]
    ++ L "Please check file permissions."
  else L "Failed to scan directory: " ++ message.

Definition isSkippedDirectory (name : str) : bool :=
  startsWith (L ".") name || str_eqb name (L "node_modules").

Definition isMarkdownName (name : str) : bool :=
  let ext := Downloader.toLowerCase (Path.extname name) in
  existsb (str_eqb ext) (map L [ ".md"; ".mdx"; ".markdown" ]%string).

Definition relativeOf (basePath name : str) : str :=
  match basePath with
  | [] => name
  | _ => Path.joinPaths [basePath; name]
  end.

(** The loop of [scanDirectory] over the entries of a directory, with the
    loop body [scanOne]: the first error ends it. *)
Definition scanLoop (scanOne : DirEntry -> str + list str)
  : list DirEntry -> str + list str :=
  fix loop (entries : list DirEntry) : str + list str :=
    match entries with
    | [] => inr []
    | e :: rest =>
        match scanOne e with
        | inl m => inl m
        | inr subFiles =>
            match loop rest with
            | inl m => inl m
            | inr more => inr (subFiles ++ more)
            end
        end
    end.

(** The body of the loop for one entry: the files it adds, or the message
    of the error thrown.  A subdirectory is scanned by the recursive call,
    whose own [catch] wraps what its loop throws. *)
Fixpoint scanEntry (dirPath basePath : str) (entry : DirEntry) {struct entry}
  : str + list str :=
  match entry with
  | FileEntry name =>
      inr (if isMarkdownName name then [relativeOf basePath name] else [])
  | OtherEntry _ => inr []
  | UnreadableDirectory name code message =>
      if isSkippedDirectory name then inr []
      else inl (scanErrorMessage (Path.joinPaths [dirPath; name]) code message)
  | DirectoryEntry name entries =>
      if isSkippedDirectory name then inr []
      else
        let fullPath := Path.joinPaths [dirPath; name] in
        let relativePath := relativeOf basePath name in
        match scanLoop (scanEntry fullPath relativePath) entries with
        | inl m => inl (scanErrorMessage fullPath None m)
        | inr files => inr files
        end
  end.

Definition scanEntries (dirPath basePath : str) (entries : list DirEntry)
  : str + list str :=
  scanLoop (scanEntry dirPath basePath) entries.

(** [scanDirectory]: the relative paths of the markdown files, or the
    message of the error thrown. *)
Definition scanDirectory (dirPath basePath : str) (listing : Listing)
  : str + list str :=
  match listing with
  | ReadFails code message => inl (scanErrorMessage dirPath code message)
  | Readable entries =>
      match scanEntries dirPath basePath entries with
      | inl m => inl (scanErrorMessage dirPath None m)
      | inr files => inr files
      end
  end.

(** What [fs.stat] finds at the docs path. *)
Inductive PathState : Type :=
  | Absent
  | StatFails (message : str)
  | NotDirectory
  | IsDirectory (listing : Listing).

Inductive IndexError : Type :=
  | IndexDirectoryNotFound (docsPath : str)
  | PathIsNotDirectory (docsPath : str)
  | StatError (message : str)
  | ScanError (message : str)
  | NoMarkdownFiles (docsPath : str)
  | GroupingTypeError.

(** [createIndex] *)
Definition createIndex (localeCompare : str -> str -> comparison)
  (docsPath : str) (state : PathState) : IndexError + str :=
  match state with
  | Absent => inl (IndexDirectoryNotFound docsPath)
  | StatFails message => inl (StatError message)
  | NotDirectory => inl (PathIsNotDirectory docsPath)
  | IsDirectory listing =>
      match scanDirectory docsPath [] listing with
      | inl m => inl (ScanError m)
      | inr [] => inl (NoMarkdownFiles docsPath)
      | inr files =>
          match Indexer.groupByDirectory files with
          | None => inl GroupingTypeError
          | Some grouped =>
              inr (Indexer.generateCompressedIndex localeCompare grouped docsPath)
          end
      end
  end.

(** [getIndexStats]: the file count and the directory count. *)
Definition getIndexStats (docsPath : str) (listing : Listing)
  : IndexError + (nat * nat) :=
  match scanDirectory docsPath [] listing with
  | inl m => inl (ScanError m)
  | inr files =>
      match Indexer.groupByDirectory files with
      | None => inl GroupingTypeError
      | Some grouped => inr (length files, length (Indexer.keys grouped))
      end
  end.

End IndexerFs.

(** ** gitignore.ts *)

Module Gitignore.

(** [docsDir.replace(/\\/g, '/').replace(/^\.\//, '').replace(/\/$/, '')] *)
Definition normalizeEntry (docsDir : str) : str :=
  Downloader.stripSuffix (L "/")
    (stripPrefix (L "./") (Indexer.normalizeSeparators docsDir)).

(** The test of [lines.some] for one line. *)
Definition lineNames (normalizedEntry line : str) : bool :=
  let gitignoreEntry := normalizedEntry ++ L "/" in
  let trimmedLine := trim line in
  str_eqb trimmedLine normalizedEntry
  || str_eqb trimmedLine gitignoreEntry
  || str_eqb trimmedLine (L "/" ++ normalizedEntry)
  || str_eqb trimmedLine (L "/" ++ gitignoreEntry).

Definition alreadyExists (content docsDir : str) : bool :=
  existsb (lineNames (normalizeEntry docsDir)) (splitOn nl content).

(** What reading [.gitignore] gives: no such file, its text, or another
    error. *)
Inductive ReadOutcome : Type :=
  | NoFile
  | Text (content : str)
  | ReadError (message : str).

(** What [addToGitignore] does: the value it returns, the text it writes
    when it writes, and the warning it prints when it prints one. *)
Record Outcome : Type := {
  added : bool;
  writtenText : option str;
  warned : option str
}.

(** [addToGitignore]; [writeError] is the error of [fs.writeFile] when it
    rejects. *)
Definition addToGitignore (read : ReadOutcome) (writeError : option str)
  (docsDir : str) : Outcome :=
  let gitignoreEntry := normalizeEntry docsDir ++ L "/" in
  match read with
  | ReadError message =>
      {| added := false; writtenText := None; warned := Some message |}
  | _ =>
      let content := match read with Text c => c | _ => [] end in
      if alreadyExists content docsDir then
        {| added := false; writtenText := None; warned := None |}
      else
        let newContent :=
          trimEnd content
          ++ (match content with [] => [] | _ => [nl; nl] end)
          ++ L "# Downloaded documentation (agent-md-tool)" ++ [nl]
          ++ gitignoreEntry ++ [nl] in
        match writeError with
        | Some message =>
            {| added := false; writtenText := None; warned := Some message |}
        | None =>
            {| added := true; writtenText := Some newContent; warned := None |}
        end
  end.

(** [isInGitignore] *)
Definition isInGitignore (read : ReadOutcome) (docsDir : str) : bool :=
  match read with
  | Text content => alreadyExists content docsDir
  | _ => false
  end.

End Gitignore.

(** ** llms-txt.ts *)

Module LlmsTxt.

Definition isLlmsTxtUrl (url : str) : bool :=
  let lowerUrl := Downloader.toLowerCase url in
  endsWith (L "/llms.txt") lowerUrl
  || endsWith (L "/llm.txt") lowerUrl
  || endsWith (L "llms.txt") lowerUrl
  || endsWith (L "llm.txt") lowerUrl.

Definition isHyphen (c : ascii) : bool := Ascii.eqb c "-"%char.

(** [s.replace(/[^a-z0-9-]/g, '-')] *)
Definition hyphenate (s : str) : str :=
  map (fun c =>
         let n := nat_of_ascii c in
         if ((97 <=? n) && (n <=? 122)) || ((48 <=? n) && (n <=? 57))
            || (n =? 45)
         then c else "-"%char) s.

(** [s.replace(/-+/g, '-')]: of a run of hyphens one is kept. *)
Fixpoint collapseHyphens (s : str) : str :=
  match s with
  | [] => []
  | c :: t =>
      match t with
      | d :: _ =>
          if isHyphen c && isHyphen d then collapseHyphens t
          else c :: collapseHyphens t
      | [] => [c]
      end
  end.

(** [generateLlmsSourceName].  [hostnameOf] stands for the URL parser of
    the platform: the [hostname] of [new URL(url)], or [None] when the
    constructor throws. *)
Definition generateLlmsSourceName (hostnameOf : str -> option str) (url : str)
  : str :=
  match hostnameOf url with
  | Some hostname =>
      let host := hd [] (splitOn "."%char (stripPrefix (L "www.") hostname)) in
      collapseHyphens (hyphenate (Downloader.toLowerCase (host ++ L "-llms")))
  | None => L "llms-txt"
  end.

(** A thrown error as the [catch] of [downloadLlmsTxt] reads it: its
    [code], the status of its [response], and its message. *)
Record Thrown : Type := {
  thrownCode : option str;
  thrownStatus : option nat;
  thrownMessage : str
}.

Definition newError (message : str) : Thrown :=
  {| thrownCode := None; thrownStatus := None; thrownMessage := message |}.

(** The [catch] around the request and the write. *)
Definition rethrow (url : str) (error : Thrown) : Thrown :=
  if includes (L "Empty or invalid llms.txt") (thrownMessage error) then error
  else if Downloader.optEq (thrownCode error) (L "ECONNABORTED") then
    newError (L "Timeout fetching " ++ url)
  else if Downloader.statusIs (thrownStatus error) 404 then
    newError (L "llms.txt not found at " ++ url ++ [nl; nl]
              ++ L "Make sure the URL is correct and the file exists.")
  else if Downloader.statusIs (thrownStatus error) 403 then
    newError (L "Access denied to " ++ url)
  else newError (L "Failed to download llms.txt: " ++ thrownMessage error).

(** The platform of one run: the URL parser, the working directory, the
    error message of [fs.mkdir] when it rejects, the body or the error of
    the request, and the error of [fs.writeFile] when it rejects. *)
Record Environment : Type := {
  hostnameOf : str -> option str;
  workingDirectory : str;
  makeDirectory : str -> option str;
  httpGet : str -> Thrown + str;
  writeFile : str -> option Thrown
}.

(** A progress callback returns ([None]) or throws. *)
Definition Progress := nat -> nat -> str -> option Thrown.

Record Result : Type := {
  totalFiles : nat;
  downloadedFiles : nat;
  docsPath : str;
  sourceName : str
}.

Record Observed : Type := {
  returned : Thrown + Result;
  filesWritten : list (str * str);
  callbackCalls : list (nat * nat * str)
}.

Definition quote : ascii := "034"%char.

Definition invalidUrlMessage (url : str) : str :=
  L "Invalid URL: " ++ [quote] ++ url ++ [quote] ++ [nl; nl]
  ++ L "Please provide a valid llms.txt URL, e.g.:" ++ [nl]
  ++ L "  https://example.com/llms.txt".

Definition sourceComment (url : str) : str :=
  L "<!-- Source: " ++ url ++ L " -->" ++ [nl; nl].

Definition call (onProgress : option Progress) (current total : nat) (file : str)
  : option Thrown :=
  match onProgress with
  | Some callback => callback current total file
  | None => None
  end.

Definition callsOf (onProgress : option Progress)
  (calls : list (nat * nat * str)) : list (nat * nat * str) :=
  match onProgress with
  | Some _ => calls
  | None => []
  end.

(** [downloadLlmsTxt] *)
Definition downloadLlmsTxt (env : Environment) (url : str)
  (options : Downloader.CliOptions) (onProgress : option Progress) : Observed :=
  match hostnameOf env url with
  | None =>
      {| returned := inl (newError (invalidUrlMessage url));
         filesWritten := []; callbackCalls := [] |}
  | Some _ =>
      let name :=
        match Downloader.optSourceName options with
        | Some (c :: n) => c :: n
        | _ => generateLlmsSourceName (hostnameOf env) url
        end in
      let directory :=
        Path.joinPaths [workingDirectory env; Downloader.docsDir options; name] in
      match makeDirectory env directory with
      | Some message =>
          {| returned :=
               inl (newError (L "Failed to create docs directory: " ++ message));
             filesWritten := []; callbackCalls := [] |}
      | None =>
          let first := (0, 1, Path.basename url) in
          match call onProgress 0 1 (Path.basename url) with
          | Some error =>
              {| returned := inl error; filesWritten := [];
                 callbackCalls := [first] |}
          | None =>
              match httpGet env url with
              | inl error =>
                  {| returned := inl (rethrow url error); filesWritten := [];
                     callbackCalls := callsOf onProgress [first] |}
              | inr content =>
                  match trim content with
                  | [] =>
                      {| returned :=
                           inl (rethrow url
                                  (newError
                                     (L "Empty or invalid llms.txt file at " ++ url)));
                         filesWritten := [];
                         callbackCalls := callsOf onProgress [first] |}
                  | _ =>
                      let filename :=
                        if includes (L "llms.txt") (Downloader.toLowerCase url)
                        then L "llms.txt" else L "llm.txt" in
                      let filePath := Path.joinPaths [directory; filename] in
                      let hasMarkdownHeader := startsWith (L "#") (trim content) in
                      let finalContent :=
                        if hasMarkdownHeader then sourceComment url ++ content
                        else sourceComment url ++ L "# LLMs.txt" ++ [nl; nl]
                             ++ content in
                      match writeFile env filePath with
                      | Some error =>
                          {| returned := inl (rethrow url error);
                             filesWritten := [];
                             callbackCalls := callsOf onProgress [first] |}
                      | None =>
                          match call onProgress 1 1 filename with
                          | Some error =>
                              {| returned := inl (rethrow url error);
                                 filesWritten := [(filePath, finalContent)];
                                 callbackCalls := [first; (1, 1, filename)] |}
                          | None =>
                              {| returned :=
                                   inr {| totalFiles := 1; downloadedFiles := 1;
                                          docsPath := directory;
                                          sourceName := name |};
                                 filesWritten := [(filePath, finalContent)];
                                 callbackCalls :=
                                   callsOf onProgress [first; (1, 1, filename)] |}
                          end
                      end
                  end
              end
          end
      end
  end.

End LlmsTxt.

(** ** project.ts *)

Module Project.

Inductive PackageManager : Type := npm | yarn | pnpm | bun.

Definition managerName (packageManager : PackageManager) : str :=
  match packageManager with
  | npm => L "npm"
  | yarn => L "yarn"
  | pnpm => L "pnpm"
  | bun => L "bun"
  end.

(** The [scripts] object of package.json: its own properties. *)
Definition Scripts := list (str * str).

Fixpoint scriptOf (name : str) (scripts : Scripts) : option str :=
  match scripts with
  | [] => None
  | (k, v) :: rest => if str_eqb k name then Some v else scriptOf name rest
  end.

(** [scripts[pattern]] is truthy: an own script that is not the empty
    string, or a property every object inherits. *)
Definition hasScript (scripts : Scripts) (pattern : str) : bool :=
  match scriptOf pattern scripts with
  | Some body => match body with [] => false | _ => true end
  | None => existsb (str_eqb pattern) Indexer.inheritedNames
  end.

(** [findScript]; [None] for [null]. *)
Fixpoint findScript (scripts : Scripts) (patterns : list str) : option str :=
  match patterns with
  | [] => None
  | pattern :: rest =>
      if hasScript scripts pattern then Some pattern else findScript scripts rest
  end.

Record InferredCommands : Type := {
  install : str;
  dev : str;
  build : str;
  test : str;
  lint : str
}.

Definition DEV_PATTERNS : list str :=
  map L [ "dev"; "start"; "serve"; "develop"; "watch" ]%string.
Definition BUILD_PATTERNS : list str :=
  map L [ "build"; "compile"; "bundle" ]%string.
Definition TEST_PATTERNS : list str :=
  map L [ "test"; "test:unit"; "test:all"; "jest"; "vitest" ]%string.
Definition LINT_PATTERNS : list str :=
  map L [ "lint"; "lint:fix"; "check"; "format" ]%string.

Definition runner (packageManager : PackageManager) : str :=
  match packageManager with
  | npm => L "npm run"
  | _ => managerName packageManager
  end.

Definition commandFor (scripts : Scripts) (packageManager : PackageManager)
  (patterns : list str) : str :=
  match findScript scripts patterns with
  | Some (c :: script) => runner packageManager ++ L " " ++ c :: script
  | _ => []
  end.

(** [inferCommands] *)
Definition inferCommands (scripts : Scripts) (packageManager : PackageManager)
  : InferredCommands :=
  {| install :=
       match packageManager with
       | npm => L "npm install"
       | _ => managerName packageManager ++ L " install"
       end;
     dev := commandFor scripts packageManager DEV_PATTERNS;
     build := commandFor scripts packageManager BUILD_PATTERNS;
     test := commandFor scripts packageManager TEST_PATTERNS;
     lint := commandFor scripts packageManager LINT_PATTERNS |}.

End Project.

(** ** index.ts *)

Module Cli.

Inductive SourceType : Type := github | llmsTxt | unknown.

(** [getSourceType] *)
Definition getSourceType (source : str) : SourceType :=
  if includes (L "github.com") source then github
  else if LlmsTxt.isLlmsTxtUrl source then llmsTxt
  else unknown.

End Cli.

(** ** Notions used in the statements *)

(** The characters that open an HTML comment; every marker starts with
    them. *)
Definition opener : str := L "<!--".

(** What the proofs use of a marker: it starts with the comment opener, it
    ends with [>], and the opener occurs in it at its start only. *)
Record MarkerLike (m : str) : Prop := {
  marker_opens : startsWith opener m = true;
  marker_closes : last m " "%char = ">"%char;
  marker_opener_once : forall q, occ opener m q -> q = 0
}.

(** The document has, for [id], either no marker at all or a start marker
    with the first end marker behind it. *)
Definition noOrphanMarker (id document : str) : bool :=
  match indexOf (Generator.getStartMarker id) document,
        indexOf (Generator.getEndMarker id) document with
  | Some i, Some j => i <? j
  | None, None => true
  | _, _ => false
  end.

(** The text without any white space: two documents that differ in blank
    lines only have the same image. *)
Definition withoutSpace (s : str) : str := filter (fun c => negb (isSpace c)) s.

(** [a] may stand before [b] in a list sorted by the comparator. *)
Definition notAfter {A : Type} (cmp : A -> A -> comparison) (a b : A) : Prop :=
  cmp a b <> Gt.







(** A path segment: not empty and free of slashes. *)
Definition segment (n : str) : bool :=
  match n with
  | [] => false
  | _ => forallb notSlash n
  end.


(** [p] is the directory [root] or lies below it. *)
Definition insideRoot (root p : str) : bool :=
  str_eqb p root || startsWith (root ++ [slash]) p.

(** The path check of the loop lets the file through. *)
Definition safeFile (w : Downloader.World) (docsPath effectivePath : str)
  (file : Downloader.GitHubTreeItem) : bool :=
  match Downloader.sanitizePath (Downloader.cwd w) docsPath
          (Downloader.relativePathOf effectivePath file) with
  | Some _ => true
  | None => false
  end.

(** Creating the directory, fetching the body and writing the file all
    succeed for the file. *)
Definition ioSucceeds (w : Downloader.World) (docsPath effectivePath : str)
  (file : Downloader.GitHubTreeItem) : bool :=
  match Downloader.sanitizePath (Downloader.cwd w) docsPath
          (Downloader.relativePathOf effectivePath file) with
  | Some localPath =>
      Downloader.mkdirOk w (Path.dirname localPath)
      && match Downloader.downloadFile w (Downloader.path file) with
         | Some _ => true
         | None => false
         end
      && Downloader.writeOk w localPath
  | None => false
  end.

(** What the loop writes for a file that succeeds. *)
Definition writtenFor (w : Downloader.World) (docsPath effectivePath : str)
  (file : Downloader.GitHubTreeItem) : str * str :=
  (match Downloader.sanitizePath (Downloader.cwd w) docsPath
           (Downloader.relativePathOf effectivePath file) with
   | Some localPath => localPath
   | None => []
   end,
   match Downloader.downloadFile w (Downloader.path file) with
   | Some content => content
   | None => []
   end).

(** The calls a callback receives for the files that succeed, the first of
    them numbered [k]. *)
Fixpoint numberFrom (k total : nat) (effectivePath : str)
  (files : list Downloader.GitHubTreeItem) : list (nat * nat * str) :=
  match files with
  | [] => []
  | file :: rest =>
      (k, total, Downloader.relativePathOf effectivePath file)
      :: numberFrom (S k) total effectivePath rest
  end.

(** The callback returns whatever it is called with. *)
Definition alwaysReturns (onProgress : option Downloader.Progress) : Prop :=
  forall callback, onProgress = Some callback ->
                   forall current total file, callback current total file = true.

(** Two loop states with the same count of downloaded files and the same
    files written. *)
Definition sameEffects (a b : Downloader.LoopState) : Prop :=
  Downloader.downloadedCount a = Downloader.downloadedCount b
  /\ Downloader.written a = Downloader.written b.

(** A sequence of Upserts for one identifier; a body is the display name,
    the root path and the index text of a block.  The first failure ends
    the sequence. *)
Fixpoint upsertAll (document id : str) (bodies : list (str * str * str))
  : Generator.Error + str :=
  match bodies with
  | [] => inr document
  | (displayName, rootPath, body) :: rest =>
      match Generator.Upsert document id displayName rootPath body with
      | inl e => inl e
      | inr document' => upsertAll document' id rest
      end
  end.

(** The block text of the body does not contain the end marker of [id]. *)
Definition bodyWithoutEndMarker (id : str) (b : str * str * str) : bool :=
  let '(displayName, rootPath, body) := b in
  negb (includes (Generator.getEndMarker id)
          (Generator.blockBody displayName rootPath body)).

(** Two loop states that differ at most in the calls of the callback. *)
Definition sameOutcome (a b : Downloader.LoopState) : Prop :=
  sameEffects a b /\ Downloader.failedFiles a = Downloader.failedFiles b.

(** The key under which [groupByDirectory] files a path, and the names it
    files under a key, in the order of the paths. *)
Definition dirKeyOf (file : str) : str :=
  let dir := Path.dirname file in
  if str_eqb dir (L ".") then [] else dir.

Definition namesUnder (key : str) (files : list str) : list str :=
  map Path.basename (filter (fun f => str_eqb (dirKeyOf f) key) files).

(** A name as [readdir] returns it: a segment other than [.] and [..]. *)
Definition ordinary (n : str) : bool :=
  segment n && negb (str_eqb n (L ".")) && negb (str_eqb n (L "..")).

Fixpoint wellNamed (e : IndexerFs.DirEntry) : bool :=
  match e with
  | IndexerFs.FileEntry n => ordinary n
  | IndexerFs.OtherEntry n => ordinary n
  | IndexerFs.UnreadableDirectory n _ _ => ordinary n
  | IndexerFs.DirectoryEntry n es => ordinary n && forallb wellNamed es
  end.

(** A markdown file, given by the names on the way to it, is reached from
    the entries of a directory through directories the walk does not
    skip. *)
Inductive reaches : list IndexerFs.DirEntry -> list str -> Prop :=
  | reaches_file (es : list IndexerFs.DirEntry) (name : str) :
      In (IndexerFs.FileEntry name) es ->
      IndexerFs.isMarkdownName name = true ->
      reaches es [name]
  | reaches_below (es sub : list IndexerFs.DirEntry) (name : str)
      (segs : list str) :
      In (IndexerFs.DirectoryEntry name sub) es ->
      IndexerFs.isSkippedDirectory name = false ->
      reaches sub segs ->
      reaches es (name :: segs).

(** The walk from the entries of a directory comes to a directory it
    cannot read. *)
Inductive meetsUnreadable : list IndexerFs.DirEntry -> Prop :=
  | unreadable_here (es : list IndexerFs.DirEntry) (name : str)
      (code : option str) (message : str) :
      In (IndexerFs.UnreadableDirectory name code message) es ->
      IndexerFs.isSkippedDirectory name = false ->
      meetsUnreadable es
  | unreadable_below (es sub : list IndexerFs.DirEntry) (name : str) :
      In (IndexerFs.DirectoryEntry name sub) es ->
      IndexerFs.isSkippedDirectory name = false ->
      meetsUnreadable sub ->
      meetsUnreadable es.

(** An entry of [.gitignore] that is not empty, stays on one line and
    keeps its first character when the line is trimmed. *)
Definition oneLineEntry (e : str) : bool :=
  match e with
  | [] => false
  | c :: _ => forallb (fun x => negb (isNl x)) e && negb (isSpace c)
  end.

(** The command is empty and none of the names has a script, or it is the
    runner followed by the first name that has a script which is not
    empty. *)
Definition runsFirstScript (scripts : Project.Scripts) (run : str)
  (patterns : list str) (command : str) : Prop :=
  (command = []
   /\ forall q, In q patterns ->
                Project.scriptOf q scripts = None
                \/ Project.scriptOf q scripts = Some [])
  \/ exists before p after body,
       patterns = before ++ p :: after
       /\ Project.scriptOf p scripts = Some body
       /\ body <> []
       /\ (forall q, In q before ->
                     Project.scriptOf q scripts = None
                     \/ Project.scriptOf q scripts = Some [])
       /\ command = run ++ L " " ++ p.

(** What a key holds after the loop: what it held before, and then the
    names of the files filed under it. *)
Definition filedUnder (before : option (list str)) (names : list str)
  : option (list str) :=
  match before, names with
  | Some v, _ => Some (v ++ names)
  | None, [] => None
  | None, _ => Some names
  end.

(** The files one entry adds, where the names are those [readdir] gives. *)
Definition listsReached (e : IndexerFs.DirEntry) : Prop :=
  forall dirPath bsegs files,
    forallb ordinary bsegs = true -> wellNamed e = true ->
    IndexerFs.scanEntry dirPath (join [slash] bsegs) e = inr files ->
    forall f, In f files
              <-> exists segs, reaches [e] segs /\ f = join [slash] (bsegs ++ segs).

(** A character of the class [a-z0-9-]. *)
Definition sourceNameChar (c : ascii) : bool :=
  let n := nat_of_ascii c in
  ((97 <=? n) && (n <=? 122)) || ((48 <=? n) && (n <=? 57)) || (n =? 45).

(** The request ran into the time limit: the codes [fetchRepoTree] tests
    first.  An answer with a status carries another code, or none. *)
Definition timedOut (e : Downloader.AxiosError) : bool :=
  Downloader.optEq (Downloader.code e) (L "ECONNABORTED")
  || Downloader.optEq (Downloader.code e) (L "ETIMEDOUT").

(** The callback returns whatever it is called with. *)
Definition returnsAlways (onProgress : option LlmsTxt.Progress) : Prop :=
  forall callback, onProgress = Some callback ->
                   forall current total file, callback current total file = None.

(** ** The counts of an index *)

(** Two strings are equal or they are not. *)
Definition str_dec : forall a b : str, {a = b} + {a <> b} :=
  list_eq_dec ascii_dec.

(** The directory keys of the files, each one once. *)
Definition distinctDirectories (files : list str) : list str :=
  nodup str_dec (map dirKeyOf files).

(** The entries of a mapping as pairs of a key and a name filed under it. *)
Definition filedPairs (g : Indexer.IndexedDirectory) : list (str * str) :=
  flat_map (fun kv => map (pair (fst kv)) (snd kv)) g.

(** ** The collation of the platform, on letters and digits *)

(** Lexicographic comparison of two sequences of weights. *)
Fixpoint lexCompare (a b : list nat) : comparison :=
  match a, b with
  | [], [] => Eq
  | [], _ :: _ => Lt
  | _ :: _, [] => Gt
  | x :: a', y :: b' =>
      match Nat.compare x y with
      | Eq => lexCompare a' b'
      | c => c
      end
  end.

(** An ASCII capital. *)
Definition isCapital (c : ascii) : bool :=
  let n := nat_of_ascii c in (65 <=? n) && (n <=? 90).

(** The weight that ranks a letter without regard to its case, and a digit
    before every letter. *)
Definition primaryWeight (c : ascii) : nat :=
  if isCapital c then nat_of_ascii c + 32 else nat_of_ascii c.

(** The weight that tells a capital from its small letter: the small letter
    first. *)
Definition tertiaryWeight (c : ascii) : nat := if isCapital c then 1 else 0.

(** The sign of [a.localeCompare(b)] in the root collation of CLDR, which
    the English locales use as it is, for strings of ASCII letters and
    digits: the strings are compared by their primary weights, and strings
    that are equal there, which differ in case only, by their tertiary
    weights.  Other characters are not covered. *)
Definition rootCollation (a b : str) : comparison :=
  match lexCompare (map primaryWeight a) (map primaryWeight b) with
  | Eq => lexCompare (map tertiaryWeight a) (map tertiaryWeight b)
  | c => c
  end.

(** An ASCII letter or digit. *)
Definition isLetterOrDigit (c : ascii) : bool :=
  let n := nat_of_ascii c in
  ((48 <=? n) && (n <=? 57)) || ((65 <=? n) && (n <=? 90))
  || ((97 <=? n) && (n <=? 122)).

(** The keys the collation above covers. *)
Definition lettersAndDigits (keys : list str) : bool :=
  forallb (forallb isLetterOrDigit) keys.

(** The comparator ranks the two alike. *)
Definition rankedAlike {A : Type} (cmp : A -> A -> comparison) (a b : A) : bool :=
  match cmp a b with Eq => true | _ => false end.

(** * Properties *)

(** Closes a goal, or a conjunction of goals, that holds by running the
    code on the inputs at hand. *)
Ltac by_evaluation := repeat split; vm_compute; reflexivity.

(** ** Prefixes and occurrences *)

Section StringFacts.

Lemma str_eqb_eq (a b : str) : str_eqb a b = true <-> a = b.
Proof.
  revert b; induction a as [|x a IH]; intros [|y b]; simpl; split;
    try congruence; try reflexivity.
  - rewrite andb_true_iff. intros [Hxy Hab].
    apply Ascii.eqb_eq in Hxy. apply IH in Hab. congruence.
  - intros H; inversion H; subst. rewrite Ascii.eqb_refl. simpl.
    now apply IH.
Qed.

Lemma str_eqb_refl (a : str) : str_eqb a a = true.
Proof. now apply str_eqb_eq. Qed.

Lemma startsWith_app (p r : str) : startsWith p (p ++ r) = true.
Proof.
  induction p as [|x p IH]; simpl; [reflexivity|].
  now rewrite Ascii.eqb_refl.
Qed.

Lemma startsWith_split (p s : str) :
  startsWith p s = true -> s = p ++ skipn (length p) s.
Proof.
  revert s; induction p as [|x p IH]; intros [|y s]; simpl; try congruence.
  rewrite andb_true_iff. intros [Hxy Hps].
  apply Ascii.eqb_eq in Hxy. subst y. f_equal. now apply IH.
Qed.

Lemma startsWith_length (p s : str) :
  startsWith p s = true -> length p <= length s.
Proof.
  intros H. rewrite (startsWith_split _ _ H) at 1.
  rewrite length_app. lia.
Qed.

(** A prefix of [x ++ y] no longer than [x] is a prefix of [x]. *)
Lemma startsWith_app_long (p x y : str) :
  length p <= length x -> startsWith p (x ++ y) = startsWith p x.
Proof.
  revert x; induction p as [|c p IH]; intros [|d x] Hlen; simpl in *;
    try reflexivity; try lia.
  rewrite IH by lia. reflexivity.
Qed.

(** When [x] is shorter than the prefix, [x] is the head of the prefix and
    [y] goes on with its rest. *)
Lemma startsWith_app_short (p x y : str) :
  length x <= length p ->
  startsWith p (x ++ y) = true ->
  firstn (length x) p = x /\ startsWith (skipn (length x) p) y = true.
Proof.
  revert p; induction x as [|d x IH]; intros p Hlen H; simpl in *.
  - now split.
  - destruct p as [|c p]; simpl in *; [lia|].
    apply andb_true_iff in H as [Hcd H].
    apply Ascii.eqb_eq in Hcd. subst d.
    destruct (IH p ltac:(lia) H) as [H1 H2]. split; [now f_equal|assumption].
Qed.

Lemma occ_intro (n a b : str) : occ n (a ++ n ++ b) (length a).
Proof.
  unfold occ. rewrite skipn_app, skipn_all, Nat.sub_diag. simpl.
  apply startsWith_app.
Qed.

Lemma occ_bound (n h : str) (i : nat) :
  occ n h i -> n <> [] -> i + length n <= length h.
Proof.
  unfold occ. intros H Hn. apply startsWith_length in H.
  rewrite length_skipn in H.
  destruct n; [congruence|]. simpl in *. lia.
Qed.

Lemma occ_elim (n h : str) (i : nat) :
  occ n h i -> n <> [] ->
  h = firstn i h ++ n ++ skipn (i + length n) h /\ length (firstn i h) = i.
Proof.
  intros H Hn. pose proof (occ_bound _ _ _ H Hn) as Hb.
  unfold occ in H. apply startsWith_split in H.
  rewrite skipn_skipn in H. split.
  - rewrite <- (firstn_skipn i h) at 1. f_equal.
    rewrite Nat.add_comm in H. exact H.
  - rewrite length_firstn. lia.
Qed.

Lemma occ_decompose (n h : str) (i : nat) :
  occ n h i -> n <> [] -> exists a b, h = a ++ n ++ b /\ length a = i.
Proof.
  intros H Hn. destruct (occ_elim _ _ _ H Hn) as [Hs Hl].
  now exists (firstn i h), (skipn (i + length n) h).
Qed.

(** An occurrence that ends inside the first part of a concatenation is an
    occurrence in that part, and conversely. *)
Lemma occ_app_left (n a b : str) (i : nat) :
  i + length n <= length a -> (occ n (a ++ b) i <-> occ n a i).
Proof.
  intros Hlen. unfold occ. rewrite skipn_app.
  rewrite startsWith_app_long; [reflexivity|].
  rewrite length_skipn. lia.
Qed.

(** An occurrence that starts behind the first part is one in the second. *)
Lemma occ_app_right (n a b : str) (i : nat) :
  occ n (a ++ b) (length a + i) <-> occ n b i.
Proof.
  unfold occ. rewrite skipn_app, skipn_all2 by lia. simpl.
  now replace (length a + i - length a) with i by lia.
Qed.

Lemma indexOf_occ (n h : str) (i : nat) : indexOf n h = Some i -> occ n h i.
Proof.
  revert i; induction h as [|c h IH]; intros i; simpl.
  - destruct (startsWith n []) eqn:E; [|discriminate].
    intros [= <-]. exact E.
  - destruct (startsWith n (c :: h)) eqn:E.
    + intros [= <-]. exact E.
    + destruct (indexOf n h) as [k|]; simpl; [|discriminate].
      intros [= <-]. unfold occ; simpl. now apply IH.
Qed.

Lemma indexOf_first (n h : str) (i j : nat) :
  indexOf n h = Some i -> j < i -> ~ occ n h j.
Proof.
  revert i j; induction h as [|c h IH]; intros i j; simpl.
  - destruct (startsWith n []); [|discriminate]. intros [= <-]. lia.
  - destruct (startsWith n (c :: h)) eqn:E.
    + intros [= <-]. lia.
    + destruct (indexOf n h) as [k|] eqn:Ek; simpl; [|discriminate].
      intros [= <-] Hj. destruct j as [|j]; unfold occ; simpl.
      * congruence.
      * apply (IH k j eq_refl). lia.
Qed.

Lemma indexOf_none (n h : str) (j : nat) : indexOf n h = None -> ~ occ n h j.
Proof.
  revert j; induction h as [|c h IH]; intros j; simpl.
  - destruct (startsWith n []) eqn:E; [discriminate|].
    intros _. unfold occ. destruct j; simpl; congruence.
  - destruct (startsWith n (c :: h)) eqn:E; [discriminate|].
    destruct (indexOf n h) as [k|] eqn:Ek; simpl; [discriminate|].
    intros _. destruct j as [|j]; unfold occ; simpl; [congruence|].
    now apply IH.
Qed.

(** [indexOf] finds an occurrence that has none before it. *)
Lemma indexOf_intro (n h : str) (i : nat) :
  occ n h i -> (forall j, j < i -> ~ occ n h j) -> indexOf n h = Some i.
Proof.
  intros Hocc Hfirst.
  destruct (indexOf n h) as [k|] eqn:E.
  - destruct (Nat.lt_trichotomy k i) as [Hlt|[->|Hgt]].
    + exfalso. exact (Hfirst k Hlt (indexOf_occ _ _ _ E)).
    + reflexivity.
    + exfalso. exact (indexOf_first _ _ _ _ E Hgt Hocc).
  - exfalso. exact (indexOf_none _ _ i E Hocc).
Qed.

Lemma indexOf_none_intro (n h : str) :
  (forall j, ~ occ n h j) -> indexOf n h = None.
Proof.
  intros H. destruct (indexOf n h) as [k|] eqn:E; [|reflexivity].
  exfalso. exact (H k (indexOf_occ _ _ _ E)).
Qed.

Lemma includes_false (n h : str) (j : nat) : includes n h = false -> ~ occ n h j.
Proof.
  unfold includes. destruct (indexOf n h) eqn:E; [discriminate|].
  intros _. now apply indexOf_none.
Qed.

End StringFacts.

(** ** Trimming *)

Section TrimFacts.

Variable p : ascii -> bool.

Lemma dropEndWhile_split (s : str) :
  exists w, s = dropEndWhile p s ++ w /\ forallb p w = true.
Proof.
  induction s as [|c s [w [Hs Hw]]]; simpl.
  - exists []. now split.
  - destruct (dropEndWhile p s) as [|d t] eqn:E.
    + destruct (p c) eqn:Hc.
      * exists (c :: w). simpl in *. subst s. rewrite Hc. now split.
      * exists w. simpl in *. subst s. now split.
    + exists w. split; [|assumption]. simpl. now rewrite Hs at 1.
Qed.

Lemma dropEndWhile_all (w : str) : forallb p w = true -> dropEndWhile p w = [].
Proof.
  induction w as [|c w IH]; simpl; [reflexivity|].
  rewrite andb_true_iff. intros [Hc Hw]. now rewrite IH, Hc.
Qed.

Lemma dropEndWhile_app_all (s w : str) :
  forallb p w = true -> dropEndWhile p (s ++ w) = dropEndWhile p s.
Proof.
  intros Hw. induction s as [|c s IH]; simpl.
  - now apply dropEndWhile_all.
  - now rewrite IH.
Qed.

Lemma dropEndWhile_last (s t : str) (c : ascii) :
  dropEndWhile p s = t ++ [c] -> p c = false.
Proof.
  revert t; induction s as [|d s IH]; intros t; simpl.
  - destruct t; discriminate.
  - destruct (dropEndWhile p s) as [|e u] eqn:E.
    + destruct (p d) eqn:Hd.
      * destruct t; discriminate.
      * destruct t as [|x [|y t]]; simpl; intros [= <-]; try assumption.
    + destruct t as [|x t]; simpl; intros H; [discriminate|].
      injection H as <- H. now apply (IH t).
Qed.

Lemma dropEndWhile_keep (s : str) (c : ascii) :
  p c = false -> dropEndWhile p (s ++ [c]) = s ++ [c].
Proof.
  intros Hc. induction s as [|d s IH]; simpl.
  - now rewrite Hc.
  - rewrite IH. destruct s; reflexivity.
Qed.

End TrimFacts.

Lemma trimEnd_split (s : str) :
  exists w, s = trimEnd s ++ w /\ forallb isSpace w = true.
Proof. apply dropEndWhile_split. Qed.

(** Trailing newlines are not removed from a string that [trimEnd]
    produced: it is empty or ends with a character that is no white space. *)
Lemma dropEndWhile_isNl_trimEnd (s : str) :
  dropEndWhile isNl (trimEnd s) = trimEnd s.
Proof.
  remember (trimEnd s) as t eqn:E.
  destruct t as [|c t _] using rev_ind; [reflexivity|].
  apply dropEndWhile_keep. symmetry in E.
  apply (dropEndWhile_last isSpace) in E.
  unfold isNl. destruct (Ascii.eqb_spec c nl) as [->|]; [|reflexivity].
  discriminate E.
Qed.

(** ** Markers *)

Section MarkerFacts.

(** The last character of an occurrence that reaches behind [t] lies in
    what follows [t]. *)
Lemma occ_end_in_tail (n t w : str) (j : nat) :
  occ n (t ++ w) j -> n <> [] -> length t < j + length n ->
  In (last n " "%char) w.
Proof.
  intros Hocc Hn Hlen.
  destruct (occ_elim _ _ _ Hocc Hn) as [Hsplit Hi].
  set (a := firstn j (t ++ w)) in *. set (b := skipn (j + length n) (t ++ w)) in *.
  rewrite (app_removelast_last " "%char Hn) in Hsplit.
  assert (Hn' : length n = S (length (removelast n))).
  { rewrite (app_removelast_last " "%char Hn) at 1.
    rewrite length_app. simpl. lia. }
  apply (f_equal (skipn (length t))) in Hsplit.
  rewrite skipn_app, skipn_all, Nat.sub_diag in Hsplit. simpl in Hsplit.
  rewrite <- app_assoc in Hsplit. rewrite app_assoc in Hsplit.
  rewrite skipn_app in Hsplit.
  replace (length t - length (a ++ removelast n)) with 0 in Hsplit
    by (rewrite length_app; lia).
  simpl in Hsplit. rewrite Hsplit. apply in_or_app. right. now left.
Qed.

Lemma last_app_nonempty (a b : str) (d : ascii) :
  b <> [] -> last (a ++ b) d = last b d.
Proof.
  intros Hb. induction a as [|x a IH]; [reflexivity|].
  simpl app. simpl last. destruct (a ++ b) eqn:E.
  - destruct a; simpl in E; congruence.
  - exact IH.
Qed.

Lemma last_skipn (m : str) (k : nat) (d : ascii) :
  k < length m -> last (skipn k m) d = last m d.
Proof.
  intros Hk. rewrite <- (firstn_skipn k m) at 2.
  rewrite last_app_nonempty; [reflexivity|].
  intros E. apply (f_equal (@length ascii)) in E.
  rewrite length_skipn in E. simpl in E. lia.
Qed.

Lemma startsWith_trans (a b c : str) :
  startsWith a b = true -> startsWith b c = true -> startsWith a c = true.
Proof.
  intros Hab Hbc. rewrite (startsWith_split _ _ Hbc).
  rewrite startsWith_app_long by now apply startsWith_length.
  exact Hab.
Qed.

Lemma marker_nonempty (m : str) : MarkerLike m -> m <> [].
Proof. intros [H _ _] ->. discriminate H. Qed.

Lemma marker_length (m : str) : MarkerLike m -> 4 <= length m.
Proof. intros [H _ _]. now apply startsWith_length in H. Qed.

Lemma occ_opener_of_marker (m h : str) (j : nat) :
  MarkerLike m -> occ m h j -> occ opener h j.
Proof.
  intros Hm Hocc. unfold occ in *.
  exact (startsWith_trans _ _ _ (marker_opens _ Hm) Hocc).
Qed.

(** No comment opener starts strictly inside an occurrence of a marker. *)
Lemma opener_overlap (m h : str) (p p' : nat) :
  MarkerLike m -> occ m h p -> occ opener h p' ->
  p < p' -> p' < p + length m -> False.
Proof.
  intros Hm Hocc Hop Hlt Hgt.
  destruct (occ_decompose _ _ _ Hocc (marker_nonempty _ Hm)) as (a & b & -> & <-).
  unfold occ in Hop.
  rewrite skipn_app, skipn_all2 in Hop by lia.
  rewrite app_nil_l, skipn_app in Hop.
  replace (p' - length a - length m) with 0 in Hop by lia.
  rewrite skipn_O in Hop.
  assert (Hk : length (skipn (p' - length a) m) = length m - (p' - length a))
    by apply length_skipn.
  destruct (Nat.le_gt_cases (length opener)
              (length (skipn (p' - length a) m))) as [Hlong|Hshort].
  - rewrite startsWith_app_long in Hop by assumption.
    apply (marker_opener_once _ Hm) in Hop. lia.
  - destruct (startsWith_app_short _ _ _ (Nat.lt_le_incl _ _ Hshort) Hop)
      as [Hpre _].
    pose proof (marker_closes _ Hm) as Hlast.
    rewrite <- (last_skipn m (p' - length a)) in Hlast by lia.
    rewrite <- Hpre in Hlast. change (length opener) with 4 in Hshort.
    destruct (length (skipn (p' - length a) m)) as [|[|[|[|k]]]];
      simpl in Hlast; try discriminate; lia.
Qed.

(** Before a marker that follows [a], another marker occurs only where it
    occurs in [a] itself. *)
Lemma no_marker_before (m a x : str) (j : nat) :
  MarkerLike m -> startsWith opener x = true ->
  (forall k, ~ occ m a k) -> j < length a -> ~ occ m (a ++ x) j.
Proof.
  intros Hm Hx Ha Hj Hocc.
  destruct (Nat.le_gt_cases (j + length m) (length a)) as [Hin|Hout].
  - apply (Ha j). now apply (occ_app_left m a x j Hin).
  - apply (opener_overlap m (a ++ x) j (length a) Hm Hocc); try assumption.
    rewrite <- (Nat.add_0_r (length a)). now apply occ_app_right.
Qed.

(** The first occurrence of a marker behind a text free of it. *)
Lemma indexOf_at_marker (m a b : str) :
  MarkerLike m -> (forall k, ~ occ m a k) ->
  indexOf m (a ++ m ++ b) = Some (length a).
Proof.
  intros Hm Ha. apply indexOf_intro.
  - apply occ_intro.
  - intros j Hj. apply no_marker_before; try assumption.
    rewrite startsWith_app_long by now apply marker_length.
    now apply marker_opens.
Qed.

(** A marker does not occur in the trimmed document followed by the two
    newlines where it does not occur in the document. *)
Lemma no_marker_in_trimmed (m doc : str) :
  MarkerLike m -> (forall k, ~ occ m doc k) ->
  forall k, ~ occ m (trimEnd doc ++ [nl; nl]) k.
Proof.
  intros Hm Hdoc k Hocc.
  destruct (trimEnd_split doc) as [w [Hsplit _]].
  destruct (Nat.le_gt_cases (k + length m) (length (trimEnd doc))) as [Hin|Hout].
  - apply (Hdoc k). rewrite Hsplit. apply occ_app_left; [assumption|].
    now apply (occ_app_left m (trimEnd doc) [nl; nl] k Hin).
  - pose proof (occ_end_in_tail _ _ _ _ Hocc (marker_nonempty _ Hm) Hout) as Hin.
    rewrite (marker_closes _ Hm) in Hin. simpl in Hin.
    destruct Hin as [E|[E|[]]]; discriminate E.
Qed.

Lemma no_occ_firstn (m doc : str) (i : nat) :
  m <> [] -> (forall k, k < i -> ~ occ m doc k) ->
  forall k, ~ occ m (firstn i doc) k.
Proof.
  intros Hm Hdoc k Hocc.
  pose proof (occ_bound _ _ _ Hocc Hm) as Hb.
  rewrite length_firstn in Hb.
  destruct m as [|c m]; [congruence|]. simpl in Hb.
  apply (Hdoc k); [lia|].
  rewrite <- (firstn_skipn i doc). apply occ_app_left; [|assumption].
  rewrite length_firstn. simpl. lia.
Qed.

End MarkerFacts.

(** ** The markers of generator.ts *)

Section GeneratorMarkers.

Import Generator.

Lemma opener_not_at_suffix (id : str) (q : nat) :
  includes opener id = false -> ~ occ opener (id ++ MARKER_SUFFIX) q.
Proof.
  intros Hid Hocc.
  destruct (Nat.le_gt_cases (q + length opener) (length id)) as [Hin|Hout].
  - apply (includes_false _ _ q Hid).
    exact (proj1 (occ_app_left opener id MARKER_SUFFIX q Hin) Hocc).
  - unfold occ in Hocc. rewrite skipn_app in Hocc.
    assert (Hk : length (skipn q id) = length id - q) by apply length_skipn.
    simpl in Hout.
    destruct (skipn q id) as [|c1 [|c2 [|c3 [|c4 x]]]] eqn:E; simpl in Hk.
    + destruct (q - length id) as [|[|[|[|k]]]]; cbn in Hocc;
        try discriminate. destruct k; discriminate.
    + replace (q - length id) with 0 in Hocc by lia.
      cbn in Hocc. rewrite andb_false_r in Hocc. discriminate.
    + replace (q - length id) with 0 in Hocc by lia.
      cbn in Hocc. rewrite !andb_false_r in Hocc. discriminate.
    + replace (q - length id) with 0 in Hocc by lia.
      cbn in Hocc. rewrite !andb_false_r in Hocc. discriminate.
    + lia.
Qed.

Lemma startMarker_like (id : str) :
  includes opener id = false -> MarkerLike (getStartMarker id).
Proof.
  intros Hid. split.
  - reflexivity.
  - unfold getStartMarker. rewrite !last_app_nonempty; [reflexivity| |];
      try discriminate.
    destruct id; discriminate.
  - intros q Hocc. destruct q as [|q]; [reflexivity|]. exfalso.
    unfold getStartMarker, START_MARKER_PREFIX, occ in Hocc.
    do 21 (destruct q as [|q]; [cbn in Hocc; discriminate|]).
    cbn in Hocc. exact (opener_not_at_suffix id q Hid Hocc).
Qed.

Lemma endMarker_like (id : str) :
  includes opener id = false -> MarkerLike (getEndMarker id).
Proof.
  intros Hid. split.
  - reflexivity.
  - unfold getEndMarker. rewrite !last_app_nonempty; [reflexivity| |];
      try discriminate.
    destruct id; discriminate.
  - intros q Hocc. destruct q as [|q]; [reflexivity|]. exfalso.
    unfold getEndMarker, END_MARKER_PREFIX, occ in Hocc.
    do 19 (destruct q as [|q]; [cbn in Hocc; discriminate|]).
    cbn in Hocc. exact (opener_not_at_suffix id q Hid Hocc).
Qed.

(** An identifier that [validateSourceName] accepts has no comment opener. *)
Lemma validateSourceName_opener (id : str) :
  validateSourceName id = inr tt -> includes opener id = false.
Proof.
  unfold validateSourceName. destruct id as [|c id]; [discriminate|].
  destruct (trim (c :: id)); [discriminate|].
  destruct (100 <? length (c :: id)); [discriminate|].
  destruct (includes (L "-->") (c :: id)); [discriminate|].
  cbn [orb]. fold opener.
  destruct (includes opener (c :: id)); [discriminate|reflexivity].
Qed.

End GeneratorMarkers.

(** ** The merger: replace, malformed, append *)

Section UpsertCases.

Import Generator.

Lemma updateContent_replace (doc id block : str) (i j : nat) :
  indexOf (getStartMarker id) doc = Some i ->
  indexOf (getEndMarker id) doc = Some j ->
  i < j ->
  updateContent doc id block
  = inr (firstn i doc ++ block ++ skipn (j + length (getEndMarker id)) doc).
Proof.
  intros Hs He Hij. unfold updateContent. rewrite Hs, He.
  apply Nat.ltb_lt in Hij. now rewrite Hij.
Qed.

Lemma updateContent_append (doc id block : str) :
  indexOf (getStartMarker id) doc = None ->
  updateContent doc id block = inr (trimEnd doc ++ [nl; nl] ++ block ++ [nl]).
Proof. intros Hs. unfold updateContent. now rewrite Hs. Qed.

Lemma updateContent_malformed (doc id block : str) (i : nat) :
  indexOf (getStartMarker id) doc = Some i ->
  indexOf (getEndMarker id) doc = None ->
  updateContent doc id block = inl (MalformedBlock id).
Proof. intros Hs He. unfold updateContent. now rewrite Hs, He. Qed.

Lemma endMarker_nonempty (id : str) : getEndMarker id <> [].
Proof. discriminate. Qed.

Lemma startMarker_nonempty (id : str) : getStartMarker id <> [].
Proof. discriminate. Qed.

Lemma endMarker_last (id : str) : last (getEndMarker id) " "%char = ">"%char.
Proof.
  unfold getEndMarker. rewrite !last_app_nonempty; [reflexivity| |];
    try discriminate.
  destruct id; discriminate.
Qed.

(** An error of [generateAgentsMd] leaves the file as it was. *)
Lemma generateAgentsMd_error_keeps_file
  (newFileContent relativePath : str) (file : File) (id index : str)
  (e : Error) (file' : File) :
  generateAgentsMd newFileContent relativePath file id index = (inl e, file') ->
  file' = file.
Proof.
  unfold generateAgentsMd.
  destruct (validateSourceName id); [now intros [= _ <-]|].
  destruct index as [|c index]; [now intros [= _ <-]|].
  destruct (trim (c :: index)); [now intros [= _ <-]|].
  destruct file as [doc|]; [|discriminate].
  destruct (updateContent doc id _); [now intros [= _ <-]|discriminate].
Qed.

(** C5.  Upsert on a document: with both markers and the start first, the
    text from the start marker through the end marker is replaced by the
    new block and the text before and after it stays as it is; with a start
    marker and no end marker it fails with MalformedBlock and the document
    file is not written; with neither marker the block is appended to the
    document trimmed at its end, after one blank line. *)
Theorem upsert_replace_malformed_append (doc id block : str) :
  (forall i j,
      indexOf (getStartMarker id) doc = Some i ->
      indexOf (getEndMarker id) doc = Some j ->
      i < j ->
      exists before old after,
        doc = before ++ old ++ after
        /\ length before = i
        /\ startsWith (getStartMarker id) (old ++ after) = true
        /\ before ++ old = firstn j doc ++ getEndMarker id
        /\ updateContent doc id block = inr (before ++ block ++ after))
  /\ (forall i,
      indexOf (getStartMarker id) doc = Some i ->
      indexOf (getEndMarker id) doc = None ->
      updateContent doc id block = inl (MalformedBlock id)
      /\ forall newFileContent relativePath index,
          exists e,
            generateAgentsMd newFileContent relativePath (Some doc) id index
            = (inl e, Some doc))
  /\ (indexOf (getStartMarker id) doc = None ->
      indexOf (getEndMarker id) doc = None ->
      updateContent doc id block
      = inr (trimEnd doc ++ [nl; nl] ++ block ++ [nl])
      /\ forall t c, trimEnd doc = t ++ [c] -> isSpace c = false).
Proof.
  split; [|split].
  - intros i j Hs He Hij.
    pose proof (indexOf_occ _ _ _ Hs) as Hos.
    pose proof (indexOf_occ _ _ _ He) as Hoe.
    destruct (occ_elim _ _ _ Hoe (endMarker_nonempty id)) as [Hsplit Hlen].
    pose proof (occ_bound _ _ _ Hoe (endMarker_nonempty id)) as Hb.
    remember (getEndMarker id) as E eqn:HE.
    exists (firstn i doc),
      (firstn (j + length E - i) (skipn i doc)),
      (skipn (j + length E) doc).
    assert (Hold : firstn (j + length E - i) (skipn i doc)
                   ++ skipn (j + length E) doc = skipn i doc).
    { replace (skipn (j + length E) doc)
        with (skipn (j + length E - i) (skipn i doc)).
      - apply firstn_skipn.
      - rewrite skipn_skipn. f_equal. lia. }
    repeat split.
    + rewrite Hold. symmetry. apply firstn_skipn.
    + rewrite length_firstn. lia.
    + rewrite Hold. exact Hos.
    + assert (HjE : firstn (j + length E) doc = firstn j doc ++ E).
      { clear - Hsplit Hlen. revert Hsplit Hlen.
        generalize (firstn j doc), (skipn (j + length E) doc).
        intros a r -> <-. rewrite app_assoc, firstn_app, length_app.
        rewrite firstn_all2 by (rewrite length_app; lia).
        replace (length a + length E - (length a + length E)) with 0 by lia.
        simpl. now rewrite app_nil_r. }
      rewrite <- HjE.
      rewrite <- (firstn_skipn i (firstn (j + length E) doc)).
      rewrite firstn_firstn, skipn_firstn_comm.
      now replace (Nat.min i (j + length E)) with i by lia.
    + subst E. now apply updateContent_replace.
  - intros i Hs He. split.
    + now apply (updateContent_malformed doc id block i).
    + intros nfc rel index.
      destruct (generateAgentsMd nfc rel (Some doc) id index) as [[e|r] f] eqn:G.
      * exists e. f_equal.
        now apply (generateAgentsMd_error_keeps_file _ _ _ _ _ _ _ G).
      * exfalso. revert G. unfold generateAgentsMd.
        destruct (validateSourceName id); [discriminate|].
        destruct index as [|c index]; [discriminate|].
        destruct (trim (c :: index)); [discriminate|].
        now rewrite (updateContent_malformed doc id _ i Hs He).
  - intros Hs He. split.
    + now apply updateContent_append.
    + intros t c Ht. exact (dropEndWhile_last isSpace doc t c Ht).
Qed.

End UpsertCases.

(** ** The merger: a second Upsert, and Remove *)

Section UpsertTwice.

Import Generator.

Lemma endMarker_not_startMarker (id x : str) :
  startsWith (getEndMarker id) (getStartMarker id ++ x) = false.
Proof. reflexivity. Qed.

Lemma no_end_in_start_body (id mid : str) :
  includes opener id = false ->
  (forall k, ~ occ (getEndMarker id) mid k) ->
  forall k, ~ occ (getEndMarker id) (getStartMarker id ++ mid) k.
Proof.
  intros Hid Hmid k Hocc.
  pose proof (startMarker_like id Hid) as HS.
  pose proof (endMarker_like id Hid) as HE.
  destruct k as [|k].
  - unfold occ in Hocc. rewrite skipn_O, endMarker_not_startMarker in Hocc.
    discriminate.
  - destruct (Nat.le_gt_cases (length (getStartMarker id)) (S k)) as [Hge|Hlt].
    + apply (Hmid (S k - length (getStartMarker id))).
      apply (occ_app_right _ (getStartMarker id)).
      now replace (length (getStartMarker id) + (S k - length (getStartMarker id)))
        with (S k) by lia.
    + apply (opener_overlap (getStartMarker id) (getStartMarker id ++ mid) 0 (S k) HS).
      * unfold occ. rewrite skipn_O. apply startsWith_app.
      * exact (occ_opener_of_marker _ _ _ HE Hocc).
      * lia.
      * lia.
Qed.

(** Where [indexOf] finds the two markers of a block that stands between
    two texts, the first of them free of both markers. *)
Lemma block_positions (id a mid c : str) :
  includes opener id = false ->
  (forall k, ~ occ (getStartMarker id) a k) ->
  (forall k, ~ occ (getEndMarker id) a k) ->
  (forall k, ~ occ (getEndMarker id) mid k) ->
  let d := a ++ (getStartMarker id ++ mid ++ getEndMarker id) ++ c in
  indexOf (getStartMarker id) d = Some (length a)
  /\ indexOf (getEndMarker id) d
     = Some (length a + length (getStartMarker id) + length mid).
Proof.
  intros Hid HaS HaE Hmid d. subst d.
  pose proof (startMarker_like id Hid) as HS.
  pose proof (endMarker_like id Hid) as HE.
  split.
  - rewrite <- !app_assoc. now apply indexOf_at_marker.
  - replace (a ++ (getStartMarker id ++ mid ++ getEndMarker id) ++ c)
      with ((a ++ getStartMarker id ++ mid) ++ getEndMarker id ++ c)
      by now rewrite <- !app_assoc.
    replace (length a + length (getStartMarker id) + length mid)
      with (length (a ++ getStartMarker id ++ mid))
      by (rewrite !length_app; lia).
    apply indexOf_at_marker; [assumption|].
    intros k Hocc.
    destruct (Nat.le_gt_cases (length a) k) as [Hge|Hlt].
    + apply (no_end_in_start_body id mid Hid Hmid (k - length a)).
      apply (occ_app_right _ a).
      now replace (length a + (k - length a)) with k by lia.
    + revert Hocc. apply no_marker_before; try assumption.
      reflexivity.
Qed.

Lemma skipn_past (a b c : str) (n : nat) :
  n = length a + length b -> skipn n (a ++ b ++ c) = c.
Proof.
  intros ->. rewrite app_assoc, skipn_app.
  rewrite skipn_all2 by (rewrite length_app; lia).
  rewrite length_app. now replace (length a + length b - (length a + length b))
    with 0 by lia.
Qed.

Lemma firstn_exact (a b : str) : firstn (length a) (a ++ b) = a.
Proof.
  rewrite firstn_app, firstn_all, Nat.sub_diag. simpl. apply app_nil_r.
Qed.

(** A block in place is replaced by itself. *)
Lemma updateContent_fixed (id a mid c : str) :
  includes opener id = false ->
  (forall k, ~ occ (getStartMarker id) a k) ->
  (forall k, ~ occ (getEndMarker id) a k) ->
  (forall k, ~ occ (getEndMarker id) mid k) ->
  let block := getStartMarker id ++ mid ++ getEndMarker id in
  updateContent (a ++ block ++ c) id block = inr (a ++ block ++ c).
Proof.
  intros Hid HaS HaE Hmid block.
  destruct (block_positions id a mid c Hid HaS HaE Hmid) as [Hs He].
  fold block in Hs, He.
  rewrite (updateContent_replace _ _ _ _ _ Hs He)
    by (pose proof (marker_length _ (startMarker_like id Hid)); lia).
  rewrite firstn_exact. do 3 f_equal.
  apply skipn_past. unfold block. rewrite !length_app. lia.
Qed.

Lemma removeContent_block (id a mid c : str) :
  includes opener id = false ->
  (forall k, ~ occ (getStartMarker id) a k) ->
  (forall k, ~ occ (getEndMarker id) a k) ->
  (forall k, ~ occ (getEndMarker id) mid k) ->
  let block := getStartMarker id ++ mid ++ getEndMarker id in
  removeContent (a ++ block ++ c) id
  = Some (collapseTrailingNewlines a ++ collapseLeadingNewlines c).
Proof.
  intros Hid HaS HaE Hmid block.
  destruct (block_positions id a mid c Hid HaS HaE Hmid) as [Hs He].
  fold block in Hs, He.
  unfold removeContent. rewrite Hs, He.
  unfold substringTo, substringFrom.
  rewrite firstn_exact. do 3 f_equal.
  apply skipn_past. unfold block. rewrite !length_app. lia.
Qed.

Lemma trimEnd_idem (s : str) : trimEnd (trimEnd s) = trimEnd s.
Proof.
  unfold trimEnd. remember (dropEndWhile isSpace s) as t eqn:E.
  destruct t as [|c t _] using rev_ind; [reflexivity|].
  apply dropEndWhile_keep. symmetry in E.
  exact (dropEndWhile_last isSpace _ _ _ E).
Qed.

Lemma collapse_after_trim (s : str) :
  collapseTrailingNewlines (trimEnd s ++ [nl; nl]) = trimEnd s ++ [nl].
Proof.
  unfold collapseTrailingNewlines.
  rewrite dropEndWhile_app_all by reflexivity.
  rewrite dropEndWhile_isNl_trimEnd.
  rewrite length_app. simpl length.
  destruct (Nat.ltb_spec (length (trimEnd s)) (length (trimEnd s) + 2));
    [reflexivity|lia].
Qed.

End UpsertTwice.

Section UpsertClaims.

Import Generator.





(** The three cases of C5 at concrete documents. *)
Lemma upsert_replace_malformed_append_witness :
  let id := L "broken" in
  let block := L "new" in
  let doc1 := L "# A" ++ [nl] ++ getStartMarker id ++ L "old"
              ++ getEndMarker id ++ [nl] ++ L "tail" in
  (exists before old after,
      doc1 = before ++ old ++ after
      /\ length before = 4
      /\ updateContent doc1 id block = inr (before ++ block ++ after))
  /\ updateContent (L "# A" ++ [nl] ++ getStartMarker id ++ L "no end") id block
     = inl (MalformedBlock id)
  /\ updateContent (L "# A  " ++ [nl; nl; nl]) id block
     = inr (trimEnd (L "# A  " ++ [nl; nl; nl]) ++ [nl; nl] ++ block ++ [nl]).
Proof.
  intros id block doc1. split; [|split].
  - destruct (upsert_replace_malformed_append doc1 id block) as [H _].
    destruct (H 4 39 eq_refl eq_refl ltac:(lia))
      as (before & old & after & Hdoc & Hlen & _ & _ & Hres).
    now exists before, old, after.
  - destruct (upsert_replace_malformed_append
                (L "# A" ++ [nl] ++ getStartMarker id ++ L "no end") id block)
      as (_ & H & _).
    exact (proj1 (H 4 eq_refl eq_refl)).
  - destruct (upsert_replace_malformed_append
                (L "# A  " ++ [nl; nl; nl]) id block)
      as (_ & _ & H).
    exact (proj1 (H eq_refl eq_refl)).
Defined.

End UpsertClaims.

Section UpsertIdempotence.

Import Generator.

Lemma no_occ_of_index_none (n h : str) :
  indexOf n h = None -> forall k, ~ occ n h k.
Proof. intros H k. now apply indexOf_none. Qed.

Lemma withoutSpace_newlines (w : str) :
  forallb isNl w = true -> withoutSpace w = [].
Proof.
  induction w as [|c w IH]; [reflexivity|]. cbn [forallb].
  rewrite andb_true_iff. intros [Hc Hw]. unfold isNl in Hc.
  apply Ascii.eqb_eq in Hc. subst c. exact (IH Hw).
Qed.

Lemma withoutSpace_collapseTrailingNewlines (s : str) :
  withoutSpace (collapseTrailingNewlines s) = withoutSpace s.
Proof.
  unfold collapseTrailingNewlines.
  destruct (length (dropEndWhile isNl s) <? length s); [|reflexivity].
  destruct (dropEndWhile_split isNl s) as (w & Hs & Hw).
  rewrite Hs at 2. unfold withoutSpace. rewrite !filter_app.
  fold (withoutSpace w). now rewrite (withoutSpace_newlines w Hw).
Qed.

Lemma withoutSpace_collapseLeadingNewlines (s : str) :
  withoutSpace (collapseLeadingNewlines s) = withoutSpace s.
Proof.
  unfold collapseLeadingNewlines.
  assert (H : withoutSpace (dropWhile isNl s) = withoutSpace s).
  { induction s as [|c s IH]; [reflexivity|]. cbn [dropWhile].
    destruct (isNl c) eqn:Hc; [|reflexivity].
    unfold isNl in Hc. apply Ascii.eqb_eq in Hc. subst c. exact IH. }
  destruct (length (dropWhile isNl s) <? length s); [exact H|reflexivity].
Qed.

(** C6, as the code has it.  For an identifier without a comment opener, a
    block body that does not contain the end marker, and a document that
    has either no marker of the identifier or a start marker with the first
    end marker behind it: the first Upsert succeeds and a second Upsert
    with the same body returns the same document.  When the document had no
    marker, Upsert followed by Remove gives the document trimmed at its end
    followed by one blank line, which is the document up to trailing white
    space.  When the document had a block, Upsert followed by Remove gives
    the text before the block and the text behind it, with the newlines at
    the seam collapsed: what Remove gives on the document itself, which is
    not the document, not even up to white space. *)
Theorem upsert_idempotent_and_remove (doc id displayName rootPath body : str) :
  includes opener id = false ->
  includes (getEndMarker id) (blockBody displayName rootPath body) = false ->
  noOrphanMarker id doc = true ->
  exists d1,
    Upsert doc id displayName rootPath body = inr d1
    /\ Upsert d1 id displayName rootPath body = inr d1
    /\ (indexOf (getStartMarker id) doc = None ->
        Remove d1 id = trimEnd doc ++ [nl; nl]
        /\ trimEnd (Remove d1 id) = trimEnd doc)
    /\ (forall i j,
          indexOf (getStartMarker id) doc = Some i ->
          indexOf (getEndMarker id) doc = Some j ->
          Remove d1 id
          = collapseTrailingNewlines (firstn i doc)
            ++ collapseLeadingNewlines
                 (skipn (j + length (getEndMarker id)) doc)
          /\ Remove d1 id = Remove doc id
          /\ withoutSpace (Remove d1 id) <> withoutSpace doc).
Proof.
  intros Hid Hbody Hdoc.
  set (mid := blockBody displayName rootPath body) in *.
  assert (Hmid : forall k, ~ occ (getEndMarker id) mid k)
    by (intros k; now apply includes_false).
  pose proof (startMarker_like id Hid) as HS.
  pose proof (endMarker_like id Hid) as HE.
  unfold noOrphanMarker in Hdoc. unfold Upsert, generateIndexBlock. fold mid.
  destruct (indexOf (getStartMarker id) doc) as [i|] eqn:Es;
    destruct (indexOf (getEndMarker id) doc) as [j|] eqn:Ee;
    try discriminate.
  - (* the block is replaced *)
    apply Nat.ltb_lt in Hdoc.
    set (a := firstn i doc).
    set (c := skipn (j + length (getEndMarker id)) doc).
    assert (HaS : forall k, ~ occ (getStartMarker id) a k).
    { apply no_occ_firstn; [apply startMarker_nonempty|].
      intros k Hk. exact (indexOf_first _ _ _ _ Es Hk). }
    assert (HaE : forall k, ~ occ (getEndMarker id) a k).
    { apply no_occ_firstn; [apply endMarker_nonempty|].
      intros k Hk. apply (indexOf_first _ _ _ _ Ee). lia. }
    exists (a ++ (getStartMarker id ++ mid ++ getEndMarker id) ++ c).
    split; [now apply updateContent_replace|].
    split; [now apply updateContent_fixed|].
    split; [discriminate|].
    intros i' j' [= <-] [= <-].
    assert (Hremoved :
              Remove (a ++ (getStartMarker id ++ mid ++ getEndMarker id) ++ c) id
              = collapseTrailingNewlines a ++ collapseLeadingNewlines c).
    { unfold Remove.
      now rewrite (removeContent_block id a mid c Hid HaS HaE Hmid). }
    split; [exact Hremoved|]. split.
    + rewrite Hremoved. unfold Remove, removeContent. now rewrite Es, Ee.
    + rewrite Hremoved. unfold withoutSpace at 1. rewrite filter_app.
      fold (withoutSpace (collapseTrailingNewlines a)).
      fold (withoutSpace (collapseLeadingNewlines c)).
      rewrite withoutSpace_collapseTrailingNewlines,
        withoutSpace_collapseLeadingNewlines.
      (* the document is [a], the old block from its start marker to its
         end marker, and [c] *)
      pose proof (indexOf_occ _ _ _ Es) as Hocc.
      destruct (occ_elim _ _ _ Hocc (startMarker_nonempty id)) as [Hd _].
      pose proof (occ_bound _ _ _ (indexOf_occ _ _ _ Ee) (endMarker_nonempty id))
        as Hjb.
      pose proof (marker_length _ HS) as HlenS.
      set (old := firstn (j + length (getEndMarker id) - i) (skipn i doc)).
      assert (Hdoc3 : doc = a ++ old ++ c).
      { subst a old c. rewrite <- (firstn_skipn i doc) at 1. f_equal.
        rewrite <- (firstn_skipn (j + length (getEndMarker id) - i) (skipn i doc))
          at 1.
        f_equal. rewrite skipn_skipn. f_equal. lia. }
      assert (Hold : In "<"%char old).
      { subst old. unfold occ in Hocc. apply startsWith_split in Hocc.
        rewrite Hocc.
        change (getStartMarker id)
          with ("<"%char :: L "!-- DOCS-INDEX-START:" ++ id ++ MARKER_SUFFIX).
        cbn [app].
        destruct (j + length (getEndMarker id) - i) as [|n] eqn:En; [lia|].
        cbn [firstn]. now left. }
      intros Heq. rewrite Hdoc3 in Heq.
      unfold withoutSpace in Heq. rewrite !filter_app in Heq.
      apply app_inv_head in Heq.
      assert (Hlen : length (filter (fun x => negb (isSpace x)) c)
                     = length (filter (fun x => negb (isSpace x)) old
                               ++ filter (fun x => negb (isSpace x)) c))
        by (now rewrite <- Heq).
      rewrite length_app in Hlen.
      assert (Hin : In "<"%char (filter (fun x => negb (isSpace x)) old))
        by (apply filter_In; split; [exact Hold|reflexivity]).
      destruct (filter (fun x => negb (isSpace x)) old); [destruct Hin|].
      cbn [length] in Hlen. lia.
  - (* the block is appended *)
    exists ((trimEnd doc ++ [nl; nl])
            ++ (getStartMarker id ++ mid ++ getEndMarker id) ++ [nl]).
    assert (HaS : forall k, ~ occ (getStartMarker id) (trimEnd doc ++ [nl; nl]) k)
      by (apply no_marker_in_trimmed; [assumption|now apply no_occ_of_index_none]).
    assert (HaE : forall k, ~ occ (getEndMarker id) (trimEnd doc ++ [nl; nl]) k)
      by (apply no_marker_in_trimmed; [assumption|now apply no_occ_of_index_none]).
    split; [|split; [|split]].
    + rewrite updateContent_append by assumption.
      now rewrite <- !app_assoc.
    + now apply updateContent_fixed.
    + intros _. unfold Remove.
      rewrite (removeContent_block id _ mid [nl] Hid HaS HaE Hmid).
      rewrite collapse_after_trim.
      change (collapseLeadingNewlines [nl]) with [nl].
      rewrite <- app_assoc. split; [reflexivity|].
      unfold trimEnd at 1. rewrite dropEndWhile_app_all by reflexivity.
      apply trimEnd_idem.
    + intros i j [=].
Qed.

(** The theorem at a document without a block of the identifier, and at
    one that has a block of it between two paragraphs. *)
Lemma upsert_idempotent_and_remove_witness :
  let id := L "react-docs" in
  let doc := L "# AGENTS" ++ [nl; nl] ++ L "Notes  " ++ [nl; nl; nl] in
  let doc' := L "# AGENTS" ++ [nl; nl] ++ getStartMarker id ++ [nl] ++ L "old"
              ++ [nl] ++ getEndMarker id ++ [nl; nl] ++ L "Notes" ++ [nl] in
  (exists d1,
     Upsert doc id (L "React Docs") (L "./.docs/react-docs") (L "react-docs:{a.md}")
     = inr d1
     /\ Upsert d1 id (L "React Docs") (L "./.docs/react-docs") (L "react-docs:{a.md}")
        = inr d1
     /\ Remove d1 id = L "# AGENTS" ++ [nl; nl] ++ L "Notes" ++ [nl; nl])
  /\ (exists d1,
        Upsert doc' id (L "React Docs") (L "./.docs/react-docs")
          (L "react-docs:{a.md}") = inr d1
        /\ Upsert d1 id (L "React Docs") (L "./.docs/react-docs")
             (L "react-docs:{a.md}") = inr d1
        /\ Remove d1 id = L "# AGENTS" ++ [nl; nl] ++ L "Notes" ++ [nl]
        /\ Remove d1 id = Remove doc' id
        /\ withoutSpace (Remove d1 id) <> withoutSpace doc').
Proof.
  intros id doc doc'. split.
  - destruct (upsert_idempotent_and_remove doc id (L "React Docs")
                (L "./.docs/react-docs") (L "react-docs:{a.md}")
                eq_refl eq_refl eq_refl) as (d1 & H1 & H2 & H3 & _).
    exists d1. split; [exact H1|]. split; [exact H2|].
    exact (proj1 (H3 eq_refl)).
  - destruct (upsert_idempotent_and_remove doc' id (L "React Docs")
                (L "./.docs/react-docs") (L "react-docs:{a.md}")
                eq_refl eq_refl eq_refl) as (d1 & H1 & H2 & _ & H4).
    exists d1. split; [exact H1|]. split; [exact H2|].
    destruct (H4 10 51 eq_refl eq_refl) as (Hr & Hsame & Hnot).
    split; [rewrite Hr; reflexivity|]. split; [exact Hsame|exact Hnot].
Defined.

(** C6 fails as it is stated, in three ways.  A document that already has
    a block of the identifier does not come back from Upsert and Remove,
    not even up to white space: the block it had is gone.  A body that
    contains the end marker makes the second Upsert differ from the first.
    So does an end marker without a start marker before it. *)
Lemma upsert_roundtrip_and_idempotence_fail :
  let id := L "x" in
  (let doc := L "A" ++ [nl] ++ getStartMarker id ++ L "old" ++ getEndMarker id
              ++ [nl] ++ L "B" in
   exists d1,
     Upsert doc id (L "X") (L "r") (L "i") = inr d1
     /\ withoutSpace (Remove d1 id) <> withoutSpace doc)
  /\ (let body := L "x:{" ++ getEndMarker id ++ L ".md}" in
      exists d1 d2,
        Upsert (L "doc") id (L "X") (L "r") body = inr d1
        /\ Upsert d1 id (L "X") (L "r") body = inr d2
        /\ d2 <> d1)
  /\ (exists d1 d2,
        Upsert (getEndMarker id) id (L "X") (L "r") (L "i") = inr d1
        /\ Upsert d1 id (L "X") (L "r") (L "i") = inr d2
        /\ d2 <> d1).
Proof.
  intros id. split; [|split].
  - eexists. split; [vm_compute; reflexivity|].
    vm_compute. discriminate.
  - eexists. eexists. split; [vm_compute; reflexivity|].
    split; [vm_compute; reflexivity|]. vm_compute. discriminate.
  - eexists. eexists. split; [vm_compute; reflexivity|].
    split; [vm_compute; reflexivity|]. vm_compute. discriminate.
Qed.

(** C2 at a document that holds an end marker of the identifier and no
    start marker: it has no active block of any identifier; two Upserts
    succeed, each appends a block, and the document then has two active
    blocks of the identifier. *)
Theorem upsert_twice_duplicates_block :
  let id := L "x" in
  let doc := getEndMarker id in
  (forall y, activeBlocks y doc = 0)
  /\ exists d1 d2,
      Upsert doc id (L "X") (L "./.docs/x") (L "x:{a.md}") = inr d1
      /\ Upsert d1 id (L "X") (L "./.docs/x") (L "x:{a.md}") = inr d2
      /\ activeBlocks id d1 = 1
      /\ activeBlocks id d2 = 2
      /\ countOcc (getStartMarker id) d2 = 2.
Proof.
  intros id doc. split; [intros y; reflexivity|].
  eexists. eexists.
  split; [vm_compute; reflexivity|].
  split; [vm_compute; reflexivity|].
  by_evaluation.
Qed.

End UpsertIdempotence.

(** ** One block per identifier, where the document has no orphan marker *)

Section OneBlock.

Import Generator.

Variable id : str.
Hypothesis id_valid : includes opener id = false.

Lemma indexOf_skipn (n h : str) (j k : nat) :
  indexOf n h = Some j -> k <= j -> indexOf n (skipn k h) = Some (j - k).
Proof.
  intros Hj Hk. apply indexOf_intro.
  - unfold occ. rewrite skipn_skipn.
    replace (j - k + k) with j by lia. exact (indexOf_occ _ _ _ Hj).
  - intros m Hm Hocc. apply (indexOf_first _ _ _ (m + k) Hj); [lia|].
    unfold occ in *. now rewrite skipn_skipn in Hocc.
Qed.

Lemma scanBlocks_fuel (f1 f2 : nat) (doc : str) :
  length doc <= f1 -> length doc <= f2 ->
  scanBlocks f1 id doc = scanBlocks f2 id doc.
Proof.
  revert f2 doc. induction f1 as [|f1 IH]; intros f2 doc H1 H2.
  - destruct doc; [|simpl in H1; lia]. destruct f2; reflexivity.
  - destruct f2 as [|f2].
    + destruct doc; [reflexivity|simpl in H2; lia].
    + destruct doc as [|c doc]; [reflexivity|].
      cbn [scanBlocks].
      destruct (indexOf (getStartMarker id) (c :: doc)) as [i|]; [|reflexivity].
      destruct (indexOf (getEndMarker id)
                  (skipn (i + length (getStartMarker id)) (c :: doc))) as [j|];
        [|reflexivity].
      f_equal.
      pose proof (marker_length _ (endMarker_like id id_valid)).
      apply IH; rewrite !length_skipn; cbn [length] in H1, H2 |- *; lia.
Qed.

(** A block that stands behind a text free of the start marker is the
    first active block; the scan goes on behind it. *)
Lemma activeBlocks_block (a mid c : str) :
  (forall k, ~ occ (getStartMarker id) a k) ->
  (forall k, ~ occ (getEndMarker id) mid k) ->
  activeBlocks id (a ++ (getStartMarker id ++ mid ++ getEndMarker id) ++ c)
  = S (activeBlocks id c).
Proof.
  intros Ha Hmid. unfold activeBlocks.
  pose proof (startMarker_like id id_valid) as HS.
  pose proof (endMarker_like id id_valid) as HE.
  set (d := a ++ (getStartMarker id ++ mid ++ getEndMarker id) ++ c).
  assert (Hd : d = a ++ getStartMarker id ++ (mid ++ getEndMarker id ++ c))
    by (unfold d; now rewrite <- !app_assoc).
  assert (Hpos : length c < length d).
  { unfold d. rewrite !length_app. pose proof (marker_length _ HS). lia. }
  destruct (length d) as [|f] eqn:Ef; [lia|].
  cbn [scanBlocks]. rewrite Hd at 1.
  rewrite (indexOf_at_marker _ a _ HS Ha).
  rewrite Hd, app_assoc, skipn_app.
  rewrite skipn_all2 by (rewrite length_app; lia).
  rewrite length_app, Nat.sub_diag. cbn [app skipn].
  rewrite (indexOf_at_marker _ mid c HE Hmid).
  rewrite (skipn_past mid (getEndMarker id) c) by reflexivity.
  f_equal. apply scanBlocks_fuel; lia.
Qed.

Lemma markers_apart (doc : str) (i j : nat) :
  indexOf (getStartMarker id) doc = Some i ->
  indexOf (getEndMarker id) doc = Some j ->
  i < j -> i + length (getStartMarker id) <= j.
Proof.
  intros Hs He Hij.
  destruct (Nat.le_gt_cases (i + length (getStartMarker id)) j) as [H|H];
    [assumption|exfalso].
  apply (opener_overlap (getStartMarker id) doc i j
           (startMarker_like id id_valid) (indexOf_occ _ _ _ Hs)); try assumption.
  exact (occ_opener_of_marker _ _ _ (endMarker_like id id_valid)
           (indexOf_occ _ _ _ He)).
Qed.

(** In a document whose first start marker precedes its first end marker
    these two make the first active block. *)
Lemma activeBlocks_first (doc : str) (i j : nat) :
  indexOf (getStartMarker id) doc = Some i ->
  indexOf (getEndMarker id) doc = Some j ->
  i < j ->
  activeBlocks id doc
  = S (activeBlocks id (skipn (j + length (getEndMarker id)) doc)).
Proof.
  intros Hs He Hij. unfold activeBlocks.
  pose proof (markers_apart doc i j Hs He Hij) as Hap.
  pose proof (occ_bound _ _ _ (indexOf_occ _ _ _ He) (endMarker_nonempty id)) as Hb.
  pose proof (marker_length _ (endMarker_like id id_valid)) as HlE.
  destruct (length doc) as [|f] eqn:Ef; [lia|].
  cbn [scanBlocks]. rewrite Hs.
  rewrite (indexOf_skipn _ _ j _ He Hap).
  rewrite skipn_skipn.
  replace (j - (i + length (getStartMarker id)) + length (getEndMarker id)
           + (i + length (getStartMarker id)))
    with (j + length (getEndMarker id)) by lia.
  f_equal. apply scanBlocks_fuel; rewrite length_skipn; lia.
Qed.

Lemma activeBlocks_none (doc : str) :
  indexOf (getStartMarker id) doc = None -> activeBlocks id doc = 0.
Proof.
  intros Hs. unfold activeBlocks. destruct (length doc); [reflexivity|].
  cbn [scanBlocks]. now rewrite Hs.
Qed.

(** An Upsert on a document without orphan marker leaves one active block
    where there was none, keeps the number of active blocks otherwise, and
    its result has no orphan marker either. *)
Theorem upsert_keeps_one_block (doc displayName rootPath body : str) :
  includes (getEndMarker id) (blockBody displayName rootPath body) = false ->
  noOrphanMarker id doc = true ->
  exists d1,
    Upsert doc id displayName rootPath body = inr d1
    /\ activeBlocks id d1 = Nat.max 1 (activeBlocks id doc)
    /\ noOrphanMarker id d1 = true.
Proof.
  intros Hbody Hdoc.
  set (mid := blockBody displayName rootPath body) in *.
  assert (Hmid : forall k, ~ occ (getEndMarker id) mid k)
    by (intros k; now apply includes_false).
  pose proof (startMarker_like id id_valid) as HS.
  pose proof (endMarker_like id id_valid) as HE.
  assert (Hresult : forall a c,
             (forall k, ~ occ (getStartMarker id) a k) ->
             (forall k, ~ occ (getEndMarker id) a k) ->
             noOrphanMarker id
               (a ++ (getStartMarker id ++ mid ++ getEndMarker id) ++ c) = true).
  { intros a c HaS HaE. unfold noOrphanMarker.
    destruct (block_positions id a mid c id_valid HaS HaE Hmid) as [-> ->].
    apply Nat.ltb_lt. pose proof (marker_length _ HS). lia. }
  unfold noOrphanMarker in Hdoc. unfold Upsert, generateIndexBlock. fold mid.
  destruct (indexOf (getStartMarker id) doc) as [i|] eqn:Es;
    destruct (indexOf (getEndMarker id) doc) as [j|] eqn:Ee;
    try discriminate.
  - apply Nat.ltb_lt in Hdoc.
    assert (HaS : forall k, ~ occ (getStartMarker id) (firstn i doc) k).
    { apply no_occ_firstn; [apply startMarker_nonempty|].
      intros k Hk. exact (indexOf_first _ _ _ _ Es Hk). }
    assert (HaE : forall k, ~ occ (getEndMarker id) (firstn i doc) k).
    { apply no_occ_firstn; [apply endMarker_nonempty|].
      intros k Hk. apply (indexOf_first _ _ _ _ Ee). lia. }
    eexists. split; [exact (updateContent_replace _ _ _ i j Es Ee Hdoc)|]. split.
    + rewrite (activeBlocks_block _ mid _ HaS Hmid).
      rewrite (activeBlocks_first doc i j Es Ee Hdoc). reflexivity.
    + now apply Hresult.
  - assert (HaS : forall k, ~ occ (getStartMarker id) (trimEnd doc ++ [nl; nl]) k)
      by (apply no_marker_in_trimmed; [assumption|now apply no_occ_of_index_none]).
    assert (HaE : forall k, ~ occ (getEndMarker id) (trimEnd doc ++ [nl; nl]) k)
      by (apply no_marker_in_trimmed; [assumption|now apply no_occ_of_index_none]).
    exists ((trimEnd doc ++ [nl; nl])
            ++ (getStartMarker id ++ mid ++ getEndMarker id) ++ [nl]).
    split; [|split].
    + rewrite updateContent_append by assumption. now rewrite <- !app_assoc.
    + rewrite (activeBlocks_block _ mid _ HaS Hmid).
      now rewrite (activeBlocks_none doc Es).
    + now apply Hresult.
Qed.

(** X2.  Any sequence of Upserts for the identifier, on a document without
    orphan marker that has at most one active block, succeeds and ends
    with at most one active block. *)
Theorem upsert_sequence_one_block (bodies : list (str * str * str)) (doc : str) :
  forallb (bodyWithoutEndMarker id) bodies = true ->
  noOrphanMarker id doc = true ->
  activeBlocks id doc <= 1 ->
  exists d,
    upsertAll doc id bodies = inr d
    /\ activeBlocks id d <= 1
    /\ noOrphanMarker id d = true.
Proof.
  revert doc. induction bodies as [|[[dn root] body] bodies IH];
    intros doc Hbodies Hdoc Hone.
  - exists doc. now repeat split.
  - cbn [forallb] in Hbodies. apply andb_true_iff in Hbodies as [Hb Hrest].
    unfold bodyWithoutEndMarker in Hb. apply negb_true_iff in Hb.
    destruct (upsert_keeps_one_block doc dn root body Hb Hdoc)
      as (d1 & Hup & Hcount & Horphan).
    cbn [upsertAll]. rewrite Hup. apply IH; try assumption. lia.
Qed.

End OneBlock.

(** ** Sorting *)

Section SortFacts.

Context {A : Type}.
Variable cmp : A -> A -> comparison.

Hypothesis cmp_total : forall a b, cmp a b = Gt -> cmp b a <> Gt.

Lemma insertBy_perm (x : A) (l : list A) : Permutation (insertBy cmp x l) (x :: l).
Proof.
  induction l as [|y l IH]; simpl; [reflexivity|].
  destruct (cmp x y); try reflexivity.
  rewrite IH. apply perm_swap.
Qed.

Lemma sortBy_perm (l : list A) : Permutation (sortBy cmp l) l.
Proof.
  induction l as [|x l IH]; simpl; [reflexivity|].
  rewrite insertBy_perm. now constructor.
Qed.

Lemma insertBy_hd (x y : A) (l : list A) :
  notAfter cmp y x -> HdRel (notAfter cmp) y l -> HdRel (notAfter cmp) y (insertBy cmp x l).
Proof.
  intros Hyx Hl. destruct l as [|z l]; simpl.
  - now constructor.
  - inversion Hl; subst. destruct (cmp x z); now constructor.
Qed.

Lemma insertBy_sorted (x : A) (l : list A) :
  Sorted (notAfter cmp) l -> Sorted (notAfter cmp) (insertBy cmp x l).
Proof.
  induction 1 as [|y l Hl IH Hy]; simpl.
  - repeat constructor.
  - destruct (cmp x y) eqn:E.
    + constructor; [now constructor|]. constructor. unfold notAfter. congruence.
    + constructor; [now constructor|]. constructor. unfold notAfter. congruence.
    + constructor; [assumption|]. apply insertBy_hd; [|assumption].
      now apply cmp_total.
Qed.

Lemma sortBy_sorted (l : list A) : Sorted (notAfter cmp) (sortBy cmp l).
Proof.
  induction l as [|x l IH]; simpl; [constructor|]. now apply insertBy_sorted.
Qed.

(** Sorting a sorted list changes nothing. *)
Lemma sortBy_of_sorted (l : list A) : Sorted (notAfter cmp) l -> sortBy cmp l = l.
Proof.
  induction 1 as [|y l Hl IH Hy]; simpl; [reflexivity|].
  rewrite IH. destruct Hy as [|z l Hyz]; simpl; [reflexivity|].
  unfold notAfter in Hyz. destruct (cmp y z); congruence.
Qed.

Lemma sortBy_idem (l : list A) : sortBy cmp (sortBy cmp l) = sortBy cmp l.
Proof. apply sortBy_of_sorted, sortBy_sorted. Qed.

End SortFacts.

Lemma codeUnitCompare_antisym (a b : str) :
  codeUnitCompare b a = CompOpp (codeUnitCompare a b).
Proof.
  revert b; induction a as [|x a IH]; intros [|y b]; simpl; try reflexivity.
  rewrite (Nat.compare_antisym (nat_of_ascii x) (nat_of_ascii y)).
  destruct (Nat.compare (nat_of_ascii x) (nat_of_ascii y)); simpl;
    [apply IH|reflexivity|reflexivity].
Qed.

Lemma codeUnitCompare_total (a b : str) :
  codeUnitCompare a b = Gt -> codeUnitCompare b a <> Gt.
Proof.
  intros H. rewrite codeUnitCompare_antisym, H. discriminate.
Qed.

(** ** The compressed index *)

Section IndexFacts.

Import Indexer.

Variable localeCompare : str -> str -> comparison.

(** The collation is a consistent comparator: of two strings one may stand
    before the other. *)
Hypothesis localeCompare_total :
  forall a b, localeCompare a b = Gt -> localeCompare b a <> Gt.

Lemma dirCompare_total (a b : str) :
  dirCompare localeCompare a b = Gt -> dirCompare localeCompare b a <> Gt.
Proof.
  destruct a as [|x a], b as [|y b]; simpl; try discriminate.
  apply localeCompare_total.
Qed.

Lemma insertBy_root (l : list str) :
  insertBy (dirCompare localeCompare) [] l = [] :: l.
Proof. destruct l; reflexivity. Qed.

Lemma sortBy_root_first (l : list str) :
  In [] l -> exists rest, sortBy (dirCompare localeCompare) l = [] :: rest.
Proof.
  induction l as [|x l IH]; simpl; [intros []|].
  intros [->|Hin].
  - eexists. apply insertBy_root.
  - destruct (IH Hin) as [rest ->].
    destruct x as [|c x].
    + eexists. apply insertBy_root.
    + simpl. eexists. reflexivity.
Qed.

Lemma sorted_without_root (l : list str) :
  Sorted (notAfter (dirCompare localeCompare)) l -> ~ In [] l ->
  Sorted (notAfter localeCompare) l.
Proof.
  induction 1 as [|a l Hl IH Ha]; intros Hroot; constructor.
  - apply IH. intros Hin. apply Hroot. now right.
  - destruct Ha as [|b l Hab]; constructor.
    destruct a as [|x a]; [exfalso; apply Hroot; now left|].
    destruct b as [|y b]; [exfalso; apply Hroot; right; now left|].
    exact Hab.
Qed.

Lemma lookup_in (g : IndexedDirectory) (dir : str) (files : list str) :
  NoDup (keys g) -> In (dir, files) g -> lookup dir g = Some files.
Proof.
  induction g as [|[k v] g IH]; simpl; [intros _ []|].
  intros Hnd [[= -> ->]|Hin].
  - now rewrite str_eqb_refl.
  - inversion Hnd as [|? ? Hk Hg]; subst.
    destruct (str_eqb k dir) eqn:E.
    + apply str_eqb_eq in E. subst k. exfalso. apply Hk.
      change dir with (fst (dir, files)). now apply in_map.
    + now apply IH.
Qed.

Lemma lookup_groupedAfter (g : IndexedDirectory) (dir : str) :
  lookup dir (groupedAfter g) = option_map sortFiles (lookup dir g).
Proof.
  induction g as [|[k v] g IH]; simpl; [reflexivity|].
  destruct (str_eqb k dir); [reflexivity|exact IH].
Qed.

Lemma keys_groupedAfter (g : IndexedDirectory) : keys (groupedAfter g) = keys g.
Proof.
  unfold keys, groupedAfter. rewrite map_map. now apply map_ext.
Qed.

Lemma sortFiles_idem (files : list str) :
  sortFiles (sortFiles files) = sortFiles files.
Proof. apply sortBy_idem, codeUnitCompare_total. Qed.

Lemma normalizeSeparators_forward (dir : str) :
  ~ In "\"%char (normalizeSeparators dir).
Proof.
  unfold normalizeSeparators. rewrite in_map_iff. intros [c [Hc _]].
  destruct (Ascii.eqb c "\"%char) eqn:E; [discriminate Hc|].
  subst c. rewrite Ascii.eqb_refl in E. discriminate E.
Qed.

(** A second run sees the file lists the first run sorted in place and
    returns the same text. *)
Lemma generateCompressedIndex_again (g : IndexedDirectory) (rootPath : str) :
  generateCompressedIndex localeCompare (groupedAfter g) rootPath
  = generateCompressedIndex localeCompare g rootPath.
Proof.
  unfold generateCompressedIndex, indexLines, sortedDirs.
  rewrite keys_groupedAfter. f_equal. apply map_ext. intros dir.
  rewrite lookup_groupedAfter. f_equal.
  destruct (lookup dir g); simpl; [apply sortFiles_idem|reflexivity].
Qed.

End IndexFacts.

(** ** The order of the directories *)

Section Collation.

Lemma lexCompare_antisym (a b : list nat) :
  lexCompare b a = CompOpp (lexCompare a b).
Proof.
  revert b; induction a as [|x a IH]; intros [|y b]; cbn [lexCompare]; try reflexivity.
  rewrite (Nat.compare_antisym x y).
  destruct (Nat.compare x y); cbn [CompOpp]; [apply IH|reflexivity|reflexivity].
Qed.

Lemma lexCompare_eq (a b : list nat) : lexCompare a b = Eq <-> a = b.
Proof.
  revert b; induction a as [|x a IH]; intros [|y b]; cbn [lexCompare];
    try (split; [discriminate|discriminate]); [split; reflexivity|].
  destruct (Nat.compare_spec x y) as [->|H|H].
  - rewrite IH. split; [now intros ->|now intros [= ->]].
  - split; [discriminate|]. intros [= -> _]. lia.
  - split; [discriminate|]. intros [= -> _]. lia.
Qed.

Lemma lexCompare_lt_trans (a b c : list nat) :
  lexCompare a b = Lt -> lexCompare b c = Lt -> lexCompare a c = Lt.
Proof.
  revert b c; induction a as [|x a IH]; intros [|y b] [|z c]; cbn [lexCompare];
    try discriminate; try reflexivity.
  destruct (Nat.compare_spec x y) as [->|Hxy|Hxy]; try discriminate.
  - destruct (Nat.compare_spec y z) as [->|Hyz|Hyz]; try discriminate.
    + apply IH.
    + reflexivity.
  - intros _. destruct (Nat.compare_spec y z) as [->|Hyz|Hyz]; try discriminate.
    + intros _. destruct (Nat.compare_spec x z); [lia|reflexivity|lia].
    + intros _. destruct (Nat.compare_spec x z); [lia|reflexivity|lia].
Qed.

(** Not after, for the lexicographic comparison, is transitive. *)
Lemma lexCompare_trans (a b c : list nat) :
  lexCompare a b <> Gt -> lexCompare b c <> Gt -> lexCompare a c <> Gt.
Proof.
  intros Hab Hbc.
  destruct (lexCompare a b) eqn:Eab; [|clear Hab|congruence].
  - apply lexCompare_eq in Eab. now subst b.
  - destruct (lexCompare b c) eqn:Ebc; [|clear Hbc|congruence].
    + apply lexCompare_eq in Ebc. subst c. rewrite Eab. discriminate.
    + rewrite (lexCompare_lt_trans _ _ _ Eab Ebc). discriminate.
Qed.

(** The collation is a consistent comparator. *)
Lemma rootCollation_antisym (a b : str) :
  rootCollation b a = CompOpp (rootCollation a b).
Proof.
  unfold rootCollation.
  rewrite (lexCompare_antisym (map primaryWeight a) (map primaryWeight b)).
  destruct (lexCompare (map primaryWeight a) (map primaryWeight b));
    cbn [CompOpp]; [apply lexCompare_antisym|reflexivity|reflexivity].
Qed.

Lemma rootCollation_trans (a b c : str) :
  rootCollation a b <> Gt -> rootCollation b c <> Gt -> rootCollation a c <> Gt.
Proof.
  unfold rootCollation. intros Hab Hbc.
  destruct (lexCompare (map primaryWeight a) (map primaryWeight b)) eqn:Eab;
    [|clear Hab|congruence].
  - apply lexCompare_eq in Eab. rewrite Eab.
    destruct (lexCompare (map primaryWeight b) (map primaryWeight c)) eqn:Ebc;
      [|discriminate|congruence].
    exact (lexCompare_trans _ _ _ Hab Hbc).
  - destruct (lexCompare (map primaryWeight b) (map primaryWeight c)) eqn:Ebc;
      [|clear Hbc|congruence].
    + apply lexCompare_eq in Ebc. rewrite <- Ebc, Eab. discriminate.
    + rewrite (lexCompare_lt_trans _ _ _ Eab Ebc). discriminate.
Qed.

End Collation.

Section StableSort.

Context {A : Type}.
Variable cmp : A -> A -> comparison.
Variable P : A -> bool.

(** Of two elements of the class [P] neither has to stand behind the
    other. *)
Hypothesis class_alike : forall x y, P x = true -> P y = true -> cmp x y <> Gt.

Lemma insertBy_filter (x : A) (l : list A) :
  filter P (insertBy cmp x l) = filter P (x :: l).
Proof.
  induction l as [|y l IH]; [reflexivity|]. cbn [insertBy].
  destruct (cmp x y) eqn:E; try reflexivity.
  cbn [filter] in *. rewrite IH.
  destruct (P x) eqn:Hx, (P y) eqn:Hy; try reflexivity.
  exfalso. exact (class_alike x y Hx Hy E).
Qed.

(** The sort is stable: the elements of a class keep their order. *)
Lemma sortBy_filter (l : list A) : filter P (sortBy cmp l) = filter P l.
Proof.
  induction l as [|x l IH]; [reflexivity|].
  cbn [sortBy fold_right]. fold (sortBy cmp l).
  rewrite insertBy_filter. cbn [filter]. now rewrite IH.
Qed.

End StableSort.

Section IndexLayout.

Import Indexer.

Variable localeCompare : str -> str -> comparison.

(** The collation is a consistent comparator: the sign turns with the
    arguments, and standing not after is transitive. *)
Hypothesis localeCompare_antisym :
  forall a b, localeCompare b a = CompOpp (localeCompare a b).
Hypothesis localeCompare_trans :
  forall a b c,
    localeCompare a b <> Gt -> localeCompare b c <> Gt -> localeCompare a c <> Gt.

Lemma localeCompare_consistent (a b : str) :
  localeCompare a b = Gt -> localeCompare b a <> Gt.
Proof. intros H. rewrite localeCompare_antisym, H. discriminate. Qed.

Lemma rankedAlike_apart (key x y : str) :
  rankedAlike (dirCompare localeCompare) key x = true ->
  rankedAlike (dirCompare localeCompare) key y = true ->
  dirCompare localeCompare x y <> Gt.
Proof.
  unfold rankedAlike.
  destruct key as [|k key]; [discriminate|].
  destruct x as [|cx x]; [discriminate|]. destruct y as [|cy y]; [discriminate|].
  cbn [dirCompare]. intros Hx Hy.
  apply (localeCompare_trans _ (k :: key)).
  - rewrite localeCompare_antisym.
    destruct (localeCompare (k :: key) (cx :: x)); discriminate.
  - destruct (localeCompare (k :: key) (cy :: y)); discriminate.
Qed.

(** C7, as the code has it.  The compressed index is a function of the
    mapping and the root path, and a second run over the mapping the first
    run left behind returns the same text.  Its lines follow the directory
    keys, each key once: the root key first when there is one, the other
    keys in the order of the collation, every key not after the keys behind
    it, and keys the comparator ranks alike in the order of the mapping; a
    line is the display directory (the root's basename, or the basename, a
    slash and the key with forward slashes), then the file names sorted by
    code units and joined by commas, in braces.  The root files z.md, a.md,
    m.md give [<root>:{a.md,m.md,z.md}]. *)
Theorem compressed_index_layout (g : IndexedDirectory) (rootPath : str) :
  NoDup (keys g) ->
  let rootName := Path.basename rootPath in
  let lineOf (dir : str) (files : list str) :=
    (match dir with
     | [] => rootName
     | _ => rootName ++ L "/" ++ normalizeSeparators dir
     end) ++ L ":{" ++ join (L ",") files ++ L "}" in
  (exists dirs,
      Permutation dirs (keys g)
      /\ (In [] (keys g) ->
          exists rest, dirs = [] :: rest /\ ~ In [] rest
                       /\ StronglySorted (notAfter localeCompare) rest)
      /\ (~ In [] (keys g) -> StronglySorted (notAfter localeCompare) dirs)
      /\ (forall key,
            filter (rankedAlike (dirCompare localeCompare) key) dirs
            = filter (rankedAlike (dirCompare localeCompare) key) (keys g))
      /\ generateCompressedIndex localeCompare g rootPath
         = join [nl]
             (map (fun dir =>
                     lineOf dir
                       (sortFiles
                          (match lookup dir g with Some fs => fs | None => [] end)))
                dirs))
  /\ (forall dir files, In (dir, files) g ->
        lookup dir g = Some files
        /\ Sorted (notAfter codeUnitCompare) (sortFiles files)
        /\ Permutation (sortFiles files) files
        /\ ~ In "\"%char (normalizeSeparators dir))
  /\ generateCompressedIndex localeCompare (groupedAfter g) rootPath
     = generateCompressedIndex localeCompare g rootPath
  /\ generateCompressedIndex localeCompare
       [([], [L "z.md"; L "a.md"; L "m.md"])] rootPath
     = rootName ++ L ":{a.md,m.md,z.md}".
Proof.
  intros Hnd rootName lineOf.
  pose proof (sortBy_sorted _ (dirCompare_total _ localeCompare_consistent) (keys g))
    as Hsorted.
  pose proof (sortBy_perm (dirCompare localeCompare) (keys g)) as Hperm.
  assert (Hstrong : forall l, Sorted (notAfter localeCompare) l ->
                              StronglySorted (notAfter localeCompare) l).
  { intros l. apply Sorted_StronglySorted.
    intros a b c. unfold notAfter. apply localeCompare_trans. }
  split; [|split; [|split]].
  - exists (sortedDirs localeCompare g). unfold sortedDirs.
    split; [exact Hperm|]. split; [|split; [|split]].
    + intros Hroot. destruct (sortBy_root_first localeCompare _ Hroot) as [rest Hrest].
      exists rest. split; [exact Hrest|].
      rewrite Hrest in Hsorted, Hperm.
      assert (Hnd' : NoDup ([] :: rest))
        by (apply (Permutation_NoDup (Permutation_sym Hperm) Hnd)).
      inversion Hnd' as [|? ? Hnot Hrestnd]; subst.
      split; [exact Hnot|].
      apply Hstrong, sorted_without_root; [|exact Hnot].
      now inversion Hsorted.
    + intros Hroot. apply Hstrong, sorted_without_root; [exact Hsorted|].
      intros Hin. apply Hroot. now apply (Permutation_in _ Hperm).
    + intros key. apply sortBy_filter. apply rankedAlike_apart.
    + reflexivity.
  - intros dir files Hin. split; [now apply lookup_in|].
    split; [apply sortBy_sorted, codeUnitCompare_total|].
    split; [apply sortBy_perm|apply normalizeSeparators_forward].
  - apply generateCompressedIndex_again.
  - reflexivity.
Qed.

End IndexLayout.

(** The layout theorem with the root collation, on a mapping with the root
    key and three directories whose order by code units would be another:
    [Zeta], [alpha], [beta]. *)
Lemma compressed_index_layout_witness :
  let g := [ (L "beta", [L "b.md"]); ([], [L "readme.md"; L "Intro.md"]);
             (L "Zeta", [L "z.md"]); (L "alpha", [L "guide.md"; L "api.md"]) ] in
  lettersAndDigits (Indexer.keys g) = true
  /\ Indexer.generateCompressedIndex rootCollation g (L "/path/to/my-docs")
     = L "my-docs:{Intro.md,readme.md}" ++ [nl]
       ++ L "my-docs/alpha:{api.md,guide.md}" ++ [nl]
       ++ L "my-docs/beta:{b.md}" ++ [nl]
       ++ L "my-docs/Zeta:{z.md}"
  /\ exists dirs,
       Permutation dirs (Indexer.keys g)
       /\ (exists rest, dirs = [] :: rest
                        /\ StronglySorted (notAfter rootCollation) rest)
       /\ Indexer.generateCompressedIndex rootCollation g (L "/path/to/my-docs")
          = join [nl]
              (map (fun dir =>
                      Indexer.indexLine (L "my-docs") dir
                        (Indexer.sortFiles
                           (match Indexer.lookup dir g with
                            | Some fs => fs
                            | None => []
                            end)))
                 dirs).
Proof.
  intros g. split; [reflexivity|]. split; [reflexivity|].
  assert (Hnd : NoDup (Indexer.keys g))
    by (repeat constructor; simpl; intuition discriminate).
  destruct (compressed_index_layout rootCollation rootCollation_antisym
              rootCollation_trans g (L "/path/to/my-docs") Hnd)
    as [(dirs & Hperm & Hroot & _ & _ & Hout) _].
  exists dirs. split; [exact Hperm|].
  split; [|exact Hout].
  destruct Hroot as (rest & Hdirs & _ & Hsorted); [right; now left|].
  now exists rest.
Defined.

(** C7 fails as it is stated: the directories are not in the
    lexicographic order of the file names.  Between [Zeta] and [alpha] the
    collation puts [alpha] first, where the code units put [Zeta] first;
    in the line of [alpha] the file names follow the code units, [Zoo.md]
    before [intro.md], where the collation would put [intro] first.
    Whichever of the two orders is meant, one of the two sorts breaks
    it. *)
Lemma compressed_index_not_lexicographic :
  let g := [ (L "Zeta", [L "readme.md"]);
             (L "alpha", [L "intro.md"; L "Zoo.md"]) ] in
  lettersAndDigits (Indexer.keys g) = true
  /\ Indexer.generateCompressedIndex rootCollation g (L "/path/to/my-docs")
     = L "my-docs/alpha:{Zoo.md,intro.md}" ++ [nl] ++ L "my-docs/Zeta:{readme.md}"
  /\ Indexer.sortedDirs rootCollation g = [L "alpha"; L "Zeta"]
  /\ codeUnitCompare (L "alpha") (L "Zeta") = Gt
  /\ ~ Sorted (notAfter codeUnitCompare) (Indexer.sortedDirs rootCollation g)
  /\ Indexer.sortFiles [L "intro.md"; L "Zoo.md"] = [L "Zoo.md"; L "intro.md"]
  /\ rootCollation (L "Zoo") (L "intro") = Gt.
Proof.
  intros g. repeat (split; [reflexivity|]). split; [|split; reflexivity].
  intros H. inversion H as [|? ? _ Hhd]; subst.
  inversion Hhd as [|? ? Hab]; subst. now apply Hab.
Qed.

(** ** The URL resolver *)

Section UrlFacts.

Import Downloader.

Lemma takeWhile_stop (p : ascii -> bool) (a r : str) (c : ascii) :
  forallb p a = true -> p c = false -> takeWhile p (a ++ c :: r) = a.
Proof.
  intros Ha Hc. induction a as [|x a IH]; simpl in *.
  - now rewrite Hc.
  - apply andb_true_iff in Ha as [Hx Ha]. rewrite Hx. f_equal. now apply IH.
Qed.




Lemma segment_inv (n : str) :
  segment n = true -> n <> [] /\ forallb notSlash n = true.
Proof. destruct n; [discriminate|]. intros H. now split. Qed.

Lemma endsWith_app (p w : str) : endsWith p (w ++ p) = true.
Proof. unfold endsWith. rewrite rev_app_distr. apply startsWith_app. Qed.





Lemma forallb_last (p : ascii -> bool) (z : str) (d : ascii) :
  z <> [] -> forallb p z = true -> p (last z d) = true.
Proof.
  intros Hz Hall. rewrite forallb_forall in Hall. apply Hall.
  rewrite (app_removelast_last d Hz) at 2. apply in_or_app. right. now left.
Qed.




End UrlFacts.

Section UrlClaims.

Import Downloader.





End UrlClaims.

(** ** The batch download *)

Section BatchFacts.

Import Downloader.

Variable w : World.
Variable onProgress : option Progress.
Variables docsPath effectivePath : str.
Variable total : nat.

Local Abbreviation ok := (ioSucceeds w docsPath effectivePath).
Local Abbreviation rel := (relativePathOf effectivePath).

Lemma tryDownload_failed (file : GitHubTreeItem) (localPath : str) (st : LoopState) :
  sanitizePath (cwd w) docsPath (rel file) = Some localPath ->
  ok file = false ->
  tryDownload w onProgress total file (rel file) localPath st
  = pushFailed (rel file) st.
Proof.
  intros Hs Hok. unfold ok, ioSucceeds in Hok. fold rel in Hok. rewrite Hs in Hok.
  unfold tryDownload.
  destruct (mkdirOk w (Path.dirname localPath)); [|reflexivity].
  destruct (downloadFile w (path file)); [|reflexivity].
  destruct (writeOk w localPath); [discriminate|reflexivity].
Qed.

Lemma tryDownload_succeeded (file : GitHubTreeItem) (localPath : str) (st : LoopState) :
  sanitizePath (cwd w) docsPath (rel file) = Some localPath ->
  ok file = true ->
  let st' := tryDownload w onProgress total file (rel file) localPath st in
  downloadedCount st' = S (downloadedCount st)
  /\ written st' = written st ++ [writtenFor w docsPath effectivePath file]
  /\ progressCalls st'
     = progressCalls st
       ++ match onProgress with
          | Some _ => [(S (downloadedCount st), total, rel file)]
          | None => []
          end
  /\ (alwaysReturns onProgress -> failedFiles st' = failedFiles st).
Proof.
  intros Hs Hok. unfold ok, ioSucceeds in Hok. fold rel in Hok. rewrite Hs in Hok.
  unfold tryDownload, writtenFor. fold rel. rewrite Hs.
  destruct (mkdirOk w (Path.dirname localPath)); [|discriminate].
  destruct (downloadFile w (path file)) as [content|]; [|discriminate].
  destruct (writeOk w localPath); [|discriminate].
  destruct onProgress as [callback|] eqn:Ecb; simpl.
  - destruct (callback (S (downloadedCount st)) total (rel file)) eqn:Ec; simpl.
    + repeat split; reflexivity.
    + repeat split; try reflexivity.
      intros Hret. rewrite (Hret callback eq_refl) in Ec. discriminate.
  - repeat split; try reflexivity. now rewrite app_nil_r.
Qed.

(** The loop over files that all pass the path check. *)
Lemma downloadLoop_safe (files : list GitHubTreeItem) (st : LoopState) :
  forallb (safeFile w docsPath effectivePath) files = true ->
  exists st',
    downloadLoop w onProgress docsPath effectivePath total files st = inr st'
    /\ downloadedCount st' = downloadedCount st + length (filter ok files)
    /\ written st'
       = written st ++ map (writtenFor w docsPath effectivePath) (filter ok files)
    /\ progressCalls st'
       = progressCalls st
         ++ match onProgress with
            | Some _ =>
                numberFrom (S (downloadedCount st)) total effectivePath
                  (filter ok files)
            | None => []
            end
    /\ (alwaysReturns onProgress ->
        failedFiles st'
        = failedFiles st ++ map rel (filter (fun f => negb (ok f)) files)).
Proof.
  revert st. induction files as [|file files IH]; intros st Hsafe.
  - exists st. cbn [downloadLoop filter map length numberFrom].
    rewrite !app_nil_r, Nat.add_0_r.
    split; [reflexivity|]. split; [reflexivity|]. split; [reflexivity|].
    split; [destruct onProgress; now rewrite app_nil_r|reflexivity].
  - simpl in Hsafe. apply andb_true_iff in Hsafe as [Hfile Hrest].
    unfold safeFile in Hfile. cbn [downloadLoop]. fold rel in Hfile |- *.
    destruct (sanitizePath (cwd w) docsPath (rel file)) as [localPath|] eqn:Es;
      [|discriminate].
    destruct (IH (tryDownload w onProgress total file (rel file) localPath st) Hrest)
      as (st' & Hloop & Hcount & Hwritten & Hcalls & Hfailed).
    exists st'. split; [exact Hloop|].
    cbn [filter]. destruct (ok file) eqn:Eok; cbn [negb].
    + destruct (tryDownload_succeeded file localPath st Es Eok)
        as (Hc & Hw & Hp & Hf).
      rewrite Hc in Hcount, Hcalls. rewrite Hw in Hwritten. rewrite Hp in Hcalls.
      repeat split.
      * simpl length. lia.
      * rewrite Hwritten, <- app_assoc. reflexivity.
      * rewrite Hcalls, <- app_assoc. now destruct onProgress.
      * intros Hret. rewrite (Hfailed Hret), (Hf Hret). reflexivity.
    + rewrite (tryDownload_failed file localPath st Es Eok) in Hcount, Hwritten,
        Hcalls, Hfailed.
      simpl in Hcount, Hwritten, Hcalls, Hfailed.
      repeat split; try assumption.
      intros Hret. rewrite (Hfailed Hret), <- app_assoc. reflexivity.
Qed.

(** A file the path check rejects ends the loop: the error is thrown out
    of it and the file is not put on the list of failed files. *)
Lemma downloadLoop_traversal (before after : list GitHubTreeItem)
  (file : GitHubTreeItem) (st : LoopState) :
  forallb (safeFile w docsPath effectivePath) before = true ->
  sanitizePath (cwd w) docsPath (rel file) = None ->
  exists st',
    downloadLoop w onProgress docsPath effectivePath total before st = inr st'
    /\ downloadLoop w onProgress docsPath effectivePath total
         (before ++ file :: after) st
       = inl (PathTraversal (rel file), st').
Proof.
  revert st. induction before as [|f before IH]; intros st Hsafe Hfile.
  - exists st. split; [reflexivity|]. cbn [app downloadLoop]. fold rel.
    now rewrite Hfile.
  - simpl in Hsafe. apply andb_true_iff in Hsafe as [Hf Hrest].
    unfold safeFile in Hf. cbn [app downloadLoop]. fold rel in Hf |- *.
    destruct (sanitizePath (cwd w) docsPath (rel f)) as [localPath|];
      [|discriminate].
    now apply IH.
Qed.

End BatchFacts.

Section CallbackFacts.

Import Downloader.

Variable w : World.
Variable onProgress : option Progress.
Variables docsPath effectivePath : str.
Variable total : nat.

Lemma tryDownload_callback_irrelevant (file : GitHubTreeItem)
  (relativePath localPath : str) (st st' : LoopState) :
  sameEffects st st' ->
  sameEffects (tryDownload w onProgress total file relativePath localPath st)
              (tryDownload w None total file relativePath localPath st').
Proof.
  intros [Hc Hw]. unfold tryDownload.
  destruct (mkdirOk w (Path.dirname localPath)); simpl; [|now split].
  destruct (downloadFile w (path file)); simpl; [|now split].
  destruct (writeOk w localPath); simpl; [|now split].
  destruct onProgress as [callback|]; simpl.
  - destruct (callback (S (downloadedCount st)) total relativePath);
      split; simpl; congruence.
  - split; simpl; congruence.
Qed.

Lemma downloadLoop_callback_irrelevant (files : list GitHubTreeItem)
  (st st' : LoopState) :
  sameEffects st st' ->
  match downloadLoop w onProgress docsPath effectivePath total files st,
        downloadLoop w None docsPath effectivePath total files st' with
  | inl (e1, s1), inl (e2, s2) => e1 = e2 /\ sameEffects s1 s2
  | inr s1, inr s2 => sameEffects s1 s2
  | _, _ => False
  end.
Proof.
  revert st st'. induction files as [|file files IH]; intros st st' Hsame.
  - exact Hsame.
  - cbn [downloadLoop].
    destruct (sanitizePath (cwd w) docsPath (relativePathOf effectivePath file))
      as [localPath|].
    + apply IH. now apply tryDownload_callback_irrelevant.
    + now split.
Qed.

Lemma tryDownload_returning_callback (file : GitHubTreeItem)
  (relativePath localPath : str) (st st' : LoopState) :
  alwaysReturns onProgress ->
  sameOutcome st st' ->
  sameOutcome (tryDownload w onProgress total file relativePath localPath st)
              (tryDownload w None total file relativePath localPath st').
Proof.
  intros Hret [[Hc Hw] Hf]. unfold tryDownload, sameOutcome, sameEffects.
  destruct (mkdirOk w (Path.dirname localPath)); simpl; [|now rewrite Hf].
  destruct (downloadFile w (path file)); simpl; [|now rewrite Hf].
  destruct (writeOk w localPath); simpl; [|now rewrite Hf].
  destruct onProgress as [callback|]; simpl.
  - rewrite (Hret callback eq_refl). simpl. now rewrite Hc, Hw, Hf.
  - now rewrite Hc, Hw, Hf.
Qed.

Lemma downloadLoop_returning_callback (files : list GitHubTreeItem)
  (st st' : LoopState) :
  alwaysReturns onProgress ->
  sameOutcome st st' ->
  match downloadLoop w onProgress docsPath effectivePath total files st,
        downloadLoop w None docsPath effectivePath total files st' with
  | inl (e1, s1), inl (e2, s2) => e1 = e2 /\ sameOutcome s1 s2
  | inr s1, inr s2 => sameOutcome s1 s2
  | _, _ => False
  end.
Proof.
  intros Hret. revert st st'.
  induction files as [|file files IH]; intros st st' Hsame.
  - exact Hsame.
  - cbn [downloadLoop].
    destruct (sanitizePath (cwd w) docsPath (relativePathOf effectivePath file))
      as [localPath|].
    + apply IH. now apply tryDownload_returning_callback.
    + now split.
Qed.

End CallbackFacts.

Section BatchClaims.

Import Downloader.

(** C1, as the code has it.  In a batch whose paths all pass the path
    check, and with a callback that returns, a file whose directory
    creation, fetch or write fails is put on the list of failed files and
    the loop goes on; the batch fails with DownloadFailed exactly when no
    file succeeded; otherwise it returns the number of selected files and
    the number of files that succeeded.  The list of failed files is not
    part of the returned value: it goes into the warning, which gives
    their number and names the first five. *)
Theorem batch_outcome (w : World) (onProgress : option Progress)
  (docsPath sourceName targetPath : str) (detected : option str)
  (files : list GitHubTreeItem) :
  let effectivePath := dropEndSlash (dropStartSlash targetPath) in
  let ok := ioSucceeds w docsPath effectivePath in
  let failed :=
    map (relativePathOf effectivePath) (filter (fun f => negb (ok f)) files) in
  let obs :=
    downloadBatch w onProgress docsPath sourceName targetPath detected files in
  forallb (safeFile w docsPath effectivePath) files = true ->
  alwaysReturns onProgress ->
  (exists st,
      downloadLoop w onProgress docsPath effectivePath (length files) files
        initialState = inr st
      /\ failedFiles st = failed
      /\ downloadedCount st = length (filter ok files))
  /\ (returned obs = inl DownloadFailed <-> length (filter ok files) = 0)
  /\ (length (filter ok files) <> 0 ->
      returned obs
      = inr {| totalFiles := length files;
               downloadedFiles := length (filter ok files);
               docsPathOf := docsPath;
               sourceNameOf := sourceName;
               detectedPath := detected |}
      /\ warning obs = failureWarning failed)
  /\ filesWritten obs
     = map (writtenFor w docsPath effectivePath) (filter ok files).
Proof.
  intros effectivePath ok failed obs Hsafe Hret.
  destruct (downloadLoop_safe w onProgress docsPath effectivePath
              (length files) files initialState Hsafe)
    as (st & Hloop & Hcount & Hwritten & _ & Hfailed).
  specialize (Hfailed Hret). simpl in Hcount, Hwritten, Hfailed.
  fold ok in Hcount, Hwritten, Hfailed. fold failed in Hfailed.
  subst obs. unfold downloadBatch. fold effectivePath. rewrite Hloop.
  split; [exists st; now repeat split|].
  destruct (Nat.eqb_spec (downloadedCount st) 0) as [Hz|Hnz]; simpl.
  - split; [split; [intros _; lia|reflexivity]|].
    split; [intros Hn; lia|]. exact Hwritten.
  - split; [split; [discriminate|intros Hn; lia]|].
    split; [|exact Hwritten].
    intros _. rewrite Hcount, Hfailed. now split.
Qed.

(** The spec's example: one failing file among three that succeed. *)
Lemma batch_outcome_witness :
  let w := {| cwd := L "/w";
              mkdirOk := fun _ => true;
              downloadFile := fun p => if str_eqb p (L "docs/bad.md")
                                       then None else Some (L "# text");
              writeOk := fun _ => true |} in
  let files := map (fun p => {| path := L p; type := blob |})
                 [ "docs/a.md"; "docs/bad.md"; "docs/b.md"; "docs/c.md" ]%string in
  let obs := downloadBatch w None (L "/w/.docs/r-docs") (L "r-docs") (L "docs")
               (Some (L "docs")) files in
  returned obs
  = inr {| totalFiles := 4; downloadedFiles := 3;
           docsPathOf := L "/w/.docs/r-docs"; sourceNameOf := L "r-docs";
           detectedPath := Some (L "docs") |}
  /\ warning obs
     = Some {| failedCount := 1; listed := [L "bad.md"]; andMore := None |}.
Proof.
  intros w files obs.
  assert (Hret : alwaysReturns None) by (intros cb H; discriminate H).
  destruct (batch_outcome w None (L "/w/.docs/r-docs") (L "r-docs") (L "docs")
              (Some (L "docs")) files eq_refl Hret) as (_ & _ & H & _).
  exact (H ltac:(discriminate)).
Defined.

(** C1 fails as it is stated: what the batch returns and prints does not
    give the list of failed files.  Two batches that differ in their sixth
    failed file return the same value and print the same warning. *)
Lemma batch_result_hides_failed_files :
  let w := {| cwd := L "/w";
              mkdirOk := fun _ => true;
              downloadFile := fun p => if str_eqb p (L "ok.md")
                                       then Some (L "# text") else None;
              writeOk := fun _ => true |} in
  let item := fun p => {| path := L p; type := blob |} in
  let common := map item [ "ok.md"; "f1.md"; "f2.md"; "f3.md"; "f4.md"; "f5.md" ]%string in
  let run := fun files =>
    downloadBatch w None (L "/w/.docs/r-docs") (L "r-docs") [] None files in
  let loop := fun files =>
    downloadLoop w None (L "/w/.docs/r-docs") [] (length files) files initialState in
  run (common ++ [item "f6.md"%string]) = run (common ++ [item "g6.md"%string])
  /\ (exists r, returned (run (common ++ [item "f6.md"%string])) = inr r)
  /\ exists st1 st2,
       loop (common ++ [item "f6.md"%string]) = inr st1
       /\ loop (common ++ [item "g6.md"%string]) = inr st2
       /\ failedFiles st1 <> failedFiles st2.
Proof.
  intros w item common run loop. split; [vm_compute; reflexivity|].
  split; [eexists; vm_compute; reflexivity|].
  eexists. eexists. split; [vm_compute; reflexivity|].
  split; [vm_compute; reflexivity|]. vm_compute. discriminate.
Qed.

(** X23.  A file the path check rejects makes the batch fail with
    PathTraversal; nothing is printed, and what was written before it are
    files that passed the check: they stay written. *)
Lemma batch_traversal_fatal (w : World) (onProgress : option Progress)
  (docsPath sourceName targetPath : str) (detected : option str)
  (before after : list GitHubTreeItem) (file : GitHubTreeItem) :
  let effectivePath := dropEndSlash (dropStartSlash targetPath) in
  let obs := downloadBatch w onProgress docsPath sourceName targetPath detected
               (before ++ file :: after) in
  forallb (safeFile w docsPath effectivePath) before = true ->
  sanitizePath (cwd w) docsPath (relativePathOf effectivePath file) = None ->
  returned obs = inl (PathTraversal (relativePathOf effectivePath file))
  /\ warning obs = None
  /\ filesWritten obs
     = map (writtenFor w docsPath effectivePath)
         (filter (ioSucceeds w docsPath effectivePath) before).
Proof.
  intros effectivePath obs Hsafe Hfile.
  destruct (downloadLoop_traversal w onProgress docsPath effectivePath
              (length (before ++ file :: after)) before after file
              initialState Hsafe Hfile) as (st & Hbefore & Hloop).
  destruct (downloadLoop_safe w onProgress docsPath effectivePath
              (length (before ++ file :: after)) before initialState Hsafe)
    as (st' & Hloop' & _ & Hwritten & _).
  assert (st' = st) by congruence. subst st'.
  subst obs. unfold downloadBatch. fold effectivePath. rewrite Hloop.
  now repeat split.
Qed.

(** The spec's example: a tree entry [../secret.md] under a docs directory
    is rejected. *)
Lemma sanitizePath_rejects_parent :
  sanitizePath (L "/w") (L "/w/.docs/repo-docs") (L "../secret.md") = None
  /\ sanitizePath (L "/w") (L "/w/.docs/repo-docs") (L "a/../../../etc/x.md") = None
  /\ sanitizePath (L "/w") (L "/w/.docs/repo-docs") (L "guide/../intro.md")
     = Some (L "/w/.docs/repo-docs/intro.md").
Proof. by_evaluation. Qed.

(** C3 at a tree entry whose path leaves the docs directory for a sibling
    whose name starts with the directory's name: [sanitizePath] lets it
    through, [downloadDocs] succeeds, and the file is written outside the
    docs directory. *)
Theorem traversal_into_sibling_directory :
  let entry := {| path := L "../repo-docs-evil/x.md"; type := blob |} in
  let env :=
    {| workingDirectory := L "/w";
       getTree := fun url =>
         if str_eqb url (apiUrl (L "o") (L "repo") (L "main"))
         then Response [ {| path := L "README.md"; type := blob |}; entry ] false
         else Failure {| code := None; status := Some 404; resetDate := None;
                         message := L "Request failed with status code 404" |};
       makeDirectory := fun _ => true;
       getRaw := fun _ _ _ _ => Some (L "# text");
       writeFile := fun _ => true |} in
  let options := {| output := L "AGENTS.md"; docsDir := L ".docs"; optPath := [];
                    optSourceName := None; optBranch := L "main" |} in
  let docsPath := L "/w/.docs/repo-docs" in
  let obs := downloadDocs env (L "https://github.com/o/repo") options None in
  sanitizePath (L "/w") docsPath (path entry)
  = Some (L "/w/.docs/repo-docs-evil/x.md")
  /\ insideRoot docsPath (L "/w/.docs/repo-docs-evil/x.md") = false
  /\ returned obs
     = inr {| totalFiles := 2; downloadedFiles := 2; docsPathOf := docsPath;
              sourceNameOf := L "repo-docs"; detectedPath := None |}
  /\ warning obs = None
  /\ filesWritten obs
     = [ (L "/w/.docs/repo-docs/README.md", L "# text");
         (L "/w/.docs/repo-docs-evil/x.md", L "# text") ].
Proof. by_evaluation. Qed.

(** C9, as the code has it.  What the batch returns and the files it
    writes do not depend on the callback.  In a batch whose paths all pass
    the path check the callback is called once for each file that was
    fetched and written, in order, with the number of files downloaded so
    far, the number of selected files and the relative path; it is not
    called for a file that failed.  With a callback that returns, the
    warning does not depend on it either. *)
Theorem progress_callback_calls (w : World) (callback : Progress)
  (docsPath sourceName targetPath : str) (detected : option str)
  (files : list GitHubTreeItem) :
  let effectivePath := dropEndSlash (dropStartSlash targetPath) in
  let with_cb :=
    downloadBatch w (Some callback) docsPath sourceName targetPath detected files in
  let without :=
    downloadBatch w None docsPath sourceName targetPath detected files in
  returned with_cb = returned without
  /\ filesWritten with_cb = filesWritten without
  /\ callbackCalls without = []
  /\ (forallb (safeFile w docsPath effectivePath) files = true ->
      callbackCalls with_cb
      = numberFrom 1 (length files) effectivePath
          (filter (ioSucceeds w docsPath effectivePath) files))
  /\ (alwaysReturns (Some callback) -> warning with_cb = warning without).
Proof.
  intros effectivePath with_cb without.
  assert (Hinit : sameOutcome initialState initialState) by now repeat split.
  pose proof (downloadLoop_callback_irrelevant w (Some callback) docsPath
                effectivePath (length files) files
                initialState initialState (proj1 Hinit)) as Hrel.
  pose proof (downloadLoop_returning_callback w (Some callback) docsPath
                effectivePath (length files) files
                initialState initialState) as Hrel'.
  assert (Hcalls : forall st,
             downloadLoop w None docsPath effectivePath (length files) files
               initialState = inr st \/
             (exists e, downloadLoop w None docsPath effectivePath
                          (length files) files initialState = inl (e, st)) ->
             progressCalls st = []).
  { intros st Hst.
    assert (Hgen : forall l s0,
               progressCalls s0 = [] ->
               match downloadLoop w None docsPath effectivePath (length files)
                       l s0 with
               | inl (_, s1) => progressCalls s1 = []
               | inr s1 => progressCalls s1 = []
               end).
    { induction l as [|f l IHl]; intros s0 Hs0; cbn [downloadLoop];
        [assumption|].
      destruct (sanitizePath (cwd w) docsPath (relativePathOf effectivePath f))
        as [lp|]; [|assumption].
      apply IHl. unfold tryDownload.
      destruct (mkdirOk w (Path.dirname lp)); [|assumption].
      destruct (downloadFile w (path f)); [|assumption].
      destruct (writeOk w lp); assumption. }
    specialize (Hgen files initialState eq_refl).
    destruct Hst as [Hst|[e Hst]]; now rewrite Hst in Hgen. }
  subst with_cb without. unfold downloadBatch. fold effectivePath.
  destruct (downloadLoop w (Some callback) docsPath effectivePath
              (length files) files initialState) as [[e1 s1]|s1] eqn:E1;
    destruct (downloadLoop w None docsPath effectivePath
                (length files) files initialState) as [[e2 s2]|s2] eqn:E2;
    try contradiction.
  - destruct Hrel as [-> [Hc Hw]]. cbn.
    split; [reflexivity|]. split; [exact Hw|].
    split; [apply Hcalls; right; now exists e2|].
    split; [|reflexivity].
    intros Hsafe.
    destruct (downloadLoop_safe w (Some callback) docsPath effectivePath
                (length files) files initialState Hsafe) as (st & Hst & _).
    congruence.
  - destruct Hrel as [Hc Hw]. rewrite Hc.
    assert (Hcalls1 : forallb (safeFile w docsPath effectivePath) files = true ->
                      progressCalls s1
                      = numberFrom 1 (length files) effectivePath
                          (filter (ioSucceeds w docsPath effectivePath) files)).
    { intros Hsafe.
      destruct (downloadLoop_safe w (Some callback) docsPath effectivePath
                  (length files) files initialState Hsafe)
        as (st & Hst & _ & _ & Hp & _).
      rewrite E1 in Hst. injection Hst as <-. exact Hp. }
    destruct (downloadedCount s2 =? 0); cbn.
    + split; [reflexivity|]. split; [exact Hw|].
      split; [apply Hcalls; now left|]. split; [exact Hcalls1|reflexivity].
    + split; [reflexivity|]. split; [exact Hw|].
      split; [apply Hcalls; now left|]. split; [exact Hcalls1|].
      intros Hret. now rewrite (proj2 (Hrel' Hret Hinit)).
Qed.

(** The theorem at a batch of two files, the second of which fails. *)
Lemma progress_callback_calls_witness :
  let w := {| cwd := L "/w";
              mkdirOk := fun _ => true;
              downloadFile := fun p => if str_eqb p (L "bad.md")
                                       then None else Some (L "# text");
              writeOk := fun _ => true |} in
  let files := [ {| path := L "ok.md"; type := blob |};
                 {| path := L "bad.md"; type := blob |} ] in
  callbackCalls
    (downloadBatch w (Some (fun _ _ _ => true)) (L "/w/.docs/r-docs")
       (L "r-docs") [] None files)
  = [(1, 2, L "ok.md")].
Proof.
  intros w files.
  exact (proj1 (proj2 (proj2 (proj2
           (progress_callback_calls w (fun _ _ _ => true)
              (L "/w/.docs/r-docs") (L "r-docs") [] None files)))) eq_refl).
Defined.

(** C9 fails as it is stated.  A file that fails gets no call: of two
    selected files, one failing, the callback hears of one.  And a callback
    that throws changes what the batch prints: the file it was called for
    is listed as failed although it was written. *)
Lemma progress_callback_not_after_failure :
  let w := {| cwd := L "/w";
              mkdirOk := fun _ => true;
              downloadFile := fun p => if str_eqb p (L "bad.md")
                                       then None else Some (L "# text");
              writeOk := fun _ => true |} in
  let files := [ {| path := L "ok.md"; type := blob |};
                 {| path := L "bad.md"; type := blob |} ] in
  let run := fun cb =>
    downloadBatch w cb (L "/w/.docs/r-docs") (L "r-docs") [] None files in
  callbackCalls (run (Some (fun _ _ _ => true))) = [(1, 2, L "ok.md")]
  /\ length (callbackCalls (run (Some (fun _ _ _ => true)))) <> length files
  /\ warning (run (Some (fun _ _ _ => false)))
     = Some {| failedCount := 2; listed := [L "ok.md"; L "bad.md"];
               andMore := None |}
  /\ warning (run None)
     = Some {| failedCount := 1; listed := [L "bad.md"]; andMore := None |}.
Proof.
  intros w files run. repeat split; try (vm_compute; reflexivity).
  vm_compute. discriminate.
Qed.

End BatchClaims.

(** ** The tree fetcher *)

Section FetcherFacts.

Import Downloader.

Lemma includes_intro (n h : str) (i : nat) : occ n h i -> includes n h = true.
Proof.
  intros H. unfold includes. destruct (indexOf n h) eqn:E; [reflexivity|].
  exfalso. exact (indexOf_none _ _ i E H).
Qed.

Lemma existsb_str_eqb_in (f : str) (l : list str) :
  existsb (str_eqb f) l = true <-> In f l.
Proof.
  rewrite existsb_exists. split.
  - intros [x [Hin Heq]]. apply str_eqb_eq in Heq. now subst.
  - intros Hin. exists f. split; [assumption|apply str_eqb_refl].
Qed.




(** A 404 response that is no timeout is reported as not found. *)
Lemma not_found_of_404 (get : str -> AxiosResult) (owner repo branch : str)
  (e : AxiosError) :
  get (apiUrl owner repo branch) = Failure e ->
  timedOut e = false -> status e = Some 404 ->
  exists error,
    fetchRepoTree get owner repo branch = inl error /\ isNotFound error = true.
Proof.
  intros Hget Hcode Hstatus. unfold fetchRepoTree. rewrite Hget.
  eexists. split; [reflexivity|].
  unfold isNotFound, fetchErrorMessage. unfold timedOut in Hcode.
  rewrite Hcode, Hstatus. cbn [statusIs].
  change (404 =? 404) with true. cbv iota. cbn [newError errMessage].
  apply orb_true_iff. left.
  change (L "Repository or branch not found: " ++ owner ++ L "/" ++ repo
          ++ L " (branch: " ++ branch ++ L ")")
    with (L "Repository or branch " ++ L "not found"
          ++ (L ": " ++ owner ++ L "/" ++ repo ++ L " (branch: " ++ branch ++ L ")")).
  exact (includes_intro _ _ _ (occ_intro _ _ _)).
Qed.

(** The loop passes the candidates reported as not found, and stops at the
    first one that is not: with its tree when the request succeeded, with
    its error otherwise; when every candidate was not found, the error
    names all the candidates. *)
Lemma tryBranches_run (get : str -> AxiosResult) (owner repo : str)
  (all requestedSoFar : list str) (warnings : nat) (skipped rest : list str) :
  Forall (fun b => exists error,
              fetchRepoTree get owner repo b = inl error
              /\ isNotFound error = true) skipped ->
  tryBranches get owner repo all requestedSoFar warnings (skipped ++ rest)
  = tryBranches get owner repo all (requestedSoFar ++ skipped) warnings rest.
Proof.
  intros H. revert requestedSoFar.
  induction H as [|b skipped [error [Hb Hnf]] _ IH]; intros requestedSoFar.
  - now rewrite app_nil_r.
  - cbn [app tryBranches]. rewrite Hb, Hnf, IH, <- app_assoc. reflexivity.
Qed.

Lemma fallback_exhausted (get : str -> AxiosResult) (owner repo preferred : str) :
  Forall (fun b => exists error,
              fetchRepoTree get owner repo b = inl error
              /\ isNotFound error = true) (branchesToTry preferred) ->
  fetchRepoTreeWithFallback get owner repo preferred
  = {| fetched := inl (RepositoryNotFound
                         (repositoryNotFoundMessage owner repo
                            (branchesToTry preferred)));
       requested := branchesToTry preferred;
       truncationWarnings := 0 |}.
Proof.
  intros H. unfold fetchRepoTreeWithFallback.
  rewrite <- (app_nil_r (branchesToTry preferred)) at 2.
  now rewrite (tryBranches_run _ _ _ _ _ _ _ [] H).
Qed.

Lemma fallback_first_success (get : str -> AxiosResult)
  (owner repo preferred : str) (skipped rest : list str) (b : str)
  (items : list GitHubTreeItem) (truncated : bool) :
  branchesToTry preferred = skipped ++ b :: rest ->
  Forall (fun b => exists error,
              fetchRepoTree get owner repo b = inl error
              /\ isNotFound error = true) skipped ->
  get (apiUrl owner repo b) = Response items truncated ->
  fetchRepoTreeWithFallback get owner repo preferred
  = {| fetched := inr (items, b);
       requested := skipped ++ [b];
       truncationWarnings := if truncated then 1 else 0 |}.
Proof.
  intros Hc Hskip Hget. unfold fetchRepoTreeWithFallback. rewrite Hc.
  rewrite (tryBranches_run _ _ _ _ _ _ _ _ Hskip).
  cbn [tryBranches app]. unfold fetchRepoTree. now rewrite Hget.
Qed.

Lemma fallback_abort (get : str -> AxiosResult)
  (owner repo preferred : str) (skipped rest : list str) (b : str)
  (error : JsError) :
  branchesToTry preferred = skipped ++ b :: rest ->
  Forall (fun b => exists error,
              fetchRepoTree get owner repo b = inl error
              /\ isNotFound error = true) skipped ->
  fetchRepoTree get owner repo b = inl error ->
  isNotFound error = false ->
  fetchRepoTreeWithFallback get owner repo preferred
  = {| fetched := inl (Rethrown error);
       requested := skipped ++ [b];
       truncationWarnings := 0 |}.
Proof.
  intros Hc Hskip Hb Hnf. unfold fetchRepoTreeWithFallback. rewrite Hc.
  rewrite (tryBranches_run _ _ _ _ _ _ _ _ Hskip).
  cbn [tryBranches app]. now rewrite Hb, Hnf.
Qed.

(** The spec's example: the preferred branch is not found, [main] is. *)
Lemma fallback_preferred_404_then_main :
  let get := fun url =>
    if str_eqb url (apiUrl (L "o") (L "r") (L "main")) then Response [] false
    else Failure {| code := Some (L "ERR_BAD_REQUEST"); status := Some 404;
                    resetDate := None;
                    message := L "Request failed with status code 404" |} in
  fetchRepoTreeWithFallback get (L "o") (L "r") (L "feature")
  = {| fetched := inr ([], L "main");
       requested := [L "feature"; L "main"];
       truncationWarnings := 0 |}.
Proof. by_evaluation. Qed.

(** A text holds what a part of it holds. *)
Lemma includes_within (n a h b : str) :
  n <> [] -> includes n h = true -> includes n (a ++ h ++ b) = true.
Proof.
  intros Hn H. unfold includes in H.
  destruct (indexOf n h) as [i|] eqn:E; [|discriminate].
  apply indexOf_occ in E.
  destruct (occ_decompose _ _ _ E Hn) as (u & v & -> & _).
  rewrite <- !app_assoc, (app_assoc a u).
  exact (includes_intro _ _ _ (occ_intro _ _ _)).
Qed.

(** A timeout for a repository whose owner or name holds the words
    "not found" is reported as not found: the message of the timeout error
    quotes both. *)
Lemma timeout_taken_for_not_found (get : str -> AxiosResult)
  (owner repo branch : str) (e : AxiosError) :
  get (apiUrl owner repo branch) = Failure e ->
  timedOut e = true ->
  includes (L "not found") owner = true \/ includes (L "not found") repo = true ->
  exists error,
    fetchRepoTree get owner repo branch = inl error /\ isNotFound error = true.
Proof.
  intros Hget Htime Hwords. unfold fetchRepoTree. rewrite Hget.
  eexists. split; [reflexivity|].
  unfold isNotFound, fetchErrorMessage. unfold timedOut in Htime. rewrite Htime.
  cbn [newError errMessage]. apply orb_true_iff. left.
  destruct Hwords as [H|H].
  - apply includes_within; [discriminate|exact H].
  - rewrite (app_assoc _ owner), (app_assoc _ (L "/")).
    apply includes_within; [discriminate|exact H].
Qed.

(** C4 at a locator whose repository name holds the words "not found",
    when the requests run into the time limit: the failure is a timeout,
    no 404, and still the loop goes on through every candidate and ends
    with the error that the repository could not be found, in place of the
    timeout it should have thrown after the first request, and does throw
    after the first request for the repository [page] on the same
    network. *)
Theorem fallback_continues_after_other_failure :
  let timeout := {| code := Some (L "ECONNABORTED"); status := None;
                    resetDate := None;
                    message := L "timeout of 30000ms exceeded" |} in
  let get := fun _ : str => Failure timeout in
  parseGitHubUrl (L "https://github.com/o/page not found")
  = Some {| owner := L "o"; repo := L "page not found"; branch := [] |}
  /\ fetchRepoTree get (L "o") (L "page not found") (L "main")
     = inl (newError
              (L "Connection timeout while fetching o/page not found"
               ++ [nl; nl]
               ++ L "Please check your internet connection and try again."))
  /\ fetchRepoTreeWithFallback get (L "o") (L "page not found") []
     = {| fetched :=
            inl (RepositoryNotFound
                   (repositoryNotFoundMessage (L "o") (L "page not found")
                      (map L [ "main"; "master"; "develop"; "dev" ]%string)));
          requested := map L [ "main"; "master"; "develop"; "dev" ]%string;
          truncationWarnings := 0 |}
  /\ fetchRepoTreeWithFallback get (L "o") (L "page") []
     = {| fetched :=
            inl (Rethrown
                   (newError
                      (L "Connection timeout while fetching o/page"
                       ++ [nl; nl]
                       ++ L "Please check your internet connection and try again.")));
          requested := [L "main"];
          truncationWarnings := 0 |}.
Proof. by_evaluation. Qed.

End FetcherFacts.

(** ** The repository's tests, on the embedding *)

Section RepositoryTests.

Import Downloader Generator Indexer.

Example test_parse_basic :
  parseGitHubUrl (L "https://github.com/owner/repo")
  = Some {| owner := L "owner"; repo := L "repo"; branch := [] |}.
Proof. reflexivity. Qed.

Example test_parse_with_branch :
  parseGitHubUrl (L "https://github.com/owner/repo/tree/develop")
  = Some {| owner := L "owner"; repo := L "repo"; branch := L "develop" |}.
Proof. reflexivity. Qed.

Example test_parse_invalid :
  parseGitHubUrl (L "https://example.com/something") = None
  /\ parseGitHubUrl (L "not-a-url") = None.
Proof. split; reflexivity. Qed.

Example test_generateSourceName :
  generateSourceName (L "owner") (L "MyRepo") = L "myrepo-docs"
  /\ generateSourceName (L "owner") (L "my_repo.js") = L "my-repo-js-docs".
Proof. split; reflexivity. Qed.

Example test_groupByDirectory :
  groupByDirectory
    (map L [ "readme.md"; "docs/guide.md"; "docs/api.md"; "docs/deep/nested.md" ]%string)
  = Some [ ([], [L "readme.md"]);
           (L "docs", [L "guide.md"; L "api.md"]);
           (L "docs/deep", [L "nested.md"]) ]
  /\ groupByDirectory [] = Some [].
Proof. split; reflexivity. Qed.

(** Array indices among the directory names come first when the object is
    enumerated, and a directory named like an inherited property makes the
    grouping throw. *)
Example groupByDirectory_key_order :
  option_map keys
    (groupByDirectory (map L [ "b/x.md"; "10/x.md"; "a/x.md"; "9/x.md"; "07/x.md" ]%string))
  = Some (map L [ "9"; "10"; "b"; "a"; "07" ]%string)
  /\ groupByDirectory [L "constructor/x.md"] = None.
Proof. split; reflexivity. Qed.

Example test_generateCompressedIndex :
  generateCompressedIndex codeUnitCompare
    [ ([], [L "readme.md"]); (L "docs", [L "guide.md"; L "api.md"]) ]
    (L "/path/to/my-docs")
  = L "my-docs:{readme.md}" ++ [nl] ++ L "my-docs/docs:{api.md,guide.md}"
  /\ generateCompressedIndex codeUnitCompare
       [ ([], [L "z.md"; L "a.md"; L "m.md"]) ] (L "/path/to/docs")
     = L "docs:{a.md,m.md,z.md}".
Proof. split; reflexivity. Qed.

Example test_markers :
  getStartMarker (L "my-source") = L "<!-- DOCS-INDEX-START:my-source -->"
  /\ getEndMarker (L "my-source") = L "<!-- DOCS-INDEX-END:my-source -->".
Proof. split; reflexivity. Qed.

Example test_formatDisplayName :
  formatDisplayName (L "my-cool-docs") = L "My Cool Docs"
  /\ formatDisplayName (L "react-docs") = L "React Docs"
  /\ formatDisplayName (L "docs") = L "Docs".
Proof. repeat split; reflexivity. Qed.

Example test_updateContent_append :
  let block := L "<!-- DOCS-INDEX-START:new -->" ++ [nl] ++ L "index" ++ [nl]
               ++ L "<!-- DOCS-INDEX-END:new -->" in
  updateContent (L "# AGENTS.md" ++ [nl; nl] ++ L "Some content") (L "new") block
  = inr (L "# AGENTS.md" ++ [nl; nl] ++ L "Some content" ++ [nl; nl]
         ++ block ++ [nl]).
Proof. reflexivity. Qed.

Example test_updateContent_replace :
  let block := L "<!-- DOCS-INDEX-START:old -->" ++ [nl] ++ L "new content"
               ++ [nl] ++ L "<!-- DOCS-INDEX-END:old -->" in
  updateContent
    (L "# AGENTS.md" ++ [nl; nl] ++ L "<!-- DOCS-INDEX-START:old -->" ++ [nl]
     ++ L "old content" ++ [nl] ++ L "<!-- DOCS-INDEX-END:old -->" ++ [nl; nl]
     ++ L "Other stuff")
    (L "old") block
  = inr (L "# AGENTS.md" ++ [nl; nl] ++ block ++ [nl; nl] ++ L "Other stuff").
Proof. reflexivity. Qed.

Example test_updateContent_malformed :
  updateContent
    (L "# AGENTS.md" ++ [nl] ++ L "<!-- DOCS-INDEX-START:broken -->" ++ [nl]
     ++ L "no end marker")
    (L "broken") (L "new")
  = inl (MalformedBlock (L "broken")).
Proof. reflexivity. Qed.

Example test_removeSource :
  let keep := L "<!-- DOCS-INDEX-START:keep -->" ++ [nl] ++ L "keep this" ++ [nl]
              ++ L "<!-- DOCS-INDEX-END:keep -->" in
  removeSource
    (Some (L "# AGENTS" ++ [nl; nl] ++ keep ++ [nl; nl]
           ++ L "<!-- DOCS-INDEX-START:remove -->" ++ [nl] ++ L "remove this"
           ++ [nl] ++ L "<!-- DOCS-INDEX-END:remove -->" ++ [nl]))
    (L "AGENTS.md") (L "remove")
  = (inr true, Some (L "# AGENTS" ++ [nl; nl] ++ keep ++ [nl] ++ [nl]))
  /\ removeSource (Some (L "# AGENTS" ++ [nl; nl] ++ L "No sources here"))
       (L "AGENTS.md") (L "nonexistent")
     = (inr false, Some (L "# AGENTS" ++ [nl; nl] ++ L "No sources here")).
Proof. split; reflexivity. Qed.

Example test_generateAgentsMd :
  fst (generateAgentsMd (L "# AGENTS" ++ [nl]) (L "./.docs/my-docs") None
         (L "my-docs") (L "my-docs:{readme.md}"))
  = inr (true, false)
  /\ fst (generateAgentsMd [] (L "./.docs/new-docs")
            (Some (L "# My Agents" ++ [nl; nl] ++ L "Custom content here"))
            (L "new-docs") (L "new-docs:{readme.md}"))
     = inr (false, false)
  /\ fst (generateAgentsMd [] (L "./.docs/my-docs")
            (Some (L "# AGENTS" ++ [nl; nl] ++ L "<!-- DOCS-INDEX-START:my-docs -->"
                   ++ [nl] ++ L "old content" ++ [nl]
                   ++ L "<!-- DOCS-INDEX-END:my-docs -->"))
            (L "my-docs") (L "my-docs:{new.md}"))
     = inr (false, true).
Proof. repeat split; reflexivity. Qed.

(** The spec's example for the path selector. *)
Example findDocsFolder_detects_docs :
  findDocsFolder [ {| path := L "docs"; type := tree |};
                   {| path := L "src"; type := tree |};
                   {| path := L "readme.md"; type := blob |} ]
  = Some (L "docs").
Proof. reflexivity. Qed.

End RepositoryTests.
(** ** Prefixes, runs and lines *)

Section RunFacts.

Lemma takeWhile_dropWhile (p : ascii -> bool) (s : str) :
  s = takeWhile p s ++ dropWhile p s.
Proof.
  induction s as [|c s IH]; simpl; [reflexivity|].
  destruct (p c); simpl; [now f_equal|reflexivity].
Qed.

Lemma takeWhile_forallb (p : ascii -> bool) (s : str) :
  forallb p (takeWhile p s) = true.
Proof.
  induction s as [|c s IH]; simpl; [reflexivity|].
  destruct (p c) eqn:E; simpl; [now rewrite E|reflexivity].
Qed.

Lemma dropWhile_head (p : ascii -> bool) (s t : str) (c : ascii) :
  dropWhile p s = c :: t -> p c = false.
Proof.
  induction s as [|d s IH]; simpl; [discriminate|].
  destruct (p d) eqn:E; [exact IH|]. intros [= <- _]. exact E.
Qed.

Lemma skipn_takeWhile (p : ascii -> bool) (s : str) :
  skipn (length (takeWhile p s)) s = dropWhile p s.
Proof.
  rewrite (takeWhile_dropWhile p s) at 2.
  rewrite skipn_app, skipn_all, Nat.sub_diag. reflexivity.
Qed.

Lemma includes_tail (n t : str) (c : ascii) :
  includes n (c :: t) = false -> includes n t = false.
Proof.
  unfold includes. simpl. destruct (startsWith n (c :: t)); [discriminate|].
  destruct (indexOf n t); [discriminate|reflexivity].
Qed.

(** An occurrence does not start inside a prefix made of characters that
    differ from its first one. *)
Lemma occ_behind_run (p : ascii -> bool) (n w t : str) (c : ascii) (q : nat) :
  forallb p w = true -> p c = false ->
  occ (c :: n) (w ++ t) q -> length w <= q.
Proof.
  intros Hw Hc Hocc.
  destruct (Nat.le_gt_cases (length w) q) as [H|H]; [assumption|exfalso].
  unfold occ in Hocc. rewrite skipn_app in Hocc.
  assert (Hk : length (skipn q w) = length w - q) by apply length_skipn.
  destruct (skipn q w) as [|d u] eqn:E; [simpl in Hk; lia|].
  simpl in Hocc. apply andb_true_iff in Hocc as [Hcd _].
  apply Ascii.eqb_eq in Hcd. subst d.
  rewrite forallb_forall in Hw.
  assert (Hin : In c w).
  { rewrite <- (firstn_skipn q w), E. apply in_or_app. right. now left. }
  rewrite (Hw c Hin) in Hc. discriminate.
Qed.

End RunFacts.

(** ** The markers tell the identifiers apart *)

Section MarkersIdentify.

Import Generator.

Lemma validateSourceName_closer (id : str) :
  validateSourceName id = inr tt -> includes (L "-->") id = false.
Proof.
  unfold validateSourceName. destruct id as [|c id]; [discriminate|].
  destruct (trim (c :: id)); [discriminate|].
  destruct (100 <? length (c :: id)); [discriminate|].
  destruct (includes (L "-->") (c :: id)); [discriminate|reflexivity].
Qed.

Lemma suffix_not_in_identifier (y r1 r2 : str) :
  includes (L "-->") y = false ->
  MARKER_SUFFIX ++ r1 = y ++ MARKER_SUFFIX ++ r2 -> y = [].
Proof.
  intros Hy H. destruct y as [|c1 [|c2 [|c3 [|c4 y]]]]; try reflexivity;
    cbn in H; try discriminate.
  injection H as <- <- <- <- _. cbn in Hy. discriminate.
Qed.

Lemma suffix_decides (x : str) :
  forall y r1 r2,
    includes (L "-->") x = false -> includes (L "-->") y = false ->
    x ++ MARKER_SUFFIX ++ r1 = y ++ MARKER_SUFFIX ++ r2 -> x = y.
Proof.
  induction x as [|c x IH]; intros y r1 r2 Hx Hy H.
  - symmetry. exact (suffix_not_in_identifier y r1 r2 Hy H).
  - destruct y as [|d y].
    + exact (suffix_not_in_identifier (c :: x) r2 r1 Hx (eq_sym H)).
    + injection H as <- H. f_equal.
      exact (IH y r1 r2 (includes_tail _ _ _ Hx) (includes_tail _ _ _ Hy) H).
Qed.

(** X1.  Two identifiers that pass [validateSourceName] and whose start
    markers, or whose end markers, occur at the same offset of a document
    are the same identifier: no marker of one source is read as the marker of
    another. *)
Theorem markers_identify (x y doc : str) (i : nat) :
  validateSourceName x = inr tt -> validateSourceName y = inr tt ->
  (occ (getStartMarker x) doc i -> occ (getStartMarker y) doc i -> x = y)
  /\ (occ (getEndMarker x) doc i -> occ (getEndMarker y) doc i -> x = y).
Proof.
  intros Hx Hy.
  apply validateSourceName_closer in Hx, Hy.
  split; intros H1 H2; unfold occ in H1, H2;
    apply startsWith_split in H1, H2; rewrite H1 in H2;
    unfold getStartMarker, getEndMarker in H2;
    rewrite <- !app_assoc in H2; apply app_inv_head in H2;
    exact (suffix_decides x y _ _ Hx Hy H2).
Qed.

Lemma markers_identify_witness :
  validateSourceName (L "react-docs") = inr tt
  /\ (occ (getStartMarker (L "react-docs"))
         (L "# Notes" ++ [nl] ++ getStartMarker (L "react-docs")) 8 ->
      occ (getStartMarker (L "react-docs"))
         (L "# Notes" ++ [nl] ++ getStartMarker (L "react-docs")) 8 ->
      L "react-docs" = L "react-docs").
Proof.
  split; [reflexivity|].
  exact (proj1 (markers_identify (L "react-docs") (L "react-docs")
                  (L "# Notes" ++ [nl] ++ getStartMarker (L "react-docs")) 8
                  eq_refl eq_refl)).
Defined.

End MarkersIdentify.

(** ** Listing the sources of a document *)

Section ListSources.

Import Generator.

Lemma matchSourceHere_inv (s g : str) (len : nat) :
  matchSourceHere s = Some (g, len) ->
  exists rest,
    s = START_MARKER_PREFIX ++ g ++ MARKER_SUFFIX ++ rest
    /\ g <> [] /\ forallb notSpace g = true
    /\ len = length START_MARKER_PREFIX + length g + length MARKER_SUFFIX.
Proof.
  unfold matchSourceHere.
  destruct (startsWith START_MARKER_PREFIX s) eqn:Ep; [|discriminate].
  apply startsWith_split in Ep.
  set (r := skipn (length START_MARKER_PREFIX) s) in *.
  pose proof (takeWhile_forallb notSpace r) as Hg.
  pose proof (skipn_takeWhile notSpace r) as Hskip.
  pose proof (takeWhile_dropWhile notSpace r) as Hr.
  destruct (takeWhile notSpace r) as [|c g'] eqn:Eg; [discriminate|].
  rewrite Hskip.
  destruct (startsWith MARKER_SUFFIX (dropWhile notSpace r)) eqn:Es;
    [|discriminate].
  apply startsWith_split in Es.
  intros [= <- <-].
  exists (skipn (length MARKER_SUFFIX) (dropWhile notSpace r)).
  repeat split; try assumption; try discriminate.
  rewrite <- Es, <- Hr. exact Ep.
Qed.

Lemma matchSourceHere_marker (id rest : str) :
  id <> [] -> forallb notSpace id = true ->
  matchSourceHere (getStartMarker id ++ rest)
  = Some (id, length START_MARKER_PREFIX + length id + length MARKER_SUFFIX).
Proof.
  intros Hne Hid. unfold matchSourceHere, getStartMarker.
  rewrite <- !app_assoc. rewrite startsWith_app.
  rewrite skipn_app, skipn_all, Nat.sub_diag. cbn [app skipn].
  change (MARKER_SUFFIX ++ rest) with (" "%char :: L "-->" ++ rest).
  rewrite (takeWhile_stop notSpace id _ " "%char Hid eq_refl).
  destruct id as [|c id]; [congruence|].
  rewrite skipn_app, skipn_all, Nat.sub_diag. reflexivity.
Qed.

(** The start of a start marker does not lie inside a match that begins
    before it. *)
Lemma match_ends_before_marker (s g id : str) (len p : nat) :
  matchSourceHere s = Some (g, len) ->
  occ (getStartMarker id) s p -> 0 < p -> len <= p.
Proof.
  intros Hm Hocc Hp.
  destruct (matchSourceHere_inv _ _ _ Hm) as (rest & -> & Hne & Hg & ->).
  destruct (Nat.le_gt_cases
              (length START_MARKER_PREFIX + length g + length MARKER_SUFFIX) p)
    as [H|H]; [assumption|exfalso].
  assert (Hsix : occ (L "<!-- D") (START_MARKER_PREFIX ++ g ++ MARKER_SUFFIX ++ rest) p).
  { unfold occ in *. apply (startsWith_trans _ (getStartMarker id)); [|assumption].
    reflexivity. }
  clear Hocc. change (length START_MARKER_PREFIX) with 22 in H.
  change (length MARKER_SUFFIX) with 4 in H.
  unfold occ in Hsix.
  destruct p as [|p]; [lia|].
  do 21 (destruct p as [|p]; [cbn in Hsix; discriminate|]).
  change (skipn (S (S (S (S (S (S (S (S (S (S (S (S (S (S (S (S (S (S (S (S (S (S p))))))))))))))))))))))
            (START_MARKER_PREFIX ++ g ++ MARKER_SUFFIX ++ rest))
    with (skipn p (g ++ MARKER_SUFFIX ++ rest)) in Hsix.
  rewrite skipn_app in Hsix.
  assert (Hk : length (skipn p g) = length g - p) by apply length_skipn.
  assert (Hsub : forallb notSpace (skipn p g) = true).
  { rewrite forallb_forall in *. intros c Hc. apply Hg.
    rewrite <- (firstn_skipn p g). apply in_or_app. now right. }
  destruct (skipn p g) as [|c1 [|c2 [|c3 [|c4 [|c5 x]]]]] eqn:E; cbn [length] in Hk.
  - cbn [app] in Hsix.
    destruct (p - length g) as [|[|[|[|k]]]] eqn:Ek; cbn in Hsix;
      try discriminate. lia.
  - replace (p - length g) with 0 in Hsix by lia.
    cbn in Hsix. rewrite !andb_false_r in Hsix. discriminate.
  - replace (p - length g) with 0 in Hsix by lia.
    cbn in Hsix. rewrite !andb_false_r in Hsix. discriminate.
  - replace (p - length g) with 0 in Hsix by lia.
    cbn in Hsix. rewrite !andb_false_r in Hsix. discriminate.
  - replace (p - length g) with 0 in Hsix by lia.
    cbn in Hsix. rewrite !andb_false_r in Hsix. discriminate.
  - cbn [app startsWith] in Hsix.
    do 4 (apply andb_true_iff in Hsix as [_ Hsix]).
    apply andb_true_iff in Hsix as [Hc5 _].
    apply Ascii.eqb_eq in Hc5. subst c5.
    cbn in Hsub. rewrite !andb_false_r in Hsub. discriminate.
Qed.

Lemma scanSources_finds (id : str) :
  id <> [] -> forallb notSpace id = true ->
  forall s skip p,
    occ (getStartMarker id) s p -> skip <= p -> In id (scanSources s skip).
Proof.
  intros Hne Hid. induction s as [|c s IH]; intros skip p Hocc Hskip.
  - unfold occ in Hocc. destruct p; discriminate Hocc.
  - cbn [scanSources]. destruct skip as [|k].
    + destruct p as [|p].
      * unfold occ in Hocc. cbn [skipn] in Hocc.
        apply startsWith_split in Hocc. rewrite Hocc.
        rewrite (matchSourceHere_marker id _ Hne Hid). now left.
      * destruct (matchSourceHere (c :: s)) as [[g len]|] eqn:Em.
        -- right. apply (IH _ p Hocc).
           pose proof (match_ends_before_marker _ _ _ _ _ Em Hocc ltac:(lia)).
           lia.
        -- apply (IH _ p Hocc). lia.
    + destruct p as [|p]; [lia|]. apply (IH _ p Hocc). lia.
Qed.

Lemma scanSources_sound (s : str) :
  forall skip id, In id (scanSources s skip) ->
                  id <> [] /\ forallb notSpace id = true.
Proof.
  induction s as [|c s IH]; intros skip id Hin; [destruct Hin|].
  cbn [scanSources] in Hin. destruct skip as [|k]; [|exact (IH _ _ Hin)].
  destruct (matchSourceHere (c :: s)) as [[g len]|] eqn:Em;
    [|exact (IH _ _ Hin)].
  destruct Hin as [<-|Hin]; [|exact (IH _ _ Hin)].
  destruct (matchSourceHere_inv _ _ _ Em) as (rest & _ & Hne & Hg & _).
  now split.
Qed.

Lemma listSources_finds_marker (content id : str) (p : nat) :
  id <> [] -> forallb notSpace id = true ->
  occ (getStartMarker id) content p ->
  In id (listSources (Some content)).
Proof.
  intros Hne Hid Hocc.
  exact (scanSources_finds id Hne Hid content 0 p Hocc (Nat.le_0_l _)).
Qed.

Lemma updateContent_contains (doc id block d : str) :
  updateContent doc id block = inr d -> exists a c, d = a ++ block ++ c.
Proof.
  unfold updateContent.
  assert (Happ : exists a c,
             trimEnd doc ++ [nl; nl] ++ block ++ [nl] = a ++ block ++ c).
  { exists (trimEnd doc ++ [nl; nl]), [nl]. now rewrite <- app_assoc. }
  destruct (indexOf (getStartMarker id) doc) as [i|];
    destruct (indexOf (getEndMarker id) doc) as [j|]; try discriminate.
  - destruct (i <? j); intros [= <-]; [|exact Happ]. now eexists _, _.
  - intros [= <-]. exact Happ.
  - intros [= <-]. exact Happ.
Qed.

(** X4.  After [generateAgentsMd] has succeeded for an identifier without
    white space, [listSources] on the file it wrote returns the identifier,
    whether the file was created, extended or had its block replaced. *)
Theorem generateAgentsMd_then_listSources
  (newFileContent relativePath : str) (file file' : File) (id index : str)
  (flags : bool * bool) :
  forallb notSpace id = true ->
  generateAgentsMd newFileContent relativePath file id index = (inr flags, file') ->
  In id (listSources file').
Proof.
  intros Hid. unfold generateAgentsMd.
  destruct (validateSourceName id) eqn:Ev; [discriminate|].
  assert (Hne : id <> []) by (intros ->; discriminate Ev).
  destruct index as [|c index]; [discriminate|].
  destruct (trim (c :: index)) as [|c' t']; [discriminate|].
  set (block := generateIndexBlock id (formatDisplayName id) relativePath (c :: index)).
  assert (Hblock : forall pre post,
             In id (listSources (Some (pre ++ block ++ post)))).
  { intros pre post.
    apply (listSources_finds_marker _ id (length pre) Hne Hid).
    unfold block, generateIndexBlock. rewrite <- !app_assoc. apply occ_intro. }
  destruct file as [doc|].
  - destruct (updateContent doc id block) as [e|d] eqn:Eu; [discriminate|].
    intros [= _ <-].
    destruct (updateContent_contains _ _ _ _ Eu) as (pre & post & ->).
    apply Hblock.
  - intros [= _ <-]. apply Hblock.
Qed.

Lemma generateAgentsMd_then_listSources_witness :
  forallb notSpace (L "react-docs") = true
  /\ In (L "react-docs")
       (listSources
          (snd (generateAgentsMd (L "# AGENTS" ++ [nl]) (L "./.docs/react-docs")
                  None (L "react-docs") (L "react-docs:{intro.md}")))).
Proof.
  split; [reflexivity|].
  apply (generateAgentsMd_then_listSources (L "# AGENTS" ++ [nl])
           (L "./.docs/react-docs") None _ (L "react-docs")
           (L "react-docs:{intro.md}") (true, false)); reflexivity.
Defined.

(** X5.  Every identifier [listSources] returns is not empty and has no
    white space: a block whose identifier has a space in it, which
    [validateSourceName] accepts, is never listed. *)
Theorem listSources_identifiers (file : File) (id : str) :
  In id (listSources file) -> id <> [] /\ forallb notSpace id = true.
Proof.
  destruct file as [content|]; [|intros []].
  apply scanSources_sound.
Qed.

Lemma listSources_identifiers_witness :
  In (L "react-docs") (listSources (Some (getStartMarker (L "react-docs"))))
  /\ L "react-docs" <> [] /\ forallb notSpace (L "react-docs") = true.
Proof.
  assert (H : In (L "react-docs")
                (listSources (Some (getStartMarker (L "react-docs")))))
    by (left; reflexivity).
  split; [exact H|].
  exact (listSources_identifiers (Some (getStartMarker (L "react-docs")))
           (L "react-docs") H).
Defined.

End ListSources.

(** ** Running the generator again, and removing with the markers reversed *)

Section GeneratorAgain.

Import Generator.

(** X3.  A first run of [generateAgentsMd] creates the file; a second run
    with the same index, on the file the first one wrote, reports an update
    and writes the same text, where the template holds no marker of the
    identifier and the block's lines do not hold its end marker. *)
Theorem generateAgentsMd_rerun
  (newFileContent newFileContent' relativePath id index : str) :
  validateSourceName id = inr tt ->
  trim index <> [] ->
  includes (getStartMarker id) newFileContent = false ->
  includes (getEndMarker id) newFileContent = false ->
  includes (getEndMarker id)
    (blockBody (formatDisplayName id) relativePath index) = false ->
  exists content,
    generateAgentsMd newFileContent relativePath None id index
    = (inr (true, false), Some content)
    /\ generateAgentsMd newFileContent' relativePath (Some content) id index
       = (inr (false, true), Some content).
Proof.
  intros Hv Hindex HS HE Hbody.
  pose proof (validateSourceName_opener id Hv) as Hid.
  set (mid := blockBody (formatDisplayName id) relativePath index) in *.
  exists (newFileContent ++ (getStartMarker id ++ mid ++ getEndMarker id) ++ [nl]).
  unfold generateAgentsMd. rewrite Hv.
  destruct index as [|c index]; [now cbn in Hindex|].
  destruct (trim (c :: index)) eqn:Et; [congruence|].
  unfold generateIndexBlock. fold mid. split; [reflexivity|].
  assert (HaS : forall k, ~ occ (getStartMarker id) newFileContent k)
    by (intros k; now apply includes_false).
  assert (HaE : forall k, ~ occ (getEndMarker id) newFileContent k)
    by (intros k; now apply includes_false).
  assert (Hm : forall k, ~ occ (getEndMarker id) mid k)
    by (intros k; now apply includes_false).
  rewrite <- !app_assoc.
  pose proof (updateContent_fixed id newFileContent mid [nl] Hid HaS HaE Hm) as Hfix.
  cbv zeta in Hfix. rewrite <- !app_assoc in Hfix. rewrite Hfix.
  rewrite (includes_intro _ _ (length newFileContent)); [reflexivity|].
  apply occ_intro.
Qed.

Lemma generateAgentsMd_rerun_witness :
  exists content,
    generateAgentsMd (L "# AGENTS" ++ [nl]) (L "./.docs/react-docs") None
      (L "react-docs") (L "react-docs:{intro.md}")
    = (inr (true, false), Some content)
    /\ generateAgentsMd [] (L "./.docs/react-docs") (Some content)
         (L "react-docs") (L "react-docs:{intro.md}")
       = (inr (false, true), Some content).
Proof.
  apply (generateAgentsMd_rerun (L "# AGENTS" ++ [nl]) []
           (L "./.docs/react-docs") (L "react-docs") (L "react-docs:{intro.md}"));
    try reflexivity.
  discriminate.
Defined.

Lemma dropWhile_split (p : ascii -> bool) (s : str) :
  exists w, s = w ++ dropWhile p s /\ forallb p w = true.
Proof.
  exists (takeWhile p s). split.
  - apply takeWhile_dropWhile.
  - apply takeWhile_forallb.
Qed.

(** A marker that ends inside a text still ends inside it when the
    newlines at the end of the text are collapsed. *)
Lemma occ_collapseTrailingNewlines (m s : str) (j : nat) :
  m <> [] -> last m " "%char = ">"%char -> occ m s j ->
  occ m (collapseTrailingNewlines s) j.
Proof.
  intros Hm Hlast Hocc. unfold collapseTrailingNewlines.
  destruct (length (dropEndWhile isNl s) <? length s); [|assumption].
  destruct (dropEndWhile_split isNl s) as (w & Hs & Hw).
  assert (Hin : j + length m <= length (dropEndWhile isNl s)).
  { destruct (Nat.le_gt_cases (j + length m) (length (dropEndWhile isNl s)))
      as [H|H]; [assumption|exfalso].
    rewrite Hs in Hocc.
    pose proof (occ_end_in_tail _ _ _ _ Hocc Hm H) as Hl.
    rewrite Hlast in Hl. rewrite forallb_forall in Hw.
    specialize (Hw _ Hl). discriminate Hw. }
  apply occ_app_left; [assumption|].
  rewrite Hs in Hocc. exact (proj1 (occ_app_left _ _ _ _ Hin) Hocc).
Qed.

(** A marker that occurs in a text occurs in it when the newlines at its
    start are collapsed. *)
Lemma occ_collapseLeadingNewlines (m s : str) (q : nat) :
  startsWith opener m = true -> occ m s q ->
  exists q', occ m (collapseLeadingNewlines s) q'.
Proof.
  intros Hm Hocc. unfold collapseLeadingNewlines.
  destruct (length (dropWhile isNl s) <? length s); [|now exists q].
  destruct (dropWhile_split isNl s) as (w & Hs & Hw).
  destruct m as [|c m]; [discriminate|].
  assert (Hc : isNl c = false).
  { apply startsWith_split in Hm. cbn [opener app] in Hm.
    change (L "<!--") with ("<"%char :: L "!--") in Hm.
    now injection Hm as -> _. }
  rewrite Hs in Hocc.
  pose proof (occ_behind_run isNl m w _ c q Hw Hc Hocc) as Hq.
  exists (S (q - length w)).
  replace q with (length w + (q - length w)) in Hocc by lia.
  apply occ_app_right in Hocc. exact Hocc.
Qed.

(** X6.  [removeSource] does not compare the offsets of the two markers:
    where the first end marker of the identifier ends before its first
    start marker, it reports a removal and writes a text that still
    contains both markers. *)
Theorem removeSource_markers_reversed (content outputPath id : str) (i j : nat) :
  indexOf (getStartMarker id) content = Some i ->
  indexOf (getEndMarker id) content = Some j ->
  j + length (getEndMarker id) <= i ->
  exists content',
    removeSource (Some content) outputPath id = (inr true, Some content')
    /\ includes (getStartMarker id) content' = true
    /\ includes (getEndMarker id) content' = true.
Proof.
  intros Hs He Hji. unfold removeSource, removeContent. rewrite Hs, He.
  eexists. split; [reflexivity|].
  unfold substringTo, substringFrom.
  pose proof (indexOf_occ _ _ _ Hs) as Hos.
  pose proof (indexOf_occ _ _ _ He) as Hoe.
  split.
  - assert (Hafter : occ (getStartMarker id)
                       (skipn (j + length (getEndMarker id)) content)
                       (i - (j + length (getEndMarker id)))).
    { unfold occ in *. rewrite skipn_skipn.
      now replace (i - (j + length (getEndMarker id)) + (j + length (getEndMarker id)))
        with i by lia. }
    destruct (occ_collapseLeadingNewlines (getStartMarker id) _ _ eq_refl Hafter)
      as (q' & Hq').
    apply (includes_intro _ _ (length (collapseTrailingNewlines (firstn i content)) + q')).
    now apply occ_app_right.
  - assert (Hbefore : occ (getEndMarker id) (firstn i content) j).
    { rewrite <- (firstn_skipn i content) in Hoe.
      refine (proj1 (occ_app_left _ _ _ _ _) Hoe).
      rewrite length_firstn.
      pose proof (occ_bound _ _ _ Hos (startMarker_nonempty id)). lia. }
    pose proof (occ_collapseTrailingNewlines _ _ _ (endMarker_nonempty id)
                  (endMarker_last id) Hbefore) as Hocc.
    apply (includes_intro _ _ j).
    apply occ_app_left; [|assumption].
    exact (occ_bound _ _ _ Hocc (endMarker_nonempty id)).
Qed.

Lemma removeSource_markers_reversed_witness :
  exists content',
    removeSource
      (Some (getEndMarker (L "x") ++ L " notes " ++ getStartMarker (L "x")))
      (L "AGENTS.md") (L "x")
    = (inr true, Some content')
    /\ includes (getStartMarker (L "x")) content' = true
    /\ includes (getEndMarker (L "x")) content' = true.
Proof.
  apply (removeSource_markers_reversed _ _ _ 32 0); try reflexivity.
  vm_compute. lia.
Defined.

End GeneratorAgain.

Section OneBlockWitness.

Import Generator.

Lemma upsert_sequence_one_block_witness :
  exists d,
    upsertAll (L "# Agents") (L "x")
      [ (L "X", L "./.docs/x", L "x:{a.md}");
        (L "X", L "./.docs/x", L "x:{a.md,b.md}") ] = inr d
    /\ activeBlocks (L "x") d <= 1
    /\ noOrphanMarker (L "x") d = true.
Proof.
  apply (upsert_sequence_one_block (L "x") eq_refl); try reflexivity.
  vm_compute. lia.
Defined.

End OneBlockWitness.

(** ** Grouping the files by directory *)

Section GroupFacts.

Import Indexer.

Lemma lookup_none_keys (g : IndexedDirectory) (k : str) :
  lookup k g = None -> ~ In k (keys g).
Proof.
  induction g as [|[k' v] g IH]; simpl; [intros _ []|].
  destruct (str_eqb k' k) eqn:E; [discriminate|].
  intros H [->|Hin]; [now rewrite str_eqb_refl in E|now apply IH].
Qed.

Lemma lookup_some_keys (g : IndexedDirectory) (k : str) (v : list str) :
  lookup k g = Some v -> In k (keys g).
Proof.
  induction g as [|[k' v'] g IH]; simpl; [discriminate|].
  destruct (str_eqb k' k) eqn:E.
  - apply str_eqb_eq in E. now left.
  - intros H. right. now apply IH.
Qed.

Lemma keys_pushTo (k b : str) (g : IndexedDirectory) :
  keys (pushTo k b g) = keys g.
Proof.
  induction g as [|[k' v] g IH]; simpl; [reflexivity|].
  destruct (str_eqb k' k); simpl; [reflexivity|now rewrite IH].
Qed.

Lemma lookup_pushTo (k b key : str) (g : IndexedDirectory) :
  lookup key (pushTo k b g)
  = if str_eqb k key then option_map (fun v => v ++ [b]) (lookup key g)
    else lookup key g.
Proof.
  induction g as [|[k' v] g IH]; simpl; [now destruct (str_eqb k key)|].
  destruct (str_eqb k' k) eqn:E; simpl.
  - apply str_eqb_eq in E. subst k'.
    destruct (str_eqb k key); reflexivity.
  - rewrite IH. destruct (str_eqb k' key) eqn:E'; [|reflexivity].
    apply str_eqb_eq in E'. subst k'.
    destruct (str_eqb k key) eqn:E''; [|reflexivity].
    apply str_eqb_eq in E''. subst k. now rewrite str_eqb_refl in E.
Qed.

Lemma lookup_insertIndexKey (n : N) (k key : str) (v : list str)
  (g : IndexedDirectory) :
  lookup k g = None ->
  lookup key (insertIndexKey n (k, v) g)
  = if str_eqb k key then Some v else lookup key g.
Proof.
  induction g as [|[k' v'] g IH]; simpl; [reflexivity|].
  destruct (str_eqb k' k) eqn:E; [discriminate|]. intros Hk.
  destruct (arrayIndex k') as [m|]; [destruct (m <? n)%N|]; simpl;
    try reflexivity.
  rewrite (IH Hk). destruct (str_eqb k key) eqn:E'; [|reflexivity].
  apply str_eqb_eq in E'. subst key. now rewrite E.
Qed.

Lemma lookup_app_new (k key : str) (v : list str) (g : IndexedDirectory) :
  lookup k g = None ->
  lookup key (g ++ [(k, v)])
  = if str_eqb k key then Some v else lookup key g.
Proof.
  induction g as [|[k' v'] g IH]; simpl; [reflexivity|].
  destruct (str_eqb k' k) eqn:E; [discriminate|]. intros Hk.
  rewrite (IH Hk). destruct (str_eqb k key) eqn:E'; [|reflexivity].
  apply str_eqb_eq in E'. subst key. now rewrite E.
Qed.

Lemma lookup_setNew (k key : str) (v : list str) (g : IndexedDirectory) :
  lookup k g = None ->
  lookup key (setNew k v g) = if str_eqb k key then Some v else lookup key g.
Proof.
  intros Hk. unfold setNew. destruct (arrayIndex k).
  - now apply lookup_insertIndexKey.
  - now apply lookup_app_new.
Qed.

Lemma keys_insertIndexKey (n : N) (e : str * list str) (g : IndexedDirectory) :
  Permutation (keys (insertIndexKey n e g)) (fst e :: keys g).
Proof.
  induction g as [|[k' v'] g IH]; simpl; [reflexivity|].
  destruct (arrayIndex k') as [m|]; [destruct (m <? n)%N|]; simpl;
    try reflexivity.
  rewrite IH. apply perm_swap.
Qed.

Lemma keys_setNew (k : str) (v : list str) (g : IndexedDirectory) :
  Permutation (keys (setNew k v g)) (k :: keys g).
Proof.
  unfold setNew. destruct (arrayIndex k).
  - apply (keys_insertIndexKey _ (k, v)).
  - unfold keys. rewrite map_app. simpl.
    symmetry. apply Permutation_cons_append.
Qed.

Lemma groupInto_step (g0 : IndexedDirectory) (file : str) (rest : list str) :
  groupInto g0 (file :: rest)
  = match lookup (dirKeyOf file) g0 with
    | Some _ => groupInto (pushTo (dirKeyOf file) (Path.basename file) g0) rest
    | None =>
        if existsb (str_eqb (dirKeyOf file)) inheritedNames then None
        else groupInto (setNew (dirKeyOf file) [Path.basename file] g0) rest
    end.
Proof. reflexivity. Qed.

Lemma groupInto_lookup (files : list str) :
  forall g0 g,
    NoDup (keys g0) -> groupInto g0 files = Some g ->
    NoDup (keys g)
    /\ forall key, lookup key g = filedUnder (lookup key g0) (namesUnder key files).
Proof.
  induction files as [|file files IH]; intros g0 g Hnd.
  - intros [= <-]. split; [assumption|]. intros key. unfold namesUnder. simpl.
    destruct (lookup key g0); simpl; [now rewrite app_nil_r|reflexivity].
  - rewrite groupInto_step.
    destruct (lookup (dirKeyOf file) g0) as [v0|] eqn:Ek.
    + intros Hg.
      assert (Hnd1 : NoDup (keys (pushTo (dirKeyOf file) (Path.basename file) g0)))
        by now rewrite keys_pushTo.
      destruct (IH _ _ Hnd1 Hg) as [Hnd' Hl].
      split; [assumption|]. intros key. rewrite Hl, lookup_pushTo.
      unfold namesUnder. cbn [filter].
      destruct (str_eqb (dirKeyOf file) key) eqn:E.
      * apply str_eqb_eq in E. subst key. rewrite Ek. cbn.
        now rewrite <- app_assoc.
      * reflexivity.
    + destruct (existsb (str_eqb (dirKeyOf file)) inheritedNames); [discriminate|].
      intros Hg.
      assert (Hnd1 : NoDup (keys (setNew (dirKeyOf file) [Path.basename file] g0))).
      { apply (Permutation_NoDup (Permutation_sym (keys_setNew _ _ _))).
        constructor; [now apply lookup_none_keys|assumption]. }
      destruct (IH _ _ Hnd1 Hg) as [Hnd' Hl].
      split; [assumption|]. intros key. rewrite Hl, (lookup_setNew _ _ _ _ Ek).
      unfold namesUnder. cbn [filter].
      destruct (str_eqb (dirKeyOf file) key) eqn:E.
      * apply str_eqb_eq in E. subst key. rewrite Ek. reflexivity.
      * reflexivity.
Qed.

End GroupFacts.

Section GroupClaims.

Import Indexer.

(** X7.  Where [groupByDirectory] returns, no key occurs twice in the
    mapping, and a key holds the base names of exactly the files whose
    directory it is, in the order of the files; a key is there only when
    some file lies in its directory. *)
Theorem groupByDirectory_lookup (files : list str) (g : IndexedDirectory) :
  groupByDirectory files = Some g ->
  NoDup (keys g)
  /\ forall key,
       lookup key g
       = match namesUnder key files with
         | [] => None
         | names => Some names
         end.
Proof.
  intros Hg.
  destruct (groupInto_lookup files [] g (NoDup_nil _) Hg) as [Hnd Hl].
  split; [assumption|]. intros key. rewrite Hl. cbn.
  now destruct (namesUnder key files).
Qed.

Lemma groupByDirectory_lookup_witness :
  let files := [L "guide/a.md"; L "readme.md"; L "guide/b.md"] in
  exists g,
    groupByDirectory files = Some g
    /\ NoDup (keys g)
    /\ lookup (L "guide") g = Some [L "a.md"; L "b.md"]
    /\ lookup [] g = Some [L "readme.md"]
    /\ lookup (L "api") g = None.
Proof.
  intros files.
  exists [(L "guide", [L "a.md"; L "b.md"]); ([], [L "readme.md"])].
  assert (Hg : groupByDirectory files
               = Some [(L "guide", [L "a.md"; L "b.md"]); ([], [L "readme.md"])])
    by reflexivity.
  destruct (groupByDirectory_lookup files _ Hg) as [Hnd Hl].
  split; [exact Hg|]. split; [exact Hnd|].
  split; [exact (Hl (L "guide"))|]. split; [exact (Hl [])|exact (Hl (L "api"))].
Defined.

Lemma groupInto_throws (files : list str) :
  forall g0,
    (forall k, In k (keys g0) -> ~ In k inheritedNames) ->
    (groupInto g0 files = None
     <-> exists file, In file files /\ In (dirKeyOf file) inheritedNames).
Proof.
  induction files as [|file files IH]; intros g0 Hg0.
  - split; [discriminate|]. intros (f & [] & _).
  - rewrite groupInto_step.
    destruct (lookup (dirKeyOf file) g0) as [v0|] eqn:Ek.
    + rewrite IH
        by (intros k Hk; rewrite keys_pushTo in Hk; now apply Hg0).
      split.
      * intros (f & Hf & Hin). exists f. split; [now right|assumption].
      * intros (f & [<-|Hf] & Hin).
        -- exfalso. exact (Hg0 _ (lookup_some_keys _ _ _ Ek) Hin).
        -- now exists f.
    + destruct (existsb (str_eqb (dirKeyOf file)) inheritedNames) eqn:Ei.
      * split; [|reflexivity]. intros _. exists file. split; [now left|].
        now apply existsb_str_eqb_in.
      * rewrite IH.
        -- split.
           ++ intros (f & Hf & Hin). exists f. split; [now right|assumption].
           ++ intros (f & [<-|Hf] & Hin).
              ** apply existsb_str_eqb_in in Hin. congruence.
              ** now exists f.
        -- intros k Hk Hin.
           apply (Permutation_in _ (keys_setNew _ _ _)) in Hk.
           destruct Hk as [<-|Hk].
           ++ apply existsb_str_eqb_in in Hin. congruence.
           ++ exact (Hg0 k Hk Hin).
Qed.

(** X8.  [groupByDirectory] throws exactly when some file lies in a
    directory whose path is the name of a property that every object
    inherits, such as [constructor] or [toString]: the lookup of the key
    then finds the inherited value, which has no [push]. *)
Theorem groupByDirectory_throws (files : list str) :
  groupByDirectory files = None
  <-> exists file, In file files /\ In (dirKeyOf file) inheritedNames.
Proof. apply groupInto_throws. intros k []. Qed.

End GroupClaims.

(** ** Paths made of ordinary segments *)

Section OrdinaryPaths.

Lemma ordinary_inv (n : str) :
  ordinary n = true ->
  n <> [] /\ forallb notSlash n = true
  /\ str_eqb n (L ".") = false /\ str_eqb n (L "..") = false.
Proof.
  unfold ordinary. rewrite !andb_true_iff, !negb_true_iff.
  intros [[Hs H1] H2]. destruct (segment_inv n Hs). now repeat split.
Qed.

Lemma notSlash_eqb (x : ascii) : notSlash x = true -> Ascii.eqb x slash = false.
Proof. unfold notSlash, isSlash. now rewrite negb_true_iff. Qed.

Lemma splitOn_free (s : str) :
  forallb notSlash s = true -> splitOn slash s = [s].
Proof.
  induction s as [|x s IH]; cbn [forallb splitOn]; [reflexivity|].
  rewrite andb_true_iff. intros [Hx Hs].
  now rewrite (notSlash_eqb x Hx), (IH Hs).
Qed.

Lemma splitOn_app_sep (s t : str) :
  forallb notSlash s = true ->
  splitOn slash (s ++ slash :: t) = s :: splitOn slash t.
Proof.
  induction s as [|x s IH]; cbn [forallb splitOn app].
  - now rewrite Ascii.eqb_refl.
  - rewrite andb_true_iff. intros [Hx Hs].
    now rewrite (notSlash_eqb x Hx), (IH Hs).
Qed.

Lemma join_cons (sep s : str) (rest : list str) :
  rest <> [] -> join sep (s :: rest) = s ++ sep ++ join sep rest.
Proof. destruct rest; [congruence|reflexivity]. Qed.

Lemma join_snoc (sep x : str) (segs : list str) :
  segs <> [] -> join sep (segs ++ [x]) = join sep segs ++ sep ++ x.
Proof.
  induction segs as [|s segs IH]; [congruence|]. intros _.
  destruct segs as [|s' segs]; [reflexivity|].
  change ((s :: s' :: segs) ++ [x]) with (s :: ((s' :: segs) ++ [x])).
  rewrite join_cons by (destruct segs; discriminate).
  rewrite IH by discriminate.
  rewrite (join_cons sep s (s' :: segs)) by discriminate.
  now rewrite <- !app_assoc.
Qed.

Lemma join_app (sep : str) (a b : list str) :
  a <> [] -> b <> [] -> join sep (a ++ b) = join sep a ++ sep ++ join sep b.
Proof.
  intros Ha Hb. induction a as [|s a IH]; [congruence|].
  destruct a as [|s' a].
  - cbn [app]. now apply join_cons.
  - change ((s :: s' :: a) ++ b) with (s :: ((s' :: a) ++ b)).
    rewrite join_cons by discriminate.
    rewrite IH by discriminate.
    rewrite (join_cons sep s (s' :: a)) by discriminate.
    now rewrite <- !app_assoc.
Qed.

Lemma splitOn_join (segs : list str) :
  segs <> [] -> forallb (forallb notSlash) segs = true ->
  splitOn slash (join [slash] segs) = segs.
Proof.
  induction segs as [|s segs IH]; [congruence|]. intros _.
  cbn [forallb]. rewrite andb_true_iff. intros [Hs Hrest].
  destruct segs as [|s' segs].
  - now apply splitOn_free.
  - rewrite join_cons by discriminate. cbn [app].
    rewrite (splitOn_app_sep _ _ Hs). f_equal. now apply IH.
Qed.

Lemma ordinary_segments (segs : list str) :
  forallb ordinary segs = true -> forallb (forallb notSlash) segs = true.
Proof.
  induction segs as [|s segs IH]; cbn [forallb]; [reflexivity|].
  rewrite !andb_true_iff. intros [Hs Hrest].
  destruct (ordinary_inv s Hs) as (_ & H & _). now split; [|apply IH].
Qed.

Lemma normalizeSegs_ordinary (above : bool) (segs acc : list str) :
  forallb ordinary segs = true ->
  Path.normalizeSegs above acc segs = rev acc ++ segs.
Proof.
  revert acc. induction segs as [|s segs IH]; intros acc; cbn [forallb].
  - intros _. cbn. now rewrite app_nil_r.
  - rewrite andb_true_iff. intros [Hs Hrest].
    destruct (ordinary_inv s Hs) as (Hne & _ & Hdot & Hdots).
    cbn [Path.normalizeSegs]. rewrite Hdot, Hdots.
    destruct s as [|c s]; [congruence|]. cbn [str_eqb orb].
    rewrite (IH _ Hrest). cbn [rev]. now rewrite <- app_assoc.
Qed.

Lemma join_head (segs : list str) :
  segs <> [] -> forallb ordinary segs = true ->
  exists c t, join [slash] segs = c :: t /\ isSlash c = false.
Proof.
  destruct segs as [|s segs]; [congruence|]. intros _.
  cbn [forallb]. rewrite andb_true_iff. intros [Hs _].
  destruct (ordinary_inv s Hs) as (Hne & Hfree & _).
  destruct s as [|c s]; [congruence|].
  cbn [forallb] in Hfree. apply andb_true_iff in Hfree as [Hc _].
  exists c. destruct segs; cbn [join app]; eexists; split; try reflexivity;
    unfold notSlash in Hc; now apply negb_true_iff in Hc.
Qed.

Lemma join_last (segs : list str) (d : ascii) :
  segs <> [] -> forallb ordinary segs = true ->
  isSlash (last (join [slash] segs) d) = false.
Proof.
  induction segs as [|s segs IH]; [congruence|]. intros _.
  cbn [forallb]. rewrite andb_true_iff. intros [Hs Hrest].
  destruct segs as [|s' segs].
  - destruct (ordinary_inv s Hs) as (Hne & Hfree & _).
    pose proof (forallb_last notSlash s d Hne Hfree) as H.
    unfold notSlash in H. now apply negb_true_iff in H.
  - rewrite join_cons by discriminate.
    assert (Hne : [slash] ++ join [slash] (s' :: segs) <> []) by discriminate.
    rewrite (last_app_nonempty _ _ d Hne).
    cbn [app].
    destruct (join_head (s' :: segs) ltac:(discriminate) Hrest) as (c & t & E & _).
    rewrite E. change (last (slash :: c :: t) d) with (last (c :: t) d).
    rewrite <- E. apply IH; [discriminate|assumption].
Qed.

(** A relative path of ordinary segments is in normal form. *)
Lemma normalize_ordinary (segs : list str) :
  segs <> [] -> forallb ordinary segs = true ->
  Path.normalize (join [slash] segs) = join [slash] segs.
Proof.
  intros Hne Hsegs.
  destruct (join_head segs Hne Hsegs) as (c & t & E & Hc).
  pose proof (join_last segs " "%char Hne Hsegs) as Hlast.
  assert (Habs : Path.isAbsolute (join [slash] segs) = false)
    by (rewrite E; exact Hc).
  unfold Path.normalize.
  rewrite (splitOn_join segs Hne (ordinary_segments _ Hsegs)).
  rewrite (normalizeSegs_ordinary _ _ _ Hsegs), Habs, Hlast. cbn [rev app].
  rewrite E. reflexivity.
Qed.

Lemma joinPaths_ordinary (segs : list str) (name : str) :
  segs <> [] -> forallb ordinary segs = true -> ordinary name = true ->
  Path.joinPaths [join [slash] segs; name] = join [slash] (segs ++ [name]).
Proof.
  intros Hne Hsegs Hname.
  destruct (join_head segs Hne Hsegs) as (c & t & E & _).
  destruct (ordinary_inv name Hname) as (Hn & _).
  unfold Path.joinPaths. rewrite E. destruct name as [|x name]; [congruence|].
  cbn [filter]. rewrite <- E.
  change (join [slash] [join [slash] segs; x :: name])
    with (join [slash] segs ++ [slash] ++ x :: name).
  rewrite <- (join_snoc [slash] (x :: name) segs Hne).
  apply normalize_ordinary.
  - destruct segs; discriminate.
  - rewrite forallb_app, Hsegs. cbn [forallb]. now rewrite Hname.
Qed.

End OrdinaryPaths.

(** ** The walk over the docs directory *)

Section WalkFacts.

Import IndexerFs.

Lemma DirEntry_nested_ind (P : DirEntry -> Prop) :
  (forall name, P (FileEntry name)) ->
  (forall name entries, Forall P entries -> P (DirectoryEntry name entries)) ->
  (forall name code message, P (UnreadableDirectory name code message)) ->
  (forall name, P (OtherEntry name)) ->
  forall e, P e.
Proof.
  intros Hfile Hdir Hbroken Hother.
  fix IH 1. intros [name|name entries|name code message|name].
  - apply Hfile.
  - apply Hdir. induction entries as [|e entries IHes]; constructor.
    + apply IH.
    + exact IHes.
  - apply Hbroken.
  - apply Hother.
Qed.

Lemma scanLoop_inr (scanOne : DirEntry -> str + list str)
  (es : list DirEntry) (files : list str) :
  scanLoop scanOne es = inr files ->
  Forall (fun e => exists fs, scanOne e = inr fs) es
  /\ forall f, In f files
               <-> exists e fs, In e es /\ scanOne e = inr fs /\ In f fs.
Proof.
  revert files. induction es as [|e es IH]; intros files; cbn [scanLoop].
  - intros [= <-]. split; [constructor|].
    intros f. split; [intros []|intros (e & fs & [] & _)].
  - destruct (scanOne e) as [m|fs] eqn:Ee; [discriminate|].
    fold (scanLoop scanOne es).
    destruct (scanLoop scanOne es) as [m|more] eqn:El; [discriminate|].
    intros [= <-]. destruct (IH more eq_refl) as [Hall Hin].
    split; [constructor; [now exists fs|assumption]|].
    intros f. rewrite in_app_iff, Hin. split.
    + intros [Hf|(e' & fs' & He' & Hs & Hf)].
      * exists e, fs. repeat split; [now left|assumption|assumption].
      * exists e', fs'. repeat split; [now right|assumption|assumption].
    + intros (e' & fs' & [<-|He'] & Hs & Hf).
      * left. congruence.
      * right. now exists e', fs'.
Qed.

Lemma scanLoop_inl (scanOne : DirEntry -> str + list str) (es : list DirEntry) :
  (exists m, scanLoop scanOne es = inl m)
  <-> exists e m, In e es /\ scanOne e = inl m.
Proof.
  induction es as [|e es IH]; cbn [scanLoop].
  - split; [intros [m H]; discriminate|intros (e & m & [] & _)].
  - fold (scanLoop scanOne es).
    destruct (scanOne e) as [m|fs] eqn:Ee.
    + split; [|now exists m]. intros _. exists e, m. split; [now left|assumption].
    + destruct (scanLoop scanOne es) as [m|more] eqn:El.
      * split; [|now exists m]. intros _.
        destruct (proj1 IH (ex_intro _ m eq_refl)) as (e' & m' & He' & Hs).
        exists e', m'. split; [now right|assumption].
      * split; [intros [m H]; discriminate|].
        intros (e' & m' & [<-|He'] & Hs); [congruence|].
        destruct (proj2 IH (ex_intro _ e' (ex_intro _ m' (conj He' Hs))))
          as [m H]. discriminate.
Qed.

Lemma reaches_member (es : list DirEntry) (segs : list str) :
  reaches es segs <-> exists e, In e es /\ reaches [e] segs.
Proof.
  split.
  - intros H. destruct H as [es name Hin Hmd|es sub name segs Hin Hskip Hsub].
    + exists (FileEntry name). split; [assumption|].
      apply reaches_file; [now left|assumption].
    + exists (DirectoryEntry name sub). split; [assumption|].
      apply (reaches_below _ sub); [now left|assumption|assumption].
  - intros (e & He & H).
    inversion H as [es' name Hin Hmd|es' sub name segs' Hin Hskip Hsub]; subst.
    + destruct Hin as [->|[]]. now apply reaches_file.
    + destruct Hin as [->|[]]. now apply (reaches_below _ sub).
Qed.

Lemma meetsUnreadable_member (es : list DirEntry) :
  meetsUnreadable es <-> exists e, In e es /\ meetsUnreadable [e].
Proof.
  split.
  - intros H. destruct H as [es name code message Hin Hskip|es sub name Hin Hskip Hsub].
    + exists (UnreadableDirectory name code message). split; [assumption|].
      apply (unreadable_here _ name code message); [now left|assumption].
    + exists (DirectoryEntry name sub). split; [assumption|].
      apply (unreadable_below _ sub name); [now left|assumption|assumption].
  - intros (e & He & H).
    inversion H as [es' name code message Hin Hskip|es' sub name Hin Hskip Hsub];
      subst.
    + destruct Hin as [->|[]]. now apply (unreadable_here _ name code message).
    + destruct Hin as [->|[]]. now apply (unreadable_below _ sub name).
Qed.

Lemma relativeOf_join (bsegs : list str) (name : str) :
  forallb ordinary bsegs = true -> ordinary name = true ->
  relativeOf (join [slash] bsegs) name = join [slash] (bsegs ++ [name]).
Proof.
  intros Hb Hn. destruct bsegs as [|s bsegs]; [reflexivity|].
  unfold relativeOf.
  destruct (join_head (s :: bsegs) ltac:(discriminate) Hb) as (c & t & E & _).
  rewrite E at 1. now apply joinPaths_ordinary.
Qed.

Lemma scanEntries_lists (es : list DirEntry) :
  Forall listsReached es ->
  forall dirPath bsegs files,
    forallb ordinary bsegs = true -> forallb wellNamed es = true ->
    scanEntries dirPath (join [slash] bsegs) es = inr files ->
    forall f, In f files
              <-> exists segs, reaches es segs /\ f = join [slash] (bsegs ++ segs).
Proof.
  intros Hall dirPath bsegs files Hb Hnames Hscan f.
  destruct (scanLoop_inr _ _ _ Hscan) as [Hok Hin].
  rewrite Forall_forall in Hall, Hok. rewrite forallb_forall in Hnames.
  rewrite Hin. split.
  - intros (e & fs & He & Hs & Hf).
    destruct (proj1 (Hall e He dirPath bsegs fs Hb (Hnames e He) Hs f) Hf)
      as (segs & Hr & ->).
    exists segs. split; [|reflexivity]. apply reaches_member. now exists e.
  - intros (segs & Hr & ->). apply reaches_member in Hr as (e & He & Hr).
    destruct (Hok e He) as [fs Hs]. exists e, fs. repeat split; try assumption.
    apply (Hall e He dirPath bsegs fs Hb (Hnames e He) Hs). now exists segs.
Qed.

Lemma scanEntry_lists (e : DirEntry) : listsReached e.
Proof.
  induction e as [name|name sub IH|name code message|name]
    using DirEntry_nested_ind; intros dirPath bsegs files Hb Hnames; cbn [scanEntry].
  - cbn [wellNamed] in Hnames. rewrite (relativeOf_join _ _ Hb Hnames).
    intros [= <-] f. split.
    + destruct (isMarkdownName name) eqn:Emd; [|intros []].
      intros [<-|[]]. exists [name]. split; [|reflexivity].
      apply reaches_file; [now left|assumption].
    + intros (segs & Hr & ->).
      inversion Hr as [es' n Hin Hmd|es' sub' n segs' Hin Hskip Hsub]; subst.
      * destruct Hin as [[= <-]|[]]. rewrite Hmd. now left.
      * destruct Hin as [Hin|[]]. discriminate Hin.
  - cbn [wellNamed] in Hnames. apply andb_true_iff in Hnames as [Hname Hsub].
    destruct (isSkippedDirectory name) eqn:Eskip.
    + intros [= <-] f. split; [intros []|].
      intros (segs & Hr & _).
      inversion Hr as [es' n Hin Hmd|es' sub' n segs' Hin Hskip Hsub']; subst.
      * destruct Hin as [Hin|[]]. discriminate Hin.
      * destruct Hin as [[= <- <-]|[]]. congruence.
    + rewrite (relativeOf_join _ _ Hb Hname).
      fold (scanEntries (Path.joinPaths [dirPath; name])
              (join [slash] (bsegs ++ [name])) sub).
      destruct (scanEntries (Path.joinPaths [dirPath; name])
                  (join [slash] (bsegs ++ [name])) sub) as [m|fs] eqn:Es;
        [discriminate|].
      intros [= <-] f.
      assert (Hb' : forallb ordinary (bsegs ++ [name]) = true).
      { rewrite forallb_app, Hb. cbn [forallb]. now rewrite Hname. }
      rewrite (scanEntries_lists sub IH _ _ _ Hb' Hsub Es f). split.
      * intros (segs & Hr & ->). exists (name :: segs). split.
        -- apply (reaches_below _ sub); [now left|assumption|assumption].
        -- now rewrite <- app_assoc.
      * intros (segs & Hr & ->).
        inversion Hr as [es' n Hin Hmd|es' sub' n segs' Hin Hskip Hsub']; subst.
        -- destruct Hin as [Hin|[]]. discriminate Hin.
        -- destruct Hin as [[= <- <-]|[]]. exists segs'. split; [assumption|].
           now rewrite <- app_assoc.
  - destruct (isSkippedDirectory name); [|discriminate].
    intros [= <-] f. split; [intros []|].
    intros (segs & Hr & _).
    inversion Hr as [es' n Hin Hmd|es' sub' n segs' Hin Hskip Hsub']; subst;
      destruct Hin as [Hin|[]]; discriminate Hin.
  - intros [= <-] f. split; [intros []|].
    intros (segs & Hr & _).
    inversion Hr as [es' n Hin Hmd|es' sub' n segs' Hin Hskip Hsub']; subst;
      destruct Hin as [Hin|[]]; discriminate Hin.
Qed.

Lemma scanEntry_fails (e : DirEntry) :
  forall dirPath basePath,
    (exists m, scanEntry dirPath basePath e = inl m) <-> meetsUnreadable [e].
Proof.
  induction e as [name|name sub IH|name code message|name]
    using DirEntry_nested_ind; intros dirPath basePath; cbn [scanEntry].
  - split; [intros [m H]; discriminate|].
    intros H. inversion H as [es n c m' Hin Hs|es sub' n Hin Hs Hsub]; subst;
      destruct Hin as [Hin|[]]; discriminate Hin.
  - destruct (isSkippedDirectory name) eqn:Eskip.
    + split; [intros [m H]; discriminate|].
      intros H. inversion H as [es n c m' Hin Hs|es sub' n Hin Hs Hsub]; subst.
      * destruct Hin as [Hin|[]]. discriminate Hin.
      * destruct Hin as [[= <- <-]|[]]. congruence.
    + set (full := Path.joinPaths [dirPath; name]).
      set (rel := relativeOf basePath name).
      assert (Hloop : (exists m, scanLoop (scanEntry full rel) sub = inl m)
                      <-> meetsUnreadable sub).
      { rewrite scanLoop_inl, meetsUnreadable_member.
        rewrite Forall_forall in IH. split.
        - intros (e & m & He & Hs). exists e. split; [assumption|].
          apply (IH e He full rel). now exists m.
        - intros (e & He & Hu). apply (IH e He full rel) in Hu as [m Hs].
          now exists e, m. }
      split.
      * intros [m H]. apply (unreadable_below _ sub name); [now left|assumption|].
        apply Hloop.
        destruct (scanLoop (scanEntry full rel) sub) as [m'|fs];
          [now exists m'|discriminate].
      * intros H.
        inversion H as [es n c m' Hin Hs|es sub' n Hin Hs Hsub]; subst.
        -- destruct Hin as [Hin|[]]. discriminate Hin.
        -- destruct Hin as [[= <- <-]|[]].
           apply Hloop in Hsub as [m Hm]. rewrite Hm. eexists. reflexivity.
  - destruct (isSkippedDirectory name) eqn:Eskip.
    + split; [intros [m H]; discriminate|].
      intros H. inversion H as [es n c m' Hin Hs|es sub' n Hin Hs Hsub]; subst.
      * destruct Hin as [[= <- <- <-]|[]]. congruence.
      * destruct Hin as [Hin|[]]. discriminate Hin.
    + split; [|intros _; eexists; reflexivity].
      intros _. apply (unreadable_here _ name code message); [now left|assumption].
  - split; [intros [m H]; discriminate|].
    intros H. inversion H as [es n c m' Hin Hs|es sub' n Hin Hs Hsub]; subst;
      destruct Hin as [Hin|[]]; discriminate Hin.
Qed.

End WalkFacts.

Section WalkClaims.

Import IndexerFs.

(** X9.  Where the names are those [readdir] gives and the scan returns,
    it returns exactly the markdown files that are reached through
    directories whose name neither starts with a dot nor is [node_modules],
    each as the names on the way to it joined by slashes.  A file whose own
    name starts with a dot is not skipped. *)
Theorem scanDirectory_lists (docsPath : str) (entries : list DirEntry)
  (files : list str) :
  forallb wellNamed entries = true ->
  scanDirectory docsPath [] (Readable entries) = inr files ->
  forall f, In f files
            <-> exists segs, reaches entries segs /\ f = join [slash] segs.
Proof.
  intros Hnames Hscan f. unfold scanDirectory in Hscan.
  destruct (scanEntries docsPath [] entries) as [m|fs] eqn:Es; [discriminate|].
  injection Hscan as <-.
  assert (Hall : Forall listsReached entries)
    by (apply Forall_forall; intros e _; apply scanEntry_lists).
  exact (scanEntries_lists entries Hall docsPath [] fs eq_refl Hnames Es f).
Qed.

Lemma scanDirectory_lists_witness :
  let entries :=
    [ FileEntry (L "README.md"); FileEntry (L ".hidden.md");
      FileEntry (L "notes.txt");
      DirectoryEntry (L ".git") [FileEntry (L "x.md")];
      DirectoryEntry (L "node_modules") [FileEntry (L "y.md")];
      DirectoryEntry (L "guide")
        [ FileEntry (L "Intro.MDX");
          DirectoryEntry (L "deep") [FileEntry (L "a.markdown")] ] ] in
  scanDirectory (L "/w/.docs/r-docs") [] (Readable entries)
  = inr [L "README.md"; L ".hidden.md"; L "guide/Intro.MDX";
         L "guide/deep/a.markdown"]
  /\ exists segs, reaches entries segs /\ L ".hidden.md" = join [slash] segs.
Proof.
  intros entries.
  assert (Hscan : scanDirectory (L "/w/.docs/r-docs") [] (Readable entries)
                  = inr [L "README.md"; L ".hidden.md"; L "guide/Intro.MDX";
                         L "guide/deep/a.markdown"]) by (vm_compute; reflexivity).
  split; [exact Hscan|].
  apply (scanDirectory_lists _ entries _ eq_refl Hscan (L ".hidden.md")).
  right. now left.
Defined.

(** X10.  The scan of a readable directory fails exactly when the walk
    comes to a directory it cannot read: one unreadable directory below a
    directory that is not skipped voids the whole scan, and an unreadable
    directory below a skipped one does not matter. *)
Theorem scanDirectory_fails (docsPath basePath : str) (entries : list DirEntry) :
  (exists m, scanDirectory docsPath basePath (Readable entries) = inl m)
  <-> meetsUnreadable entries.
Proof.
  unfold scanDirectory, scanEntries.
  assert (Hloop : (exists m, scanLoop (scanEntry docsPath basePath) entries = inl m)
                  <-> meetsUnreadable entries).
  { rewrite scanLoop_inl, meetsUnreadable_member. split.
    - intros (e & m & He & Hs). exists e. split; [assumption|].
      apply (scanEntry_fails e docsPath basePath). now exists m.
    - intros (e & He & Hu). apply (scanEntry_fails e docsPath basePath) in Hu as [m Hs].
      now exists e, m. }
  rewrite <- Hloop.
  destruct (scanLoop (scanEntry docsPath basePath) entries) as [m|fs].
  - split; intros _; eexists; reflexivity.
  - split; intros [m H]; discriminate.
Qed.

End WalkClaims.

(** ** The index of a docs directory *)

Section IndexOfDirectory.

Import Indexer IndexerFs.

Lemma dropWhile_all_inv (p : ascii -> bool) (s : str) :
  dropWhile p s = [] -> forallb p s = true.
Proof.
  induction s as [|c s IH]; cbn [dropWhile forallb]; [reflexivity|].
  destruct (p c); [exact IH|discriminate].
Qed.

Lemma dropEndWhile_all_inv (p : ascii -> bool) (s : str) :
  dropEndWhile p s = [] -> forallb p s = true.
Proof.
  intros H. destruct (dropEndWhile_split p s) as (w & Hs & Hw).
  rewrite H in Hs. cbn in Hs. now subst w.
Qed.

(** A text with a character that is no white space is not blank. *)
Lemma trim_not_blank (s : str) (c : ascii) :
  In c s -> isSpace c = false -> trim s <> [].
Proof.
  intros Hin Hc Htrim. unfold trim, trimEnd, trimStart in Htrim.
  apply dropEndWhile_all_inv in Htrim.
  pose proof (takeWhile_dropWhile isSpace s) as Hs.
  pose proof (takeWhile_forallb isSpace s) as Hw.
  rewrite Hs in Hin. apply in_app_or in Hin.
  rewrite forallb_forall in Htrim, Hw.
  destruct Hin as [Hin|Hin];
    [rewrite (Hw c Hin) in Hc|rewrite (Htrim c Hin) in Hc]; discriminate.
Qed.

Lemma join_first_line (line : str) (rest : list str) (c : ascii) :
  In c line -> In c (join [nl] (line :: rest)).
Proof.
  intros Hin. destruct rest; cbn [join]; [assumption|].
  apply in_or_app. now left.
Qed.

Lemma indexLine_colon (rootName dir : str) (files : list str) :
  In ":"%char (indexLine rootName dir files).
Proof.
  unfold indexLine. apply in_or_app. right. now left.
Qed.

Lemma groupByDirectory_nonempty (file : str) (files : list str)
  (g : IndexedDirectory) :
  groupByDirectory (file :: files) = Some g -> keys g <> [].
Proof.
  intros Hg.
  destruct (groupInto_lookup (file :: files) [] g (NoDup_nil _) Hg) as [_ Hl].
  specialize (Hl (dirKeyOf file)). unfold namesUnder in Hl. cbn [filter] in Hl.
  rewrite str_eqb_refl in Hl. cbn in Hl.
  intros Hk. apply lookup_some_keys in Hl. rewrite Hk in Hl. destruct Hl.
Qed.

Lemma validateSourceName_errors (id : str) (e : Generator.Error) :
  Generator.validateSourceName id = inl e -> e <> Generator.EmptyIndex.
Proof.
  unfold Generator.validateSourceName. destruct id as [|c id]; [now intros [= <-]|].
  destruct (trim (c :: id)); [now intros [= <-]|].
  destruct (100 <? length (c :: id)); [now intros [= <-]|].
  destruct (includes (L "-->") (c :: id) || includes (L "<!--") (c :: id));
    [now intros [= <-]|discriminate].
Qed.

Lemma updateContent_errors (doc id block : str) (e : Generator.Error) :
  Generator.updateContent doc id block = inl e -> e = Generator.MalformedBlock id.
Proof.
  unfold Generator.updateContent.
  destruct (indexOf (Generator.getStartMarker id) doc);
    destruct (indexOf (Generator.getEndMarker id) doc);
    try discriminate; [|now intros [= <-]].
  destruct (_ <? _); discriminate.
Qed.

(** X11.  The index [createIndex] returns is never blank, so that
    [generateAgentsMd], which the command line calls with it, never rejects
    it as an empty index. *)
Theorem createIndex_not_blank (localeCompare : str -> str -> comparison)
  (docsPath index : str) (state : PathState) :
  createIndex localeCompare docsPath state = inr index ->
  trim index <> []
  /\ forall newFileContent relativePath file id e file',
       Generator.generateAgentsMd newFileContent relativePath file id index
       = (inl e, file') ->
       e <> Generator.EmptyIndex.
Proof.
  intros Hindex.
  assert (Htrim : trim index <> []).
  { unfold createIndex in Hindex.
    destruct state as [|message| |listing]; try discriminate.
    destruct (scanDirectory docsPath [] listing) as [m|[|file files]];
      try discriminate.
    destruct (groupByDirectory (file :: files)) as [g|] eqn:Eg; [|discriminate].
    injection Hindex as <-.
    pose proof (groupByDirectory_nonempty _ _ _ Eg) as Hkeys.
    unfold generateCompressedIndex, indexLines, sortedDirs.
    pose proof (sortBy_perm (dirCompare localeCompare) (keys g)) as Hperm.
    destruct (sortBy (dirCompare localeCompare) (keys g)) as [|dir dirs].
    - apply Permutation_nil in Hperm. congruence.
    - cbn [map]. apply (trim_not_blank _ ":"%char); [|reflexivity].
      apply join_first_line, indexLine_colon. }
  split; [exact Htrim|].
  intros nfc rel file id e file'. unfold Generator.generateAgentsMd.
  destruct (Generator.validateSourceName id) eqn:Ev.
  - intros [= <- _]. exact (validateSourceName_errors _ _ Ev).
  - destruct index as [|c index]; [now cbn in Htrim|].
    destruct (trim (c :: index)); [congruence|].
    destruct file as [doc|]; [|discriminate].
    destruct (Generator.updateContent doc id _) as [e'|d] eqn:Eu; [|discriminate].
    intros [= <- _]. now rewrite (updateContent_errors _ _ _ _ Eu).
Qed.

Lemma createIndex_not_blank_witness :
  let state := IsDirectory (Readable [FileEntry (L "README.md")]) in
  createIndex codeUnitCompare (L "/w/.docs/r-docs") state
  = inr (L "r-docs:{README.md}")
  /\ trim (L "r-docs:{README.md}") <> [].
Proof.
  intros state.
  assert (H : createIndex codeUnitCompare (L "/w/.docs/r-docs") state
              = inr (L "r-docs:{README.md}")) by reflexivity.
  split; [exact H|].
  exact (proj1 (createIndex_not_blank codeUnitCompare (L "/w/.docs/r-docs") _
                  state H)).
Defined.

(** A character of a joined string is one of the separator or of a
    part. *)
Lemma join_chars (sep : str) (parts : list str) (c : ascii) :
  In c (join sep parts) -> In c sep \/ exists p, In p parts /\ In c p.
Proof.
  induction parts as [|p parts IH]; [intros []|].
  destruct parts as [|q parts].
  - intros H. right. exists p. split; [now left|assumption].
  - rewrite join_cons by discriminate. intros H.
    apply in_app_or in H as [H|H]; [right; exists p; split; [now left|assumption]|].
    apply in_app_or in H as [H|H]; [now left|].
    destruct (IH H) as [Hs|(r & Hr & Hc)]; [now left|].
    right. exists r. split; [now right|assumption].
Qed.

Lemma filedPairs_pushTo (k b : str) (g : IndexedDirectory) (v : list str) :
  lookup k g = Some v ->
  Permutation (filedPairs (pushTo k b g)) (filedPairs g ++ [(k, b)]).
Proof.
  induction g as [|[k' v'] g IH]; cbn [lookup pushTo]; [discriminate|].
  destruct (str_eqb k' k) eqn:E.
  - intros _. apply str_eqb_eq in E. subst k'.
    unfold filedPairs. cbn [flat_map fst snd]. rewrite map_app. cbn [map].
    rewrite <- !app_assoc. apply Permutation_app_head.
    apply Permutation_app_comm.
  - intros H. unfold filedPairs in *. cbn [flat_map fst snd].
    rewrite <- app_assoc. apply Permutation_app_head. exact (IH H).
Qed.

Lemma filedPairs_insertIndexKey (n : N) (e : str * list str)
  (g : IndexedDirectory) :
  Permutation (filedPairs (insertIndexKey n e g)) (filedPairs g ++ filedPairs [e]).
Proof.
  induction g as [|[k' v'] g IH]; cbn [insertIndexKey].
  - reflexivity.
  - assert (Hhead : Permutation (filedPairs (e :: (k', v') :: g))
                      (filedPairs ((k', v') :: g) ++ filedPairs [e])).
    { unfold filedPairs. cbn [flat_map]. rewrite app_nil_r.
      apply Permutation_app_comm. }
    destruct (arrayIndex k') as [m|]; [destruct (m <? n)%N|]; try exact Hhead.
    unfold filedPairs in *. cbn [flat_map fst snd] in *.
    rewrite <- app_assoc. apply Permutation_app_head. exact IH.
Qed.

Lemma filedPairs_setNew (k : str) (v : list str) (g : IndexedDirectory) :
  Permutation (filedPairs (setNew k v g)) (filedPairs g ++ map (pair k) v).
Proof.
  unfold setNew. destruct (arrayIndex k).
  - rewrite filedPairs_insertIndexKey. unfold filedPairs at 2.
    cbn [flat_map fst snd]. now rewrite app_nil_r.
  - unfold filedPairs. rewrite flat_map_app. cbn [flat_map fst snd].
    now rewrite app_nil_r.
Qed.

(** Grouping files every file under its directory key, once. *)
Lemma groupInto_filedPairs (files : list str) :
  forall g0 g,
    groupInto g0 files = Some g ->
    Permutation (filedPairs g)
      (filedPairs g0 ++ map (fun f => (dirKeyOf f, Path.basename f)) files).
Proof.
  induction files as [|file files IH]; intros g0 g.
  - intros [= <-]. cbn [map]. now rewrite app_nil_r.
  - rewrite groupInto_step.
    destruct (lookup (dirKeyOf file) g0) as [v0|] eqn:Ek.
    + intros Hg. rewrite (IH _ _ Hg), (filedPairs_pushTo _ _ _ _ Ek).
      cbn [map]. now rewrite <- app_assoc.
    + destruct (existsb (str_eqb (dirKeyOf file)) inheritedNames); [discriminate|].
      intros Hg. rewrite (IH _ _ Hg), filedPairs_setNew.
      cbn [map]. now rewrite <- app_assoc.
Qed.

Lemma namesUnder_nil (key : str) (files : list str) :
  namesUnder key files = [] <-> ~ In key (map dirKeyOf files).
Proof.
  unfold namesUnder. induction files as [|f files IH]; cbn [filter map].
  - split; [intros _ []|reflexivity].
  - destruct (str_eqb (dirKeyOf f) key) eqn:E; cbn [map].
    + apply str_eqb_eq in E. split; [discriminate|].
      intros H. exfalso. apply H. now left.
    + rewrite IH. split.
      * intros H [Hk|Hk]; [|now apply H].
        rewrite Hk, str_eqb_refl in E. discriminate.
      * intros H Hk. apply H. now right.
Qed.

(** The keys of the mapping are the directory keys of the files. *)
Lemma groupByDirectory_keys (files : list str) (g : IndexedDirectory) :
  groupByDirectory files = Some g ->
  NoDup (keys g)
  /\ (forall key, In key (keys g) <-> In key (map dirKeyOf files))
  /\ length (keys g) = length (distinctDirectories files).
Proof.
  intros Hg.
  destruct (groupInto_lookup files [] g (NoDup_nil _) Hg) as [Hnd Hl].
  assert (Hkeys : forall key, In key (keys g) <-> In key (map dirKeyOf files)).
  { intros key. specialize (Hl key). cbn [lookup filedUnder] in Hl.
    destruct (namesUnder key files) as [|n names] eqn:En.
    - apply namesUnder_nil in En. split; [|contradiction].
      intros Hin. exfalso. exact (lookup_none_keys _ _ Hl Hin).
    - split; intros _.
      + destruct (in_dec str_dec key (map dirKeyOf files)) as [H|H]; [exact H|].
        apply namesUnder_nil in H. congruence.
      + exact (lookup_some_keys _ _ _ Hl). }
  split; [exact Hnd|]. split; [exact Hkeys|].
  apply Permutation_length, NoDup_Permutation; [exact Hnd|apply NoDup_nodup|].
  intros key. unfold distinctDirectories. rewrite nodup_In. apply Hkeys.
Qed.


Lemma splitOn_whole (c : ascii) (s : str) : ~ In c s -> splitOn c s = [s].
Proof.
  induction s as [|x s IH]; cbn [splitOn]; [reflexivity|].
  intros H. destruct (Ascii.eqb_spec x c) as [->|_]; [exfalso; apply H; now left|].
  rewrite IH; [reflexivity|]. intros Hin. apply H. now right.
Qed.

Lemma splitOn_first (c : ascii) (s t : str) :
  ~ In c s -> splitOn c (s ++ c :: t) = s :: splitOn c t.
Proof.
  induction s as [|x s IH]; cbn [splitOn app].
  - now rewrite Ascii.eqb_refl.
  - intros H. destruct (Ascii.eqb_spec x c) as [->|_]; [exfalso; apply H; now left|].
    rewrite IH; [reflexivity|]. intros Hin. apply H. now right.
Qed.

(** Splitting at the separator gives back the parts that were joined, where
    no part holds the separator. *)
Lemma splitOn_joined (c : ascii) (parts : list str) :
  parts <> [] -> (forall p, In p parts -> ~ In c p) ->
  splitOn c (join [c] parts) = parts.
Proof.
  induction parts as [|p parts IH]; [congruence|]. intros _ Hfree.
  destruct parts as [|q parts].
  - apply splitOn_whole, Hfree. now left.
  - rewrite join_cons by discriminate. cbn [app].
    rewrite splitOn_first by (apply Hfree; now left).
    f_equal. apply IH; [discriminate|]. intros r Hr. apply Hfree. now right.
Qed.

Lemma in_takeWhile (p : ascii -> bool) (s : str) (c : ascii) :
  In c (takeWhile p s) -> In c s.
Proof.
  induction s as [|x s IH]; cbn [takeWhile]; [trivial|].
  destruct (p x); [|intros []]. intros [->|H]; [now left|right; now apply IH].
Qed.

Lemma in_dropWhile (p : ascii -> bool) (s : str) (c : ascii) :
  In c (dropWhile p s) -> In c s.
Proof.
  induction s as [|x s IH]; cbn [dropWhile]; [trivial|].
  destruct (p x); [|trivial]. intros H. right. now apply IH.
Qed.

Lemma in_basename (p : str) (c : ascii) : In c (Path.basename p) -> In c p.
Proof.
  unfold Path.basename. rewrite <- in_rev. intros H.
  apply in_takeWhile, in_dropWhile in H. now apply in_rev.
Qed.

(** A directory name holds characters of the path, a dot or a slash. *)
Lemma in_dirname (p : str) (c : ascii) :
  In c (Path.dirname p) -> In c p \/ c = "."%char \/ c = slash.
Proof.
  unfold Path.dirname. destruct p as [|c0 body].
  - intros [<-|[]]. right. now left.
  - destruct (dropWhile notSlash (dropWhile isSlash (rev body))) as [|x restRev] eqn:E.
    + destruct (isSlash c0); intros [<-|[]]; right; [now right|now left].
    + assert (Hrest : forall y, In y restRev -> In y body).
      { intros y Hy. apply in_rev.
        apply (in_dropWhile isSlash), (in_dropWhile notSlash). rewrite E. now right. }
      destruct restRev as [|y restRev'].
      * destruct (isSlash c0).
        -- intros [<-|[<-|[]]]; right; now right.
        -- intros [<-|[]]. left. now left.
      * intros [<-|H]; [left; now left|].
        left. right. apply Hrest. now apply in_rev.
Qed.

Lemma in_dirKeyOf (f : str) (c : ascii) :
  In c (dirKeyOf f) -> In c f \/ c = "."%char \/ c = slash.
Proof.
  unfold dirKeyOf. destruct (str_eqb (Path.dirname f) (L ".")); [intros []|].
  apply in_dirname.
Qed.

Lemma in_normalizeSeparators (dir : str) (c : ascii) :
  In c (normalizeSeparators dir) -> In c dir \/ c = slash.
Proof.
  unfold normalizeSeparators. rewrite in_map_iff. intros (x & Hx & Hin).
  destruct (Ascii.eqb x "\"%char); [now right|]. subst x. now left.
Qed.

(** A line of the index holds no newline, where the root name, the key and
    the file names hold none. *)
Lemma indexLine_one_line (rootName dir : str) (files : list str) :
  ~ In nl rootName -> ~ In nl dir -> (forall f, In f files -> ~ In nl f) ->
  ~ In nl (indexLine rootName dir files).
Proof.
  intros Hroot Hdir Hfiles. unfold indexLine.
  assert (Hdisplay : ~ In nl (match dir with
                              | [] => rootName
                              | _ => rootName ++ [slash] ++ normalizeSeparators dir
                              end)).
  { destruct dir as [|d dir]; [exact Hroot|].
    intros H. apply in_app_or in H as [H|H]; [now apply Hroot|].
    apply in_app_or in H as [[H|[]]|H]; [discriminate H|].
    apply in_normalizeSeparators in H as [H|H]; [now apply Hdir|discriminate H]. }
  intros H. apply in_app_or in H as [H|H]; [now apply Hdisplay|].
  apply in_app_or in H as [H|H];
    [destruct H as [H|[H|[]]]; discriminate H|].
  apply in_app_or in H as [H|H]; [|destruct H as [H|[]]; discriminate H].
  apply join_chars in H as [[H|[]]|(f & Hf & Hc)]; [discriminate H|].
  exact (Hfiles f Hf Hc).
Qed.


(** X12.  The counts of [getIndexStats]: the file count is the number of
    files the scan lists, the directory count the number of distinct
    directory keys among them, which is the number of keys of the mapping;
    the mapping files every listed file under its directory key, none lost
    and none twice.  Where no path holds a newline, the text [createIndex]
    returns for the same directory has as many lines as directories were
    counted. *)
Theorem getIndexStats_counts (localeCompare : str -> str -> comparison)
  (docsPath : str) (listing : Listing) (fileCount dirCount : nat) :
  getIndexStats docsPath listing = inr (fileCount, dirCount) ->
  exists files grouped,
    scanDirectory docsPath [] listing = inr files
    /\ groupByDirectory files = Some grouped
    /\ fileCount = length files
    /\ dirCount = length (distinctDirectories files)
    /\ NoDup (keys grouped)
    /\ Permutation (filedPairs grouped)
         (map (fun f => (dirKeyOf f, Path.basename f)) files)
    /\ (files <> [] -> ~ In nl docsPath ->
        (forall f, In f files -> ~ In nl f) ->
        exists index,
          createIndex localeCompare docsPath (IsDirectory listing) = inr index
          /\ length (splitOn nl index) = dirCount).
Proof.
  unfold getIndexStats, createIndex.
  destruct (scanDirectory docsPath [] listing) as [m|files]; [discriminate|].
  destruct (groupByDirectory files) as [g|] eqn:Eg; [|discriminate].
  intros [= <- <-]. exists files, g.
  destruct (groupByDirectory_keys files g Eg) as (Hnd & Hkeys & Hcount).
  destruct (groupInto_lookup files [] g (NoDup_nil _) Eg) as [_ Hl].
  split; [reflexivity|]. split; [exact Eg|]. split; [reflexivity|].
  split; [exact Hcount|]. split; [exact Hnd|].
  split; [exact (groupInto_filedPairs files [] g Eg)|].
  intros Hfiles Hpath Hnames.
  destruct files as [|file files]; [congruence|].
  eexists. split; [reflexivity|].
  unfold generateCompressedIndex.
  pose proof (sortBy_perm (dirCompare localeCompare) (keys g)) as Hperm.
  rewrite splitOn_joined.
  - unfold indexLines, sortedDirs. rewrite length_map.
    now apply Permutation_length.
  - unfold indexLines, sortedDirs.
    pose proof (groupByDirectory_nonempty _ _ _ Eg) as Hne.
    intros Hnil. apply map_eq_nil in Hnil. rewrite Hnil in Hperm.
    apply Permutation_nil in Hperm. congruence.
  - intros line Hline. unfold indexLines in Hline.
    apply in_map_iff in Hline as (dir & <- & Hdir).
    unfold sortedDirs in Hdir. apply (Permutation_in _ Hperm) in Hdir.
    apply indexLine_one_line.
    + intros H. apply Hpath. now apply in_basename.
    + apply Hkeys, in_map_iff in Hdir as (f & <- & Hf).
      intros H. apply in_dirKeyOf in H as [H|[H|H]];
        [exact (Hnames f Hf H)|discriminate H|discriminate H].
    + intros name Hname.
      apply (Permutation_in _ (sortBy_perm codeUnitCompare _)) in Hname.
      rewrite Hl in Hname. cbn [lookup filedUnder] in Hname.
      assert (Hin : In name (namesUnder dir (file :: files)))
        by (destruct (namesUnder dir (file :: files)); [destruct Hname|exact Hname]).
      unfold namesUnder in Hin. apply in_map_iff in Hin as (f & <- & Hf).
      apply filter_In in Hf as [Hf _].
      intros H. apply (Hnames f Hf). now apply in_basename.
Qed.

Lemma getIndexStats_counts_witness :
  let listing :=
    Readable [ FileEntry (L "README.md");
               DirectoryEntry (L "guide")
                 [FileEntry (L "a.md"); FileEntry (L "b.md")] ] in
  getIndexStats (L "/w/.docs/r-docs") listing = inr (3, 2)
  /\ exists index,
       createIndex rootCollation (L "/w/.docs/r-docs") (IsDirectory listing)
       = inr index
       /\ length (splitOn nl index) = 2.
Proof.
  intros listing. split; [reflexivity|].
  destruct (getIndexStats_counts rootCollation (L "/w/.docs/r-docs") listing 3 2
              eq_refl)
    as (files & grouped & Hscan & _ & _ & _ & _ & _ & Hlines).
  injection Hscan as <-.
  apply Hlines; [discriminate| |].
  - vm_compute. intuition discriminate.
  - intros f Hf. vm_compute in Hf. vm_compute.
    intuition (subst; intuition discriminate).
Defined.

End IndexOfDirectory.

(** ** Source names *)

Section SourceNames.

Import Downloader Generator.

Lemma occ_incl (n h : str) (i : nat) (c : ascii) :
  occ n h i -> In c n -> In c h.
Proof.
  intros Hocc Hc. destruct n as [|x n]; [destruct Hc|].
  destruct (occ_decompose _ _ _ Hocc ltac:(discriminate)) as (a & b & -> & _).
  apply in_or_app. right. apply in_or_app. now left.
Qed.

Lemma includes_without (n h : str) (c : ascii) :
  In c n -> ~ In c h -> includes n h = false.
Proof.
  intros Hc Hh. unfold includes. destruct (indexOf n h) as [i|] eqn:E; [|reflexivity].
  exfalso. apply Hh. exact (occ_incl _ _ _ _ (indexOf_occ _ _ _ E) Hc).
Qed.

Lemma trimEnd_no_space (s : str) : forallb notSpace s = true -> trimEnd s = s.
Proof.
  unfold trimEnd. induction s as [|c s IH]; cbn [forallb dropEndWhile]; [reflexivity|].
  rewrite andb_true_iff. intros [Hc Hs]. rewrite (IH Hs).
  unfold notSpace in Hc. apply negb_true_iff in Hc. rewrite Hc.
  now destruct s.
Qed.

Lemma trim_no_space (s : str) : forallb notSpace s = true -> trim s = s.
Proof.
  intros Hs. unfold trim, trimStart.
  assert (Hd : dropWhile isSpace s = s).
  { destruct s as [|c s]; [reflexivity|]. cbn [forallb] in Hs.
    apply andb_true_iff in Hs as [Hc _]. unfold notSpace in Hc.
    apply negb_true_iff in Hc. cbn [dropWhile]. now rewrite Hc. }
  rewrite Hd. now apply trimEnd_no_space.
Qed.

(** A character of a generated name is a small letter, a digit or a
    hyphen: no white space and no angle bracket. *)
Lemma hyphenated_char (c : ascii) :
  let n := nat_of_ascii c in
  let c' := if ((97 <=? n) && (n <=? 122)) || ((48 <=? n) && (n <=? 57))
               || (n =? 45) then c else "-"%char in
  notSpace c' = true /\ c' <> ">"%char /\ c' <> "<"%char.
Proof.
  destruct c as [[] [] [] [] [] [] [] []]; vm_compute;
    repeat split; discriminate.
Qed.

Lemma generateSourceName_chars (owner repo : str) :
  forallb notSpace (generateSourceName owner repo) = true
  /\ ~ In ">"%char (generateSourceName owner repo)
  /\ ~ In "<"%char (generateSourceName owner repo).
Proof.
  unfold generateSourceName. generalize (toLowerCase (repo ++ L "-docs")).
  intros s. induction s as [|c s (IH1 & IH2 & IH3)]; cbn [map forallb].
  - repeat split; intros [].
  - destruct (hyphenated_char c) as (H1 & H2 & H3). cbv zeta in H1, H2, H3.
    rewrite H1, IH1. repeat split; intros [E|E]; auto.
Qed.

Lemma generateSourceName_class (owner repo : str) :
  forallb sourceNameChar (generateSourceName owner repo) = true.
Proof.
  unfold generateSourceName. generalize (toLowerCase (repo ++ L "-docs")).
  intros s. induction s as [|c s IH]; [reflexivity|].
  cbn [map forallb]. rewrite IH, andb_true_r.
  fold (sourceNameChar c). destruct (sourceNameChar c) eqn:E; [exact E|reflexivity].
Qed.

Lemma generateSourceName_suffix (owner repo : str) :
  exists stem, generateSourceName owner repo = stem ++ L "-docs".
Proof.
  unfold generateSourceName, toLowerCase. rewrite !map_app.
  eexists. reflexivity.
Qed.

(** X13.  The name [generateSourceName] derives from a repository holds
    small letters, digits and hyphens only and ends in [-docs], so that of
    the checks of [validateSourceName] only the one on the length can fail:
    the name passes exactly when it has at most 100 characters, and a
    longer one is rejected as too long. *)
Theorem generateSourceName_validated (owner repo : str) :
  let name := generateSourceName owner repo in
  forallb sourceNameChar name = true
  /\ endsWith (L "-docs") name = true
  /\ validateSourceName name
     = if 100 <? length name then inl SourceNameTooLong else inr tt.
Proof.
  intros name. subst name.
  destruct (generateSourceName_chars owner repo) as (Hsp & Hgt & Hlt).
  destruct (generateSourceName_suffix owner repo) as [stem Hstem].
  split; [apply generateSourceName_class|]. split.
  - rewrite Hstem. apply endsWith_app.
  - unfold validateSourceName. rewrite (trim_no_space _ Hsp).
    destruct (generateSourceName owner repo) as [|c s] eqn:E;
      [now destruct stem|].
    rewrite (includes_without (L "-->") (c :: s) ">"%char
               (or_intror (or_intror (or_introl eq_refl))) Hgt).
    rewrite (includes_without (L "<!--") (c :: s) "<"%char (or_introl eq_refl) Hlt).
    reflexivity.
Qed.

End SourceNames.

(** ** What the URL resolver returns *)

Section ParsedUrls.

Import Downloader.

Lemma takeWhile_segment (p : ascii -> bool) (s : str) (c : ascii) (t : str) :
  takeWhile p s = c :: t -> forallb p (c :: t) = true.
Proof. intros <-. apply takeWhile_forallb. Qed.

Lemma matchHere_segments (s : str) (m : ParsedGitHubUrl) :
  matchHere s = Some m ->
  startsWith (L "github.com/") s = true
  /\ segment (owner m) = true /\ segment (repo m) = true
  /\ forallb notSlash (branch m) = true.
Proof.
  unfold matchHere.
  destruct (startsWith (L "github.com/") s); [|discriminate].
  destruct (takeWhile notSlash (skipn 11 s)) as [|c1 g1] eqn:E1; [discriminate|].
  destruct (dropWhile notSlash (skipn 11 s)) as [|d r2]; [discriminate|].
  destruct (takeWhile notSlash r2) as [|c2 g2] eqn:E2; [discriminate|].
  pose proof (takeWhile_segment _ _ _ _ E1) as H1.
  pose proof (takeWhile_segment _ _ _ _ E2) as H2.
  destruct (startsWith (L "/tree/") (dropWhile notSlash r2));
    intros [= <-]; cbn [owner repo branch segment];
    repeat split; try assumption.
  apply takeWhile_forallb.
Qed.

Lemma matchUrl_found (s : str) (m : ParsedGitHubUrl) :
  matchUrl s = Some m ->
  exists q, occ (L "github.com/") s q /\ matchHere (skipn q s) = Some m.
Proof.
  induction s as [|c s IH]; cbn [matchUrl].
  - destruct (matchHere []) eqn:E; [|discriminate]. intros [= <-].
    exists 0. split; [|exact E]. exact (proj1 (matchHere_segments _ _ E)).
  - destruct (matchHere (c :: s)) eqn:E.
    + intros [= <-]. exists 0. split; [|exact E].
      exact (proj1 (matchHere_segments _ _ E)).
    + intros H. destruct (IH H) as (q & Hq & Hm). now exists (S q).
Qed.

(** X14.  Whatever [parseGitHubUrl] returns, the owner and the repository
    are not empty and hold no slash, and the branch holds no slash. *)
Theorem parseGitHubUrl_segments (url : str) (parsed : ParsedGitHubUrl) :
  parseGitHubUrl url = Some parsed ->
  segment (owner parsed) = true /\ segment (repo parsed) = true
  /\ forallb notSlash (branch parsed) = true.
Proof.
  intros H. destruct (matchUrl_found _ _ H) as (q & _ & Hm).
  exact (proj2 (matchHere_segments _ _ Hm)).
Qed.

Lemma parseGitHubUrl_segments_witness :
  segment (L "vercel") = true /\ segment (L "next.js") = true
  /\ forallb notSlash (L "canary") = true.
Proof.
  exact (parseGitHubUrl_segments
           (L "  github.com/vercel/next.js/tree/canary/docs/  ")
           {| owner := L "vercel"; repo := L "next.js"; branch := L "canary" |}
           eq_refl).
Defined.

Lemma occ_firstn (n w : str) (k q : nat) :
  n <> [] -> occ n (firstn k w) q -> occ n w q.
Proof.
  intros Hn Hocc. pose proof (occ_bound _ _ _ Hocc Hn) as Hb.
  rewrite <- (firstn_skipn k w). now apply occ_app_left.
Qed.

Lemma occ_stripSuffix (n p w : str) (q : nat) :
  n <> [] -> occ n (stripSuffix p w) q -> occ n w q.
Proof.
  unfold stripSuffix. destruct (endsWith p w); [apply occ_firstn|trivial].
Qed.

Lemma occ_trim (n s : str) (q : nat) :
  n <> [] -> occ n (trim s) q -> exists q', occ n s q'.
Proof.
  intros Hn Hocc. unfold trim, trimEnd, trimStart in Hocc.
  destruct (dropEndWhile_split isSpace (dropWhile isSpace s)) as (w & Hs & _).
  pose proof (occ_bound _ _ _ Hocc Hn) as Hb.
  assert (H : occ n (dropWhile isSpace s) q).
  { rewrite Hs. now apply occ_app_left. }
  exists (length (takeWhile isSpace s) + q).
  rewrite (takeWhile_dropWhile isSpace s) at 1. now apply occ_app_right.
Qed.

(** X15.  A source [parseGitHubUrl] accepts is one [getSourceType] sends to
    the GitHub downloader. *)
Theorem parsed_source_is_github (source : str) (parsed : ParsedGitHubUrl) :
  parseGitHubUrl source = Some parsed ->
  Cli.getSourceType source = Cli.github.
Proof.
  intros H. destruct (matchUrl_found _ _ H) as (q & Hocc & _).
  assert (Hn : L "github.com/" <> []) by discriminate.
  unfold cleanUrl in Hocc.
  apply occ_stripSuffix in Hocc; [|exact Hn].
  apply occ_stripSuffix in Hocc; [|exact Hn].
  assert (Htrim : exists q', occ (L "github.com/") (trim source) q').
  { destruct (startsWith (L "http") (trim source)); [now exists q|].
    pose proof (occ_behind_run (fun x => negb (Ascii.eqb x "g"%char))
                  (L "ithub.com/") (L "https://") (trim source) "g"%char q
                  eq_refl eq_refl Hocc) as Hq.
    exists (q - 8).
    replace q with (length (L "https://") + (q - 8)) in Hocc
      by (change (length (L "https://")) with 8 in *; lia).
    now apply occ_app_right in Hocc. }
  destruct Htrim as [q' Hq'].
  destruct (occ_trim _ _ _ Hn Hq') as [q'' Hq''].
  unfold Cli.getSourceType.
  rewrite (includes_intro (L "github.com") source q''); [reflexivity|].
  unfold occ in *.
  exact (startsWith_trans (L "github.com") (L "github.com/") _ eq_refl Hq'').
Qed.

Lemma parsed_source_is_github_witness :
  Cli.getSourceType (L "github.com/vercel/next.js/blob/canary/llms.txt")
  = Cli.github.
Proof.
  exact (parsed_source_is_github
           (L "github.com/vercel/next.js/blob/canary/llms.txt")
           {| owner := L "vercel"; repo := L "next.js"; branch := [] |} eq_refl).
Defined.

End ParsedUrls.

(** ** The requests of the tree fetcher *)

Section FetcherRequests.

Import Downloader.




(** X17.  When every candidate branch is answered with status 404,
    whatever code and message the answer carries short of a timeout, the
    fetch ends with the error that the repository could not be found, whose
    message lists the candidates in the order tried, after one request for
    each of them. *)
Theorem fetch_all_not_found (get : str -> AxiosResult)
  (owner repo preferred : str) :
  (forall b, In b (branchesToTry preferred) ->
             exists e, get (apiUrl owner repo b) = Failure e
                       /\ timedOut e = false /\ status e = Some 404) ->
  let o := fetchRepoTreeWithFallback get owner repo preferred in
  fetched o
  = inl (RepositoryNotFound
           (repositoryNotFoundMessage owner repo (branchesToTry preferred)))
  /\ requested o = branchesToTry preferred
  /\ includes (L "Tried branches: " ++ join (L ", ") (branchesToTry preferred))
       (repositoryNotFoundMessage owner repo (branchesToTry preferred)) = true.
Proof.
  intros Hall o. subst o.
  rewrite fallback_exhausted.
  - split; [reflexivity|]. split; [reflexivity|].
    assert (Hmsg : repositoryNotFoundMessage owner repo (branchesToTry preferred)
                   = (L "Could not find repository: " ++ owner ++ L "/" ++ repo
                      ++ [nl; nl])
                     ++ (L "Tried branches: "
                         ++ join (L ", ") (branchesToTry preferred))
                     ++ ([nl; nl] ++ L "Please check:" ++ [nl]
                         ++ L "  - The repository exists and is public" ++ [nl]
                         ++ L "  - The URL is correct" ++ [nl]
                         ++ L "  - Use --branch to specify the correct branch name"))
      by (unfold repositoryNotFoundMessage; now rewrite <- !app_assoc).
    rewrite Hmsg. exact (includes_intro _ _ _ (occ_intro _ _ _)).
  - apply Forall_forall. intros b Hb.
    destruct (Hall b Hb) as (e & Hget & Hcode & Hstatus).
    exact (not_found_of_404 get owner repo b e Hget Hcode Hstatus).
Qed.

Lemma fetch_all_not_found_witness :
  let get := fun _ : str =>
    Failure {| code := Some (L "ERR_BAD_REQUEST"); status := Some 404;
               resetDate := None;
               message := L "Request failed with status code 404" |} in
  requested (fetchRepoTreeWithFallback get (L "o") (L "r") (L "canary"))
  = [L "canary"; L "main"; L "master"; L "develop"; L "dev"].
Proof.
  intros get.
  refine (proj1 (proj2 (fetch_all_not_found get (L "o") (L "r") (L "canary") _))).
  intros b _. eexists. repeat split.
Defined.

(** X18.  A request that is answered with status 401 ends the fetch with
    the authentication error, after the candidates before it were answered
    with 404, whatever codes and messages the answers carry short of a
    timeout: the candidates behind it are not asked for. *)
Theorem fetch_stops_at_authentication_failure (get : str -> AxiosResult)
  (owner repo preferred : str) (skipped rest : list str) (b : str)
  (e : AxiosError) :
  branchesToTry preferred = skipped ++ b :: rest ->
  (forall s, In s skipped ->
             exists e', get (apiUrl owner repo s) = Failure e'
                        /\ timedOut e' = false /\ status e' = Some 404) ->
  get (apiUrl owner repo b) = Failure e ->
  timedOut e = false ->
  status e = Some 401 ->
  fetchRepoTreeWithFallback get owner repo preferred
  = {| fetched :=
         inl (Rethrown
                (newError
                   (L "GitHub authentication failed." ++ [nl; nl]
                    ++ L "If using GITHUB_TOKEN, please check that it's valid.")));
       requested := skipped ++ [b];
       truncationWarnings := 0 |}.
Proof.
  intros Hc Hskipped Hget Htime Hstatus.
  apply (fallback_abort get owner repo preferred skipped rest b); try assumption.
  - apply Forall_forall. intros s Hs.
    destruct (Hskipped s Hs) as (e' & Hg & Hcode & Hst).
    exact (not_found_of_404 get owner repo s e' Hg Hcode Hst).
  - unfold fetchRepoTree. rewrite Hget. unfold fetchErrorMessage.
    unfold timedOut in Htime. now rewrite Htime, Hstatus.
  - reflexivity.
Qed.

Lemma fetch_stops_at_authentication_failure_witness :
  let get := fun url =>
    if str_eqb url (apiUrl (L "o") (L "r") (L "canary"))
    then Failure {| code := Some (L "ERR_BAD_REQUEST"); status := Some 404;
                    resetDate := None;
                    message := L "Request failed with status code 404" |}
    else Failure {| code := Some (L "ERR_BAD_REQUEST"); status := Some 401;
                    resetDate := None;
                    message := L "Request failed with status code 401" |} in
  requested (fetchRepoTreeWithFallback get (L "o") (L "r") (L "canary"))
  = [L "canary"; L "main"].
Proof.
  intros get.
  rewrite (fetch_stops_at_authentication_failure get (L "o") (L "r") (L "canary")
             [L "canary"] [L "master"; L "develop"; L "dev"] (L "main")
             {| code := Some (L "ERR_BAD_REQUEST"); status := Some 401;
                resetDate := None;
                message := L "Request failed with status code 401" |});
    try reflexivity.
  intros s [<-|[]]. eexists. repeat split.
Defined.

End FetcherRequests.

(** ** The selection of files and their local paths *)

Section Selection.

Import Downloader.

(** X19.  A tree item [filterMarkdownFiles] selects is a blob of the tree
    with a markdown extension; where a target path is given, the item is
    the target itself, with the empty relative path, or lies below it, and
    then the target, a slash and the relative path make its path. *)
Theorem filterMarkdownFiles_selected (items : list GitHubTreeItem)
  (targetPath : str) (item : GitHubTreeItem) :
  let effectivePath := dropEndSlash (dropStartSlash targetPath) in
  let relativePath := relativePathOf effectivePath item in
  In item (filterMarkdownFiles items targetPath) ->
  In item items
  /\ type item = blob
  /\ In (toLowerCase (Path.extname (path item)))
       (map L [ ".md"; ".mdx"; ".markdown" ]%string)
  /\ (effectivePath = [] -> relativePath = path item)
  /\ (effectivePath <> [] ->
      (path item = effectivePath /\ relativePath = [])
      \/ path item = effectivePath ++ L "/" ++ relativePath).
Proof.
  intros effectivePath relativePath Hin. subst relativePath.
  unfold filterMarkdownFiles in Hin. fold effectivePath in Hin.
  apply filter_In in Hin as [Hin Hsel].
  split; [assumption|].
  unfold isBlob in Hsel. destruct (type item) eqn:Et; [|discriminate].
  cbn [negb] in Hsel. split; [reflexivity|].
  destruct effectivePath as [|c eff] eqn:Eeff.
  - cbn [andb] in Hsel. apply existsb_str_eqb_in in Hsel.
    split; [assumption|]. split; [reflexivity|congruence].
  - cbn [andb] in Hsel.
    destruct (startsWith ((c :: eff) ++ L "/") (path item)) eqn:Ep.
    + cbn [negb andb] in Hsel. apply existsb_str_eqb_in in Hsel.
      split; [assumption|]. split; [discriminate|]. intros _. right.
      apply startsWith_split in Ep. rewrite length_app in Ep.
      unfold relativePathOf, substringFrom. rewrite <- app_assoc in Ep.
      exact Ep.
    + cbn [negb andb] in Hsel.
      destruct (str_eqb (path item) (c :: eff)) eqn:Eq; [|discriminate].
      cbn [negb] in Hsel. apply existsb_str_eqb_in in Hsel.
      apply str_eqb_eq in Eq.
      split; [assumption|]. split; [discriminate|]. intros _. left.
      split; [assumption|]. unfold relativePathOf, substringFrom. rewrite Eq.
      apply skipn_all2. lia.
Qed.

Lemma filterMarkdownFiles_selected_witness :
  let items := [ {| path := L "docs"; type := tree |};
                 {| path := L "docs/guide/Intro.MD"; type := blob |};
                 {| path := L "src/readme.md"; type := blob |} ] in
  let item := {| path := L "docs/guide/Intro.MD"; type := blob |} in
  In item (filterMarkdownFiles items (L "/docs/"))
  /\ path item = L "docs" ++ L "/" ++ relativePathOf (L "docs") item.
Proof.
  intros items item.
  assert (Hin : In item (filterMarkdownFiles items (L "/docs/")))
    by (left; reflexivity).
  split; [exact Hin|].
  destruct (filterMarkdownFiles_selected items (L "/docs/") item Hin)
    as (_ & _ & _ & _ & H).
  destruct (H ltac:(discriminate)) as [[E _]|E]; [discriminate E|exact E].
Defined.

Lemma resolve_with_empty (cwd basePath : str) :
  Path.resolve cwd [basePath; []] = Path.resolve cwd [basePath].
Proof. reflexivity. Qed.

Lemma startsWith_refl (s : str) : startsWith s s = true.
Proof. rewrite <- (app_nil_r s) at 2. apply startsWith_app. Qed.

(** X20.  Where the target path names a markdown file itself, the relative
    path of the file is empty, the path check lets it through, and the
    local path it is written to is the docs directory itself, not a file
    in it. *)
Theorem target_file_written_onto_directory (w : World)
  (docsPath effectivePath : str) (file : GitHubTreeItem) :
  effectivePath <> [] ->
  path file = effectivePath ->
  relativePathOf effectivePath file = []
  /\ sanitizePath (cwd w) docsPath (relativePathOf effectivePath file)
     = Some (Path.resolve (cwd w) [docsPath])
  /\ fst (writtenFor w docsPath effectivePath file)
     = Path.resolve (cwd w) [docsPath].
Proof.
  intros Hne Hpath.
  assert (Hrel : relativePathOf effectivePath file = []).
  { unfold relativePathOf, substringFrom. rewrite Hpath.
    destruct effectivePath; [congruence|]. apply skipn_all2. lia. }
  assert (Hs : sanitizePath (cwd w) docsPath [] = Some (Path.resolve (cwd w) [docsPath])).
  { unfold sanitizePath. rewrite resolve_with_empty, startsWith_refl. reflexivity. }
  unfold writtenFor. rewrite Hrel, Hs. now repeat split.
Qed.

Lemma target_file_written_onto_directory_witness :
  let w := {| cwd := L "/w"; mkdirOk := fun _ => true;
              downloadFile := fun _ => Some (L "# text");
              writeOk := fun _ => true |} in
  let file := {| path := L "README.md"; type := blob |} in
  filterMarkdownFiles [file] (L "README.md") = [file]
  /\ fst (writtenFor w (L "/w/.docs/r-docs") (L "README.md") file)
     = L "/w/.docs/r-docs".
Proof.
  intros w file. split; [reflexivity|].
  destruct (target_file_written_onto_directory w (L "/w/.docs/r-docs")
              (L "README.md") file ltac:(discriminate) eq_refl) as (_ & _ & H).
  exact H.
Defined.

Lemma splitOn_join_sep (segs : list str) (t : str) :
  segs <> [] -> forallb ordinary segs = true ->
  splitOn slash (join [slash] segs ++ slash :: t) = segs ++ splitOn slash t.
Proof.
  induction segs as [|s segs IH]; [congruence|]. intros _.
  cbn [forallb]. rewrite andb_true_iff. intros [Hs Hrest].
  destruct (ordinary_inv s Hs) as (_ & Hfree & _).
  destruct segs as [|s' segs].
  - cbn [join app]. now apply splitOn_app_sep.
  - rewrite join_cons by discriminate. rewrite <- !app_assoc. cbn [app].
    rewrite (splitOn_app_sep _ _ Hfree). cbn [app]. f_equal.
    apply IH; [discriminate|assumption].
Qed.

Lemma normalizeSegs_app (above : bool) (segs rest acc : list str) :
  forallb ordinary segs = true ->
  Path.normalizeSegs above acc (segs ++ rest)
  = Path.normalizeSegs above (rev segs ++ acc) rest.
Proof.
  revert acc. induction segs as [|s segs IH]; intros acc; cbn [forallb app].
  - reflexivity.
  - rewrite andb_true_iff. intros [Hs Hrest].
    destruct (ordinary_inv s Hs) as (Hne & _ & Hdot & Hdots).
    cbn [Path.normalizeSegs]. rewrite Hdot, Hdots.
    destruct s as [|c s]; [congruence|]. cbn [str_eqb orb].
    rewrite (IH _ Hrest). cbn [rev]. now rewrite <- app_assoc.
Qed.

(** The resolution of an absolute path of ordinary segments, with more
    ordinary segments behind it. *)
Lemma resolve_ordinary (cwd : str) (bsegs rsegs : list str) :
  bsegs <> [] -> forallb ordinary bsegs = true -> forallb ordinary rsegs = true ->
  Path.resolve cwd
    ((slash :: join [slash] bsegs)
     :: match rsegs with [] => [] | _ => [join [slash] rsegs] end)
  = slash :: join [slash] (bsegs ++ rsegs).
Proof.
  intros Hb Hbo Hro. unfold Path.resolve.
  match goal with
  | |- context [Path.resolveScan ?c ?a] =>
      assert (Hscan : Path.resolveScan c a
                      = ((slash :: join [slash] bsegs) ++ slash
                         :: match rsegs with
                            | [] => []
                            | _ => join [slash] rsegs ++ [slash]
                            end, true))
  end.
  { destruct rsegs as [|r rsegs].
    - cbn [rev app Path.resolveScan Path.isAbsolute]. reflexivity.
    - destruct (join_head (r :: rsegs) ltac:(discriminate) Hro) as (c & t & E & Hc).
      cbn [rev app]. rewrite E. cbn [Path.resolveScan Path.isAbsolute].
      rewrite Hc. change (isSlash slash) with true. cbv iota.
      rewrite <- !app_assoc. reflexivity. }
  rewrite Hscan. cbn [app splitOn]. rewrite Ascii.eqb_refl.
  rewrite (splitOn_join_sep bsegs _ Hb Hbo).
  cbn [Path.normalizeSegs str_eqb orb negb].
  rewrite (normalizeSegs_app _ _ _ _ Hbo). rewrite app_nil_r.
  destruct rsegs as [|r rsegs].
  - cbn [splitOn Path.normalizeSegs str_eqb orb]. rewrite rev_involutive.
    now rewrite app_nil_r.
  - rewrite (splitOn_join_sep (r :: rsegs) [] ltac:(discriminate) Hro).
    rewrite (normalizeSegs_app _ _ _ _ Hro).
    cbn [splitOn Path.normalizeSegs str_eqb orb].
    rewrite rev_app_distr, !rev_involutive. reflexivity.
Qed.

Lemma resolve_ordinary_below (cwd base rel : str) (bsegs rsegs : list str) :
  bsegs <> [] -> rsegs <> [] ->
  forallb ordinary bsegs = true -> forallb ordinary rsegs = true ->
  base = slash :: join [slash] bsegs -> rel = join [slash] rsegs ->
  Path.resolve cwd [base; rel] = slash :: join [slash] (bsegs ++ rsegs).
Proof.
  intros Hb Hr Hbo Hro -> ->. destruct rsegs as [|r rsegs]; [congruence|].
  exact (resolve_ordinary cwd bsegs (r :: rsegs) Hb Hbo Hro).
Qed.

Lemma resolve_ordinary_base (cwd base : str) (bsegs : list str) :
  bsegs <> [] -> forallb ordinary bsegs = true ->
  base = slash :: join [slash] bsegs ->
  Path.resolve cwd [base] = base.
Proof.
  intros Hb Hbo ->.
  pose proof (resolve_ordinary cwd bsegs [] Hb Hbo eq_refl) as H.
  rewrite app_nil_r in H. exact H.
Qed.

(** X21.  [sanitizePath] lets every relative path of ordinary segments
    through, where the docs directory is an absolute path of ordinary
    segments: the local path is the docs directory, a slash and the
    relative path, and it lies below the docs directory. *)
Theorem sanitizePath_ordinary (cwd : str) (bsegs rsegs : list str) :
  bsegs <> [] -> rsegs <> [] ->
  forallb ordinary bsegs = true -> forallb ordinary rsegs = true ->
  let docsPath := slash :: join [slash] bsegs in
  sanitizePath cwd docsPath (join [slash] rsegs)
  = Some (docsPath ++ L "/" ++ join [slash] rsegs)
  /\ insideRoot docsPath (docsPath ++ L "/" ++ join [slash] rsegs) = true.
Proof.
  intros Hb Hr Hbo Hro docsPath.
  unfold sanitizePath.
  rewrite (resolve_ordinary_below cwd docsPath _ bsegs rsegs Hb Hr Hbo Hro
             eq_refl eq_refl).
  rewrite (resolve_ordinary_base cwd docsPath bsegs Hb Hbo eq_refl).
  rewrite (join_app [slash] bsegs rsegs Hb Hr).
  change (slash :: join [slash] bsegs ++ [slash] ++ join [slash] rsegs)
    with (docsPath ++ [slash] ++ join [slash] rsegs).
  rewrite startsWith_app. cbn [negb]. split; [reflexivity|].
  unfold insideRoot. change (L "/") with [slash].
  rewrite app_assoc, startsWith_app. apply orb_true_r.
Qed.

Lemma sanitizePath_ordinary_witness :
  sanitizePath (L "/w") (L "/w/.docs/r-docs") (L "guide/intro.md")
  = Some (L "/w/.docs/r-docs/guide/intro.md")
  /\ insideRoot (L "/w/.docs/r-docs") (L "/w/.docs/r-docs/guide/intro.md") = true.
Proof.
  exact (sanitizePath_ordinary (L "/w") [L "w"; L ".docs"; L "r-docs"]
           [L "guide"; L "intro.md"] ltac:(discriminate) ltac:(discriminate)
           eq_refl eq_refl).
Defined.

End Selection.

(** ** The counts of a batch, and the docs folder *)

Section BatchCounts.

Import Downloader.

Lemma filter_partition_length {A : Type} (p : A -> bool) (l : list A) :
  length (filter p l) + length (filter (fun x => negb (p x)) l) = length l.
Proof.
  induction l as [|x l IH]; cbn [filter length]; [reflexivity|].
  destruct (p x); cbn [negb length]; lia.
Qed.

(** X22.  In a batch whose paths all pass the path check, the number of
    downloaded files is the number of files written and never exceeds the
    number selected, whatever the callback does; with a callback that
    returns, every selected file is either downloaded or on the list of
    failed files, and none is both. *)
Theorem batch_counts (w : World) (onProgress : option Progress)
  (docsPath effectivePath : str) (files : list GitHubTreeItem) :
  forallb (safeFile w docsPath effectivePath) files = true ->
  exists st,
    downloadLoop w onProgress docsPath effectivePath (length files) files
      initialState = inr st
    /\ downloadedCount st = length (written st)
    /\ downloadedCount st <= length files
    /\ (alwaysReturns onProgress ->
        downloadedCount st + length (failedFiles st) = length files).
Proof.
  intros Hsafe.
  destruct (downloadLoop_safe w onProgress docsPath effectivePath
              (length files) files initialState Hsafe)
    as (st & Hloop & Hcount & Hwritten & _ & Hfailed).
  exists st. cbn [initialState downloadedCount written failedFiles app] in *.
  pose proof (filter_partition_length (ioSucceeds w docsPath effectivePath) files)
    as Hpart.
  split; [exact Hloop|]. split; [|split].
  - rewrite Hcount, Hwritten, length_map. reflexivity.
  - rewrite Hcount. cbn. lia.
  - intros Hret. rewrite (Hfailed Hret), Hcount, length_map. cbn. lia.
Qed.

Lemma batch_counts_witness :
  let w := {| cwd := L "/w";
              mkdirOk := fun _ => true;
              downloadFile := fun p => if str_eqb p (L "docs/bad.md")
                                       then None else Some (L "# text");
              writeOk := fun _ => true |} in
  let files := map (fun p => {| path := L p; type := blob |})
                 [ "docs/a.md"; "docs/bad.md"; "docs/b.md" ]%string in
  exists st,
    downloadLoop w None (L "/w/.docs/r-docs") (L "docs") 3 files initialState
    = inr st
    /\ downloadedCount st = length (written st)
    /\ downloadedCount st <= 3
    /\ (alwaysReturns None -> downloadedCount st + length (failedFiles st) = 3).
Proof.
  intros w files.
  exact (batch_counts w None (L "/w/.docs/r-docs") (L "docs") files eq_refl).
Defined.

Lemma batch_traversal_fatal_witness :
  let w := {| cwd := L "/w"; mkdirOk := fun _ => true;
              downloadFile := fun _ => Some (L "# text");
              writeOk := fun _ => true |} in
  let item := fun p => {| path := L p; type := blob |} in
  let obs := downloadBatch w None (L "/w/.docs/r-docs") (L "r-docs") [] None
               ([item "a.md"%string] ++ item "../x.md"%string
                :: [item "b.md"%string]) in
  returned obs = inl (PathTraversal (L "../x.md"))
  /\ warning obs = None
  /\ filesWritten obs = [(L "/w/.docs/r-docs/a.md", L "# text")].
Proof.
  intros w item obs.
  exact (batch_traversal_fatal w None (L "/w/.docs/r-docs") (L "r-docs") [] None
           [item "a.md"%string] [item "b.md"%string] (item "../x.md"%string)
           eq_refl eq_refl).
Defined.

Lemma toLowerCase_slash (p : str) :
  In slash p -> In slash (toLowerCase p).
Proof.
  intros H. unfold toLowerCase.
  change slash with (toLowerCaseChar slash). now apply in_map.
Qed.

Lemma find_some_in {A : Type} (p : A -> bool) (l : list A) (x : A) :
  find p l = Some x -> In x l /\ p x = true.
Proof. apply find_some. Qed.

(** X24.  What [findDocsFolder] returns is the path, in its own spelling,
    of a directory of the tree whose name in small letters is one of the
    five folder names, and such a path holds no slash: it is a directory
    at the root.  It returns nothing only when the root has no such
    directory. *)
Theorem findDocsFolder_root_directory (items : list GitHubTreeItem) :
  (forall p, findDocsFolder items = Some p ->
             In {| path := p; type := tree |} items
             /\ In (toLowerCase p) DOC_FOLDER_NAMES
             /\ ~ In slash p)
  /\ (findDocsFolder items = None ->
      forall item, In item items -> type item = tree ->
                   includes (L "/") (path item) = false ->
                   ~ In (toLowerCase (path item)) DOC_FOLDER_NAMES).
Proof.
  unfold findDocsFolder.
  set (rootDirs := map (fun item => toLowerCase (path item))
                     (filter (fun item => isTree item
                                          && negb (includes (L "/") (path item)))
                        items)).
  assert (Hnames : forall n, In n DOC_FOLDER_NAMES -> ~ In slash n).
  { intros n Hn Hs. cbn in Hn.
    repeat (destruct Hn as [<-|Hn];
            [cbn in Hs; repeat (destruct Hs as [Hs|Hs]; [discriminate Hs|]);
             exact Hs|]).
    exact Hn. }
  revert Hnames. generalize DOC_FOLDER_NAMES. intros names.
  induction names as [|docName names IH]; intros Hnames.
  - split; [discriminate|]. intros _ item _ _ _ [].
  - assert (Hrest : forall n, In n names -> ~ In slash n)
      by (intros n Hn; apply Hnames; now right).
    destruct (IH Hrest) as [IHsome IHnone].
    destruct (existsb (str_eqb docName) rootDirs) eqn:Eroot.
    + destruct (find (fun item => isTree item
                                  && str_eqb (toLowerCase (path item)) docName)
                  items) as [actualDir|] eqn:Efind.
      * split; [|discriminate]. intros p [= <-].
        apply find_some in Efind as [Hin Hp].
        apply andb_true_iff in Hp as [Ht Hl]. apply str_eqb_eq in Hl.
        destruct actualDir as [p t]. cbn [path] in *.
        unfold isTree in Ht. cbn [type] in Ht. destruct t; [discriminate|].
        split; [assumption|]. split; [left; now symmetry|].
        intros Hs. apply toLowerCase_slash in Hs. rewrite Hl in Hs.
        exact (Hnames docName (or_introl eq_refl) Hs).
      * exfalso. apply existsb_str_eqb_in in Eroot. unfold rootDirs in Eroot.
        apply in_map_iff in Eroot as (item & Hl & Hin).
        apply filter_In in Hin as [Hin Ht]. apply andb_true_iff in Ht as [Ht _].
        apply (find_none _ _ Efind) in Hin. cbv beta in Hin, Hl.
        rewrite Ht, Hl, str_eqb_refl in Hin.
        discriminate Hin.
    + split.
      * intros p Hp. destruct (IHsome p Hp) as (H1 & H2 & H3).
        split; [assumption|]. split; [now right|assumption].
      * intros Hnone item Hin Ht Hroot [Hd|Hn].
        -- subst docName.
           assert (Hr : In (toLowerCase (path item)) rootDirs).
           { unfold rootDirs.
             apply (in_map (fun item => toLowerCase (path item))).
             apply filter_In. split; [assumption|].
             unfold isTree. now rewrite Ht, Hroot. }
           apply existsb_str_eqb_in in Hr. congruence.
        -- exact (IHnone Hnone item Hin Ht Hroot Hn).
Qed.

End BatchCounts.

(** ** llms.txt *)

Section LlmsFacts.

Import LlmsTxt.



Lemma call_returns (onProgress : option Progress) (current total : nat)
  (file : str) :
  returnsAlways onProgress -> call onProgress current total file = None.
Proof.
  intros H. unfold call. destruct onProgress as [callback|]; [|reflexivity].
  now apply H.
Qed.



(** X26.  A text that is empty or blank is refused: the error with the
    message that the file is empty or invalid leaves the [catch] as it was
    thrown, and no file is written. *)
Theorem downloadLlmsTxt_blank (env : Environment) (url host content : str)
  (options : Downloader.CliOptions) (onProgress : option Progress) :
  hostnameOf env url = Some host ->
  (forall directory, makeDirectory env directory = None) ->
  returnsAlways onProgress ->
  httpGet env url = inr content ->
  trim content = [] ->
  let obs := downloadLlmsTxt env url options onProgress in
  returned obs = inl (newError (L "Empty or invalid llms.txt file at " ++ url))
  /\ filesWritten obs = [].
Proof.
  intros Hhost Hmk Hret Hget Hcontent obs. subst obs.
  unfold downloadLlmsTxt.
  rewrite Hhost, Hmk, (call_returns _ _ _ _ Hret), Hget, Hcontent.
  cbn [returned filesWritten]. split; [|reflexivity].
  unfold rethrow. cbn [thrownMessage newError].
  change (L "Empty or invalid llms.txt file at " ++ url)
    with ([] ++ L "Empty or invalid llms.txt" ++ (L " file at " ++ url)).
  now rewrite (includes_intro _ _ _ (occ_intro _ _ _)).
Qed.

Lemma downloadLlmsTxt_blank_witness :
  let env := {| hostnameOf := fun _ => Some (L "example.com");
                workingDirectory := L "/w";
                makeDirectory := fun _ => None;
                httpGet := fun _ => inr (L "  " ++ [nl]);
                writeFile := fun _ => None |} in
  let options := {| Downloader.output := L "AGENTS.md";
                    Downloader.docsDir := L ".docs";
                    Downloader.optPath := [];
                    Downloader.optSourceName := None;
                    Downloader.optBranch := L "main" |} in
  let obs := downloadLlmsTxt env (L "https://example.com/llms.txt") options None in
  returned obs
  = inl (newError (L "Empty or invalid llms.txt file at "
                   ++ L "https://example.com/llms.txt"))
  /\ filesWritten obs = [].
Proof.
  intros env options.
  apply (downloadLlmsTxt_blank env (L "https://example.com/llms.txt")
           (L "example.com") (L "  " ++ [nl]) options None); try reflexivity.
  intros callback H. discriminate H.
Defined.

End LlmsFacts.

(** ** .gitignore *)

Section GitignoreFacts.

Import Gitignore.

Lemma splitOn_line (c : ascii) (l t : str) :
  ~ In c l -> splitOn c (l ++ c :: t) = l :: splitOn c t.
Proof.
  induction l as [|x l IH]; intros Hl; cbn [app splitOn].
  - now rewrite Ascii.eqb_refl.
  - destruct (Ascii.eqb_spec x c) as [->|Hx]; [exfalso; apply Hl; now left|].
    rewrite IH by (intros H; apply Hl; now right). reflexivity.
Qed.

Lemma splitOn_nonempty (c : ascii) (s : str) : splitOn c s <> [].
Proof.
  destruct s as [|x s]; cbn [splitOn]; [discriminate|].
  destruct (Ascii.eqb x c); [discriminate|].
  destruct (splitOn c s); discriminate.
Qed.

(** A line between two separators is one of the lines of the text. *)
Lemma line_in_splitOn (c : ascii) (a l b : str) :
  ~ In c l -> In l (tl (splitOn c (a ++ c :: l ++ c :: b))).
Proof.
  intros Hl. induction a as [|x a IH]; cbn [app splitOn].
  - rewrite Ascii.eqb_refl. cbn [tl]. rewrite (splitOn_line c l b Hl). now left.
  - destruct (Ascii.eqb x c).
    + cbn [tl]. destruct (splitOn c (a ++ c :: l ++ c :: b)); [destruct IH|].
      now right.
    + destruct (splitOn c (a ++ c :: l ++ c :: b)); [destruct IH|]. exact IH.
Qed.

Lemma trim_entry (c : ascii) (e : str) :
  isSpace c = false -> trim ((c :: e) ++ L "/") = (c :: e) ++ L "/".
Proof.
  intros Hc. unfold trim, trimStart. cbn [app dropWhile]. rewrite Hc.
  unfold trimEnd. exact (dropEndWhile_keep isSpace (c :: e) slash eq_refl).
Qed.

(** X28.  For a docs directory whose name has no line break and does not
    begin with white space: [addToGitignore] writes exactly when
    [isInGitignore] does not find the directory; what it writes keeps the
    existing text, trimmed at its end, at its head; in the text written
    [isInGitignore] finds the directory, and a second [addToGitignore]
    returns false without writing and without a warning. *)
Theorem addToGitignore_once (read : ReadOutcome) (docsDir : str) :
  oneLineEntry (normalizeEntry docsDir) = true ->
  (forall message, read <> ReadError message) ->
  let first := addToGitignore read None docsDir in
  added first = negb (isInGitignore read docsDir)
  /\ (added first = false -> writtenText first = None)
  /\ forall text,
       writtenText first = Some text ->
       startsWith (trimEnd (match read with Text c => c | _ => [] end)) text = true
       /\ isInGitignore (Text text) docsDir = true
       /\ forall writeError,
            addToGitignore (Text text) writeError docsDir
            = {| added := false; writtenText := None; warned := None |}.
Proof.
  intros Hentry Hread first. subst first.
  unfold oneLineEntry in Hentry.
  destruct (normalizeEntry docsDir) as [|c0 e0] eqn:Ee; [discriminate|].
  apply andb_true_iff in Hentry as [Hnl Hsp]. apply negb_true_iff in Hsp.
  rewrite <- Ee in Hnl.
  assert (Hline : ~ In nl (normalizeEntry docsDir ++ L "/")).
  { intros H. apply in_app_or in H as [H|[H|[]]]; [|discriminate H].
    rewrite forallb_forall in Hnl. specialize (Hnl _ H).
    unfold isNl in Hnl. now rewrite Ascii.eqb_refl in Hnl. }
  assert (Hfound : forall content,
             alreadyExists
               (trimEnd content
                ++ (match content with [] => [] | _ => [nl; nl] end)
                ++ L "# Downloaded documentation (agent-md-tool)" ++ [nl]
                ++ (normalizeEntry docsDir ++ L "/") ++ [nl]) docsDir = true).
  { intros content. unfold alreadyExists. apply existsb_exists.
    exists (normalizeEntry docsDir ++ L "/"). split.
    - set (a := trimEnd content
                ++ (match content with [] => [] | _ => [nl; nl] end)
                ++ L "# Downloaded documentation (agent-md-tool)").
      replace (trimEnd content
               ++ (match content with [] => [] | _ => [nl; nl] end)
               ++ L "# Downloaded documentation (agent-md-tool)" ++ [nl]
               ++ (normalizeEntry docsDir ++ L "/") ++ [nl])
        with (a ++ nl :: (normalizeEntry docsDir ++ L "/") ++ nl :: [])
        by (unfold a; now rewrite <- !app_assoc).
      pose proof (line_in_splitOn nl a _ [] Hline) as H.
      destruct (splitOn nl (a ++ nl :: (normalizeEntry docsDir ++ L "/") ++ [nl]));
        [destruct H|now right].
    - unfold lineNames. rewrite Ee, (trim_entry _ _ Hsp), str_eqb_refl.
      now rewrite orb_true_r. }
  destruct read as [|content|message];
    [idtac|idtac|now destruct (Hread message)].
  - cbn [addToGitignore isInGitignore negb].
    destruct (alreadyExists [] docsDir) eqn:Ea.
    + exfalso. unfold alreadyExists in Ea. cbn [splitOn existsb] in Ea.
      rewrite orb_false_r in Ea. unfold lineNames in Ea. rewrite Ee in Ea.
      discriminate Ea.
    + cbn [added writtenText]. split; [reflexivity|]. split; [discriminate|].
      pose proof (Hfound []) as Hf. cbv beta iota in Hf.
      intros text [= <-]. split; [reflexivity|].
      split; [exact Hf|].
      intros writeError. unfold addToGitignore.
      match goal with
      | |- context [alreadyExists ?t docsDir] =>
          replace (alreadyExists t docsDir) with true by (symmetry; exact Hf)
      end.
      reflexivity.
  - cbn [addToGitignore isInGitignore].
    destruct (alreadyExists content docsDir) eqn:Ea.
    + cbn [added writtenText negb]. split; [reflexivity|].
      split; [reflexivity|discriminate].
    + cbn [added writtenText negb]. split; [reflexivity|]. split; [discriminate|].
      intros text [= <-]. split; [apply startsWith_app|].
      split; [exact (Hfound content)|].
      intros writeError. unfold addToGitignore.
      match goal with
      | |- context [alreadyExists ?t docsDir] =>
          replace (alreadyExists t docsDir) with true
            by (symmetry; exact (Hfound content))
      end.
      reflexivity.
Qed.

Lemma addToGitignore_once_witness :
  let first := addToGitignore (Text (L "node_modules/" ++ [nl])) None (L "./.docs/") in
  added first = true
  /\ forall text,
       writtenText first = Some text ->
       isInGitignore (Text text) (L "./.docs/") = true.
Proof.
  intros first.
  destruct (addToGitignore_once (Text (L "node_modules/" ++ [nl])) (L "./.docs/")
              eq_refl ltac:(discriminate)) as (H1 & _ & H3).
  split; [exact H1|]. intros text Ht. exact (proj1 (proj2 (H3 text Ht))).
Defined.

End GitignoreFacts.

(** ** The commands inferred from the scripts *)

Section ProjectFacts.

Import Project.

Lemma findScript_first (scripts : Scripts) (patterns : list str) :
  match findScript scripts patterns with
  | Some p =>
      exists before after,
        patterns = before ++ p :: after
        /\ hasScript scripts p = true
        /\ forallb (fun q => negb (hasScript scripts q)) before = true
  | None => forallb (fun q => negb (hasScript scripts q)) patterns = true
  end.
Proof.
  induction patterns as [|p patterns IH]; cbn [findScript forallb]; [reflexivity|].
  destruct (hasScript scripts p) eqn:Ep.
  - exists [], patterns. now repeat split.
  - destruct (findScript scripts patterns) as [q|].
    + destruct IH as (before & after & -> & Hq & Hb).
      exists (p :: before), after. cbn [app forallb]. rewrite Ep. now repeat split.
    + cbn [negb andb]. exact IH.
Qed.

Lemma hasScript_own (scripts : Scripts) (p : str) :
  ~ In p Indexer.inheritedNames ->
  hasScript scripts p = true <->
  exists body, scriptOf p scripts = Some body /\ body <> [].
Proof.
  intros Hp. unfold hasScript. destruct (scriptOf p scripts) as [body|].
  - destruct body as [|c body].
    + split; [discriminate|]. intros (b & [= <-] & H). congruence.
    + split; [|reflexivity]. intros _. eexists. split; [reflexivity|discriminate].
  - split.
    + intros H. apply existsb_str_eqb_in in H. contradiction.
    + intros (b & H & _). discriminate H.
Qed.

(** X29.  Each command [inferCommands] suggests for development, build,
    test and lint is either empty, when none of the category's script
    names has a script, or the runner of the package manager followed by
    the first of these names that has a script in package.json which is not
    empty; the runner is [npm run] for npm and the manager's name
    otherwise. *)
Theorem inferCommands_runs_first_script (scripts : Scripts)
  (packageManager : PackageManager) :
  let commands := inferCommands scripts packageManager in
  let run := runner packageManager in
  runsFirstScript scripts run DEV_PATTERNS (dev commands)
  /\ runsFirstScript scripts run BUILD_PATTERNS (build commands)
  /\ runsFirstScript scripts run TEST_PATTERNS (test commands)
  /\ runsFirstScript scripts run LINT_PATTERNS (lint commands)
  /\ (run = L "npm run" <-> packageManager = npm)
  /\ (packageManager <> npm -> run = managerName packageManager).
Proof.
  intros commands run. subst commands run.
  assert (H : forall patterns,
             Forall (fun p => p <> [] /\ ~ In p Indexer.inheritedNames) patterns ->
             runsFirstScript scripts (runner packageManager) patterns
               (commandFor scripts packageManager patterns)).
  { intros patterns Hp. unfold runsFirstScript, commandFor.
    pose proof (findScript_first scripts patterns) as Hf.
    rewrite Forall_forall in Hp.
    destruct (findScript scripts patterns) as [p|].
    - destruct Hf as (before & after & -> & Hs & Hb). right.
      assert (Hin : In p (before ++ p :: after))
        by (apply in_or_app; right; now left).
      destruct (Hp p Hin) as [Hne Hni].
      apply (hasScript_own scripts p Hni) in Hs as (body & Hbody & Hnb).
      exists before, p, after, body. destruct p as [|c p]; [congruence|].
      repeat split; try assumption; try reflexivity.
      rewrite forallb_forall in Hb. intros q Hq.
      specialize (Hb q Hq). apply negb_true_iff in Hb.
      assert (Hqi : In q (before ++ (c :: p) :: after))
        by (apply in_or_app; now left).
      destruct (scriptOf q scripts) as [b|] eqn:Eq; [|now left].
      right. destruct b as [|x b]; [reflexivity|].
      unfold hasScript in Hb. rewrite Eq in Hb. discriminate Hb.
    - left. split; [reflexivity|]. rewrite forallb_forall in Hf. intros q Hq.
      specialize (Hf q Hq). apply negb_true_iff in Hf.
      destruct (scriptOf q scripts) as [b|] eqn:Eq; [|now left].
      right. destruct b as [|x b]; [reflexivity|].
      unfold hasScript in Hf. rewrite Eq in Hf. discriminate Hf. }
  assert (Hnames : forall patterns,
             forallb (fun p => match p with [] => false | _ => true end
                               && negb (existsb (str_eqb p) Indexer.inheritedNames))
               patterns = true ->
             Forall (fun p => p <> [] /\ ~ In p Indexer.inheritedNames) patterns).
  { intros patterns Hall. apply Forall_forall. intros p Hp.
    rewrite forallb_forall in Hall. specialize (Hall p Hp).
    apply andb_true_iff in Hall as [H1 H2]. apply negb_true_iff in H2.
    split; [now destruct p|]. intros Hin.
    apply existsb_str_eqb_in in Hin. congruence. }
  split; [apply H, Hnames; vm_compute; reflexivity|].
  split; [apply H, Hnames; vm_compute; reflexivity|].
  split; [apply H, Hnames; vm_compute; reflexivity|].
  split; [apply H, Hnames; vm_compute; reflexivity|].
  split.
  - destruct packageManager; split; try reflexivity; discriminate.
  - destruct packageManager; [congruence| | |]; reflexivity.
Qed.

End ProjectFacts.

(** ** The source name of an llms.txt URL *)

Section LlmsSourceNames.

Import LlmsTxt Generator.

Lemma collapseHyphens_step (c d : ascii) (t : str) :
  collapseHyphens (c :: d :: t)
  = if isHyphen c && isHyphen d then collapseHyphens (d :: t)
    else c :: collapseHyphens (d :: t).
Proof. reflexivity. Qed.

Lemma collapseHyphens_facts (s : str) :
  (forall c, In c (collapseHyphens s) -> In c s)
  /\ length (collapseHyphens s) <= length s
  /\ hd " "%char (collapseHyphens s) = hd " "%char s
  /\ (s <> [] -> collapseHyphens s <> [])
  /\ forall i, ~ occ (L "--") (collapseHyphens s) i.
Proof.
  induction s as [|c s (IHin & IHlen & IHhd & IHne & IHocc)].
  - cbn [collapseHyphens]. repeat split; try tauto; try lia.
    intros i H. pose proof (occ_bound _ _ _ H ltac:(discriminate)) as Hb.
    cbn in Hb. lia.
  - destruct s as [|d t].
    + cbn [collapseHyphens]. repeat split; try tauto; try discriminate; try lia.
      intros i H. pose proof (occ_bound _ _ _ H ltac:(discriminate)) as Hb.
      cbn in Hb. lia.
    + rewrite collapseHyphens_step.
      destruct (isHyphen c && isHyphen d) eqn:E.
      * apply andb_true_iff in E as [Hc Hd].
        unfold isHyphen in Hc, Hd. apply Ascii.eqb_eq in Hc, Hd. subst c d.
        repeat split.
        -- intros c Hc. right. now apply IHin.
        -- cbn [length] in *. lia.
        -- exact IHhd.
        -- intros _. apply IHne. discriminate.
        -- exact IHocc.
      * repeat split.
        -- intros x [<-|Hx]; [now left|right; now apply IHin].
        -- cbn [length] in *. lia.
        -- discriminate.
        -- intros [|i] H.
           ++ unfold occ in H. cbn [skipn] in H.
              destruct (collapseHyphens (d :: t)) as [|x r] eqn:Er;
                [now apply IHne|].
              cbn [hd] in IHhd. subst x.
              cbn [L list_ascii_of_string startsWith] in H.
              apply andb_true_iff in H as [Hc H].
              apply andb_true_iff in H as [Hd _].
              unfold isHyphen in E. rewrite Ascii.eqb_sym in Hc, Hd.
              rewrite Hc, Hd in E. discriminate E.
           ++ exact (IHocc i H).
Qed.

Lemma hyphenate_chars (s : str) :
  forallb notSpace (hyphenate s) = true
  /\ ~ In ">"%char (hyphenate s) /\ ~ In "<"%char (hyphenate s).
Proof.
  unfold hyphenate. induction s as [|c s (IH1 & IH2 & IH3)]; cbn [map forallb].
  - repeat split; intros [].
  - destruct (hyphenated_char c) as (H1 & H2 & H3). cbv zeta in H1, H2, H3.
    rewrite H1, IH1. repeat split; intros [E|E]; auto.
Qed.

(** X27.  The source name [generateLlmsSourceName] derives from a URL
    passes [validateSourceName] where the first label of the host name has
    at most 95 characters, and it never holds two hyphens in a row. *)
Theorem generateLlmsSourceName_validated (hostnameOf : str -> option str)
  (url : str) :
  (forall hostname,
      hostnameOf url = Some hostname ->
      length (hd [] (splitOn "."%char (stripPrefix (L "www.") hostname))) <= 95) ->
  validateSourceName (generateLlmsSourceName hostnameOf url) = inr tt
  /\ forall i, ~ occ (L "--") (generateLlmsSourceName hostnameOf url) i.
Proof.
  intros Hlen. unfold generateLlmsSourceName.
  destruct (hostnameOf url) as [hostname|].
  - specialize (Hlen hostname eq_refl).
    set (host := hd [] (splitOn "."%char (stripPrefix (L "www.") hostname))) in *.
    set (s := hyphenate (Downloader.toLowerCase (host ++ L "-llms"))).
    destruct (collapseHyphens_facts s) as (Hin & Hle & _ & Hne & Hocc).
    split; [|exact Hocc].
    destruct (hyphenate_chars (Downloader.toLowerCase (host ++ L "-llms")))
      as (Hsp & Hgt & Hlt). fold s in Hsp, Hgt, Hlt.
    assert (Hs : length s = length host + 5).
    { unfold s, hyphenate, Downloader.toLowerCase.
      now rewrite !length_map, length_app. }
    assert (Hsp' : forallb notSpace (collapseHyphens s) = true).
    { apply forallb_forall. intros c Hc. rewrite forallb_forall in Hsp.
      apply Hsp. now apply Hin. }
    unfold validateSourceName. rewrite (trim_no_space _ Hsp').
    destruct (collapseHyphens s) as [|c r] eqn:Ec.
    + exfalso. apply Hne; [|reflexivity]. intros E. rewrite E in Hs.
      cbn in Hs. lia.
    + rewrite (includes_without (L "-->") (c :: r) ">"%char
                 (or_intror (or_intror (or_introl eq_refl))))
        by (intros H; apply Hgt; now apply Hin).
      rewrite (includes_without (L "<!--") (c :: r) "<"%char (or_introl eq_refl))
        by (intros H; apply Hlt; now apply Hin).
      destruct (Nat.ltb_spec 100 (length (c :: r))); [lia|reflexivity].
  - split; [reflexivity|]. intros i. now apply includes_false.
Qed.

Lemma generateLlmsSourceName_validated_witness :
  validateSourceName
    (generateLlmsSourceName
       (fun _ => Some (L "www.My_Docs--Site.example.com"))
       (L "https://www.My_Docs--Site.example.com/llms.txt")) = inr tt.
Proof.
  refine (proj1 (generateLlmsSourceName_validated
                   (fun _ => Some (L "www.My_Docs--Site.example.com"))
                   (L "https://www.My_Docs--Site.example.com/llms.txt") _)).
  intros hostname [= <-]. vm_compute. lia.
Defined.

End LlmsSourceNames.

(** ** The lines of a block hold no marker *)

Section BlockLines.

Import Generator.

Lemma no_opener_in_literal (lit rest : str) :
  forallb (fun x => negb (Ascii.eqb x "<"%char)) lit = true ->
  (forall k, ~ occ opener rest k) ->
  forall k, ~ occ opener (lit ++ rest) k.
Proof.
  intros Hlit Hrest k Hocc.
  pose proof (occ_behind_run (fun x => negb (Ascii.eqb x "<"%char))
                (L "!--") lit rest "<"%char k Hlit eq_refl Hocc) as Hk.
  apply (Hrest (k - length lit)).
  apply (occ_app_right opener lit).
  now replace (length lit + (k - length lit)) with k by lia.
Qed.

Lemma no_opener_behind_text (x rest : str) (c : ascii) :
  (forall k, ~ occ opener x k) ->
  c <> "!"%char -> c <> "-"%char ->
  (forall k, ~ occ opener (c :: rest) k) ->
  forall k, ~ occ opener (x ++ c :: rest) k.
Proof.
  intros Hx Hc1 Hc2 Hrest k Hocc.
  destruct (Nat.le_gt_cases (length x) k) as [Hge|Hlt].
  - apply (Hrest (k - length x)). apply (occ_app_right opener x).
    now replace (length x + (k - length x)) with k by lia.
  - destruct (Nat.le_gt_cases (k + length opener) (length x)) as [Hin|Hout].
    + apply (Hx k). exact (proj1 (occ_app_left opener x (c :: rest) k Hin) Hocc).
    + unfold occ in Hocc. rewrite skipn_app in Hocc.
      replace (k - length x) with 0 in Hocc by lia. cbn [skipn] in Hocc.
      assert (Hlen : length (skipn k x) = length x - k) by apply length_skipn.
      change (length opener) with 4 in Hout.
      apply startsWith_split in Hocc. cbn [opener length skipn] in Hocc.
      destruct (skipn k x) as [|a [|b [|d [|e u]]]]; cbn [length] in Hlen;
        try lia; cbn in Hocc; injection Hocc; intros; subst; congruence.
Qed.

Lemma no_opener_without_hyphen (s : str) :
  ~ In "-"%char s -> forall k, ~ occ opener s k.
Proof.
  intros Hs k Hocc. apply Hs.
  apply (occ_incl opener s k); [assumption|]. right. right. now left.
Qed.

Lemma splitOn_pieces (c : ascii) (s piece : str) :
  In piece (splitOn c s) -> ~ In c piece.
Proof.
  revert piece. induction s as [|x s IH]; intros piece; cbn [splitOn].
  - intros [<-|[]] [].
  - destruct (Ascii.eqb_spec x c) as [->|Hx].
    + intros [<-|Hin]; [intros []|now apply IH].
    + destruct (splitOn c s) as [|w ws] eqn:E.
      * intros [<-|[]] [H|[]]. congruence.
      * intros [<-|Hin].
        -- intros [H|H]; [congruence|]. apply (IH w); [now left|assumption].
        -- apply IH. now right.
Qed.

Lemma toUpperCaseChar_no_hyphen (c : ascii) :
  c <> "-"%char -> ~ In "-"%char (toUpperCaseChar c).
Proof.
  destruct c as [[] [] [] [] [] [] [] []]; vm_compute;
    intros Hc H; repeat (destruct H as [H|H]; [try discriminate H|]);
    try contradiction; now apply Hc.
Qed.

Lemma capitalize_no_hyphen (word : str) :
  ~ In "-"%char word -> ~ In "-"%char (capitalize word).
Proof.
  destruct word as [|c rest]; [trivial|]. cbn [capitalize].
  intros Hw H. apply in_app_or in H as [H|H].
  - apply (toUpperCaseChar_no_hyphen c); [|assumption].
    intros ->. apply Hw. now left.
  - apply Hw. now right.
Qed.

Lemma formatDisplayName_no_hyphen (id : str) :
  ~ In "-"%char (formatDisplayName id).
Proof.
  unfold formatDisplayName. intros H.
  apply join_chars in H as [H|(p & Hp & Hc)].
  - destruct H as [H|[]]. discriminate H.
  - apply in_map_iff in Hp as (word & <- & Hword).
    exact (capitalize_no_hyphen word (splitOn_pieces _ _ _ Hword) Hc).
Qed.

(** X30.  The lines [generateIndexBlock] puts between the two markers hold
    no comment opener, and so neither marker of the identifier, where the
    root path and the index hold none: the display name never does. *)
Theorem block_lines_hold_no_marker (id rootPath index : str) :
  includes opener rootPath = false ->
  includes opener index = false ->
  let lines := blockBody (formatDisplayName id) rootPath index in
  (forall k, ~ occ opener lines k)
  /\ includes (getStartMarker id) lines = false
  /\ includes (getEndMarker id) lines = false.
Proof.
  intros Hroot Hindex lines.
  assert (Hdn : forall k, ~ occ opener (formatDisplayName id) k)
    by (apply no_opener_without_hyphen, formatDisplayName_no_hyphen).
  assert (Hr : forall k, ~ occ opener rootPath k)
    by (intros k; now apply includes_false).
  assert (Hi : forall k, ~ occ opener index k)
    by (intros k; now apply includes_false).
  assert (Hnone : forall k, ~ occ opener lines k).
  { subst lines. unfold blockBody.
    apply (no_opener_in_literal [nl]); [reflexivity|].
    apply (no_opener_in_literal (L "[")); [reflexivity|].
    change (L "]" ++ [nl] ++ ?x) with ("]"%char :: [nl] ++ x).
    apply no_opener_behind_text; [assumption|discriminate|discriminate|].
    apply (no_opener_in_literal ("]"%char :: [nl])); [reflexivity|].
    apply (no_opener_in_literal (L "root: ")); [reflexivity|].
    change ([nl; nl] ++ ?x) with (nl :: [nl] ++ x).
    apply no_opener_behind_text; [assumption|discriminate|discriminate|].
    apply (no_opener_in_literal [nl; nl]); [reflexivity|].
    apply (no_opener_in_literal
             (L "IMPORTANT: Use retrieval-led reasoning. When you need "));
      [reflexivity|].
    change (L " information, read files from the root directory above."
            ++ [nl; nl] ++ ?x)
      with (" "%char
            :: L "information, read files from the root directory above."
            ++ [nl; nl] ++ x).
    apply no_opener_behind_text; [assumption|discriminate|discriminate|].
    apply (no_opener_in_literal
             (L " information, read files from the root directory above."));
      [reflexivity|].
    apply (no_opener_in_literal [nl; nl]); [reflexivity|].
    apply no_opener_behind_text; [assumption|discriminate|discriminate|].
    intros k Hocc. pose proof (occ_bound _ _ _ Hocc ltac:(discriminate)) as Hb.
    cbn in Hb. lia. }
  assert (Hfree : forall marker, startsWith opener marker = true ->
                   includes marker lines = false).
  { intros marker Hm. unfold includes.
    rewrite (indexOf_none_intro marker lines); [reflexivity|].
    intros k Hocc. apply (Hnone k). unfold occ in *.
    exact (startsWith_trans opener marker _ Hm Hocc). }
  split; [exact Hnone|]. split; apply Hfree; reflexivity.
Qed.

Lemma block_lines_hold_no_marker_witness :
  includes (getEndMarker (L "react-docs"))
    (blockBody (formatDisplayName (L "react-docs")) (L "./.docs/react-docs")
       (L "react-docs:{intro.md}")) = false.
Proof.
  exact (proj2 (proj2 (block_lines_hold_no_marker (L "react-docs")
                         (L "./.docs/react-docs") (L "react-docs:{intro.md}")
                         eq_refl eq_refl))).
Defined.

End BlockLines.

(** ** More of the repository's tests, on the embedding *)

Section MoreRepositoryTests.

Example test_normalizeEntry :
  map Gitignore.normalizeEntry
    [L ".docs"; L "./.docs"; L ".docs/"; L "./.docs/"; L "docs\"]
  = [L ".docs"; L ".docs"; L ".docs"; L ".docs"; L "docs"].
Proof. reflexivity. Qed.

Example test_inferCommands_npm :
  Project.inferCommands
    [(L "dev", L "next dev"); (L "build", L "next build");
     (L "test", L "jest"); (L "lint", L "eslint .")] Project.npm
  = {| Project.install := L "npm install"; Project.dev := L "npm run dev";
       Project.build := L "npm run build"; Project.test := L "npm run test";
       Project.lint := L "npm run lint" |}.
Proof. reflexivity. Qed.

Example test_inferCommands_yarn_start :
  Project.dev (Project.inferCommands [(L "start", L "node server.js")] Project.yarn)
  = L "yarn start".
Proof. reflexivity. Qed.

Example test_inferCommands_prefers_dev :
  Project.dev
    (Project.inferCommands
       [(L "start", L "node index.js"); (L "dev", L "nodemon index.js")]
       Project.npm)
  = L "npm run dev".
Proof. reflexivity. Qed.

Example test_listSources :
  Generator.listSources
    (Some ([nl] ++ L "<!-- DOCS-INDEX-START:source1 -->" ++ [nl] ++ L "content1"
           ++ [nl] ++ L "<!-- DOCS-INDEX-END:source1 -->" ++ [nl; nl]
           ++ L "<!-- DOCS-INDEX-START:source2 -->" ++ [nl] ++ L "content2"
           ++ [nl] ++ L "<!-- DOCS-INDEX-END:source2 -->" ++ [nl]))
  = [L "source1"; L "source2"]
  /\ Generator.listSources None = [].
Proof. by_evaluation. Qed.

Example test_createIndex_skips_hidden :
  IndexerFs.createIndex codeUnitCompare (L "/tmp/t")
    (IndexerFs.IsDirectory
       (IndexerFs.Readable
          [ IndexerFs.DirectoryEntry (L ".hidden")
              [IndexerFs.FileEntry (L "secret.md")];
            IndexerFs.FileEntry (L "visible.md") ]))
  = inr (L "t:{visible.md}")
  /\ IndexerFs.createIndex codeUnitCompare (L "/tmp/t")
       (IndexerFs.IsDirectory (IndexerFs.Readable []))
     = inl (IndexerFs.NoMarkdownFiles (L "/tmp/t"))
  /\ IndexerFs.createIndex codeUnitCompare (L "/nonexistent/path") IndexerFs.Absent
     = inl (IndexerFs.IndexDirectoryNotFound (L "/nonexistent/path")).
Proof. by_evaluation. Qed.

Example test_isLlmsTxtUrl :
  map LlmsTxt.isLlmsTxtUrl
    [L "https://example.com/llms.txt"; L "https://example.com/LLM.TXT";
     L "https://example.com/docs"]
  = [true; true; false].
Proof. reflexivity. Qed.

End MoreRepositoryTests.
